(** * detect.py: the detection driver of yolov5-rt-stack, embedded in Rocq

    The script loads a detection model, walks over the image paths of a
    dataset, runs one forward pass per image and writes annotated images and
    label files.  Every function of [detect.py] is embedded below as a
    computation in a state-and-exception monad over an explicit [World]
    (files on disk, standard output, the clock) that also records, as ghost
    state, the sequence of library calls in program order.

    Code that [detect.py] imports but does not define (OpenCV, torch, the
    model, [utils.datasets], [utils.general], [argparse]) is taken as a
    record of oracles, [Ext]. *)

From Stdlib Require Import ZArith Bool Ascii String List Lia.
From Stdlib.Strings Require Import Byte.
From Stdlib Require Import SpecFloat.
From Stdlib Require Import Sorted.
From stdpp Require Import base option list strings pretty gmap fin_maps.

Local Open Scope Z_scope.

(* ===================================================================== *)
(** ** IEEE binary32 and binary64 numbers *)
(* ===================================================================== *)

(** numpy's [float32] and torch's default dtype are IEEE binary32; Python's
    own [float] is binary64.  Both are [spec_float] with the precision and
    exponent range of the format. *)
Module F32.
Definition prec : Z := 24.
Definition emax : Z := 128.

Definition of_Z (z : Z) : spec_float := binary_normalize prec emax z 0 false.
Definition of_u8 (b : byte) : spec_float := of_Z (Z.of_N (Byte.to_N b)).

Definition add : spec_float -> spec_float -> spec_float := SFadd prec emax.
Definition sub : spec_float -> spec_float -> spec_float := SFsub prec emax.
Definition div : spec_float -> spec_float -> spec_float := SFdiv prec emax.
Definition leb : spec_float -> spec_float -> bool := SFleb.

Definition zero : spec_float := S754_zero false.
Definition one : spec_float := of_Z 1.
Definition two : spec_float := of_Z 2.
Definition c255 : spec_float := of_Z 255.

(** [torch.round]: to the nearest integer, ties to the even one.  A float
    whose exponent is not negative is an integer already; infinities and
    NaN are returned as they are. *)
Definition round (x : spec_float) : spec_float :=
  match x with
  | S754_finite s m e =>
      if 0 <=? e then x
      else
        let d := 2 ^ (- e) in
        let q := Z.pos m / d in
        let r := Z.pos m mod d in
        let n := if 2 * r <? d then q
                 else if d <? 2 * r then q + 1
                 else if Z.even q then q else q + 1 in
        if n =? 0 then S754_zero s
        else binary_normalize prec emax (if s then - n else n) 0 s
  | _ => x
  end.
End F32.

Module F64.
Definition prec : Z := 53.
Definition emax : Z := 1024.
Definition of_Z (z : Z) : spec_float := binary_normalize prec emax z 0 false.
Definition sub : spec_float -> spec_float -> spec_float := SFsub prec emax.
End F64.

(* ===================================================================== *)
(** ** Exceptions *)
(* ===================================================================== *)

(** The Python exceptions the script can meet.  [External who msg] is an
    exception raised inside a library ([cv2.error], [SystemExit] of argparse,
    a failed checkpoint load, ...). *)
Inductive Exn : Type :=
| UnboundLocalError (var : string)
| KeyError (key : string)
| IndexError (what : string)
| TypeError (what : string)
| RuntimeError (what : string)
| FileNotFoundError (path : string)
| OSError (path : string)
| External (who msg : string).

(* ===================================================================== *)
(** ** Arrays and tensors *)
(* ===================================================================== *)

(** What [cv2.imread] decodes with its default flag: [rows] x [cols] pixels
    of three 8-bit channels, in B, G, R order. *)
Record Mat : Type := {
  rows : nat;
  cols : nat;
  pixel : nat -> nat -> nat -> byte   (* row, column, channel *)
}.

(** A three-dimensional array: its shape and its elements by index. *)
Record ndarray3 (A : Type) : Type := {
  dim0 : nat;
  dim1 : nat;
  dim2 : nat;
  item : nat -> nat -> nat -> A
}.
Arguments dim0 {A} _.
Arguments dim1 {A} _.
Arguments dim2 {A} _.
Arguments item {A} _ _ _ _.

(** A numpy array of dtype float32, of one or of three dimensions. *)
Inductive array : Type :=
| A1 (v : list spec_float)
| A3 (a : ndarray3 spec_float).

Inductive Device : Type := Cpu | Cuda.

(** A torch tensor of dtype float32: the array and the device holding it. *)
Record Tensor : Type := {
  t_data : array;
  t_device : Device
}.

(** [np.ascontiguousarray(img, dtype=np.float32)].  [cv2.imread] gives [None]
    for a file it cannot decode, and numpy turns [None] into the
    one-element array [[nan]]. *)
Definition ascontiguousarray (img : option Mat) : array :=
  match img with
  | None => A1 [S754_nan]
  | Some m =>
      A3 {| dim0 := rows m; dim1 := cols m; dim2 := 3;
            item := fun i j k => F32.of_u8 (pixel m i j k) |}
  end.

(** [img /= 255.0] *)
Definition idiv (a : array) (d : spec_float) : array :=
  match a with
  | A1 v => A1 (map (fun x => F32.div x d) v)
  | A3 t =>
      A3 {| dim0 := dim0 t; dim1 := dim1 t; dim2 := dim2 t;
            item := fun i j k => F32.div (item t i j k) d |}
  end.

Definition from_numpy (a : array) : Tensor :=
  {| t_data := a; t_device := Cpu |}.

(** [img.permute(2, 0, 1)]: the result's axis 0 is the argument's axis 2.
    torch refuses a tensor that does not have three dimensions. *)
Definition permute_2_0_1 (t : Tensor) : Exn + Tensor :=
  match t_data t with
  | A1 _ => inl (RuntimeError "permute: number of dims don't match")
  | A3 a =>
      inr {| t_data :=
               A3 {| dim0 := dim2 a; dim1 := dim0 a; dim2 := dim1 a;
                     item := fun c i j => item a i j c |};
             t_device := t_device t |}
  end.

Definition to_device (t : Tensor) (d : Device) : Tensor :=
  {| t_data := t_data t; t_device := d |}.

(** [torch.zeros((3, n, n), device=device)] *)
Definition zeros3 (n : Z) (d : Device) : Tensor :=
  {| t_data := A3 {| dim0 := 3; dim1 := Z.to_nat n; dim2 := Z.to_nat n;
                     item := fun _ _ _ => F32.zero |};
     t_device := d |}.

(* ===================================================================== *)
(** ** Strings, paths and Python lists *)
(* ===================================================================== *)

Definition is_digit (c : ascii) : bool :=
  let n := nat_of_ascii c in (48 <=? n)%nat && (n <=? 57)%nat.

Fixpoint all_chars (p : ascii -> bool) (s : string) : bool :=
  match s with
  | EmptyString => true
  | String c s' => p c && all_chars p s'
  end.

(** [str.isnumeric], on ASCII text: at least one character, all digits. *)
Definition isnumeric (s : string) : bool :=
  negb (String.eqb s "") && all_chars is_digit s.

Definition startswith (s pre : string) : bool := String.prefix pre s.

Definition endswith (s suf : string) : bool :=
  String.prefix (String.rev suf) (String.rev s).

(** The pieces of [s] between the occurrences of [sep]. *)
Fixpoint split_go (sep : ascii) (cur : string) (s : string) : list string :=
  match s with
  | EmptyString => [String.rev cur]
  | String c s' =>
      if Ascii.eqb c sep then String.rev cur :: split_go sep "" s'
      else split_go sep (String c cur) s'
  end.

Definition split (sep : ascii) (s : string) : list string := split_go sep "" s.

Fixpoint join (sep : string) (l : list string) : string :=
  match l with
  | [] => ""
  | [x] => x
  | x :: l' => x +:+ sep +:+ join sep l'
  end.

(** A [pathlib.PurePosixPath]: whether it starts at the root, and its
    components.  Empty components and [.] are dropped when a path is built
    from a string, as pathlib does. *)
Record Path : Type := {
  anchored : bool;
  parts : list string
}.

Definition keep_part (p : string) : bool :=
  negb (String.eqb p "") && negb (String.eqb p ".").

Definition Path_of (s : string) : Path :=
  {| anchored := startswith s "/";
     parts := filter (fun p => keep_part p = true) (split "/" s) |}.

Definition Path_str (p : Path) : string :=
  if anchored p then "/" +:+ join "/" (parts p)
  else match parts p with [] => "." | _ => join "/" (parts p) end.

(** [Path.name]: the last component, or the empty string. *)
Definition Path_name (p : Path) : string := List.last (parts p) "".

(** [Path.stem]: the name without its last suffix.  A name has a suffix when
    its last dot is neither its first nor its last character. *)
Definition Path_stem (p : Path) : string :=
  let name := Path_name p in
  match String.index 0 "." (String.rev name) with
  | Some j =>
      let i := (String.length name - 1 - j)%nat in
      if (0 <? j)%nat && (0 <? i)%nat then String.substring 0 i name else name
  | None => name
  end.

(** [Path.joinpath(other)] for a relative [other]. *)
Definition joinpath (p : Path) (other : string) : Path :=
  {| anchored := anchored p; parts := parts p ++ parts (Path_of other) |}.

(** [l[i]] of a Python list: a negative index counts from the end. *)
Definition py_index {A : Type} (l : list A) (i : Z) : option A :=
  let n := Z.of_nat (length l) in
  if (0 <=? i) && (i <? n) then l !! Z.to_nat i
  else if (- n <=? i) && (i <? 0) then l !! Z.to_nat (n + i)
  else None.

(** [str.isspace] of a character.  A string holds the code points of a
    text, those below 256: the white space among them is the blank, the
    controls 9 to 13 and 28 to 31, NEL (133) and the no-break space (160). *)
Definition is_space (c : ascii) : bool :=
  let n := nat_of_ascii c in
  (n =? 32)%nat || ((9 <=? n)%nat && (n <=? 13)%nat)
  || ((28 <=? n)%nat && (n <=? 31)%nat) || (n =? 133)%nat || (n =? 160)%nat.

Fixpoint lstrip (s : string) : string :=
  match s with
  | String c s' => if is_space c then lstrip s' else s
  | EmptyString => s
  end.

(** [str.strip] *)
Definition strip (s : string) : string :=
  String.rev (lstrip (String.rev (lstrip s))).

(** What reading in text mode makes of the line ends of a file (Python's
    universal newlines): a carriage return followed by a line feed, and a
    carriage return on its own, are each handed over as one line feed. *)
Fixpoint universal_newlines (s : string) : string :=
  match s with
  | EmptyString => ""
  | String c s' =>
      if Ascii.eqb c "013" then
        String "010"
          match s' with
          | String c' s'' =>
              if Ascii.eqb c' "010" then universal_newlines s''
              else universal_newlines s'
          | EmptyString => ""
          end
      else String c (universal_newlines s')
  end.

(** The lines of a text: each goes up to and includes its line feed; what
    follows the last line feed is a line too, unless it is empty.  [cur]
    holds the line being read, last character first. *)
Fixpoint lines_go (cur : string) (s : string) : list string :=
  match s with
  | EmptyString =>
      match cur with
      | EmptyString => []
      | _ => [String.rev cur]
      end
  | String c s' =>
      if Ascii.eqb c "010" then String.rev (String c cur) :: lines_go "" s'
      else lines_go (String c cur) s'
  end.

(** The lines a text file yields when it is iterated ([for line in f]). *)
Definition file_lines (s : string) : list string :=
  lines_go "" (universal_newlines s).

(** [labels.unique()]: the distinct values, in increasing order. *)
Fixpoint insert_unique (x : Z) (l : list Z) : list Z :=
  match l with
  | [] => [x]
  | y :: l' =>
      if x <? y then x :: l
      else if x =? y then l
      else y :: insert_unique x l'
  end.

Definition unique (l : list Z) : list Z := foldr insert_unique [] l.

(** [(labels == c).sum()] *)
Definition count_eq (c : Z) (l : list Z) : Z :=
  Z.of_nat (length (filter (fun x => x = c) l)).

(** [zip] of three sequences stops with the shortest. *)
Fixpoint zip3 {A B C : Type} (a : list A) (b : list B) (c : list C)
  : list (A * B * C) :=
  match a, b, c with
  | x :: a', y :: b', z :: c' => (x, y, z) :: zip3 a' b' c'
  | _, _, _ => []
  end.

(* ===================================================================== *)
(** ** Predictions, arguments, model and dataset *)
(* ===================================================================== *)

(** A row of a [N, 4] tensor of boxes. *)
Definition box : Type := spec_float * spec_float * spec_float * spec_float.

(** The tensors a prediction holds: [N, 4] float boxes, [N] float scores,
    [N] int64 labels. *)
Inductive tval : Type :=
| TBoxes (b : list box)
| TFloats (v : list spec_float)
| TLongs (v : list Z).

(** One element of the model's output: [None], or a dict from names to
    tensors ([len(pred)] is the number of its keys). *)
Definition Detection : Type := option (gmap string tval).

Definition Color : Type := Z * Z * Z.

(** The [argparse.Namespace].  [webcam], [mode], [names] and [colors] are the
    attributes [main] adds to it.  The options [conf_thres], [iou_thres],
    [view_img], [classes], [agnostic_nms] and [augment] are parsed and never
    read, and are left out. *)
Record Args : Type := {
  model_cfg : string;
  checkpoint : string;
  labelmap : string;
  input_source : string;
  output_dir : string;
  img_size : Z;
  gpu : bool;
  save_txt : bool;
  save_img : bool;
  webcam : bool;
  mode : string;
  names : list string;
  colors : list Color
}.

Definition with_webcam (a : Args) (b : bool) : Args :=
  {| model_cfg := model_cfg a; checkpoint := checkpoint a;
     labelmap := labelmap a; input_source := input_source a;
     output_dir := output_dir a; img_size := img_size a; gpu := gpu a;
     save_txt := save_txt a; save_img := save_img a;
     webcam := b; mode := mode a; names := names a; colors := colors a |}.

Definition with_mode (a : Args) (m : string) : Args :=
  {| model_cfg := model_cfg a; checkpoint := checkpoint a;
     labelmap := labelmap a; input_source := input_source a;
     output_dir := output_dir a; img_size := img_size a; gpu := gpu a;
     save_txt := save_txt a; save_img := save_img a;
     webcam := webcam a; mode := m; names := names a; colors := colors a |}.

Definition with_names (a : Args) (n : list string) : Args :=
  {| model_cfg := model_cfg a; checkpoint := checkpoint a;
     labelmap := labelmap a; input_source := input_source a;
     output_dir := output_dir a; img_size := img_size a; gpu := gpu a;
     save_txt := save_txt a; save_img := save_img a;
     webcam := webcam a; mode := mode a; names := n; colors := colors a |}.

Definition with_colors (a : Args) (c : list Color) : Args :=
  {| model_cfg := model_cfg a; checkpoint := checkpoint a;
     labelmap := labelmap a; input_source := input_source a;
     output_dir := output_dir a; img_size := img_size a; gpu := gpu a;
     save_txt := save_txt a; save_img := save_img a;
     webcam := webcam a; mode := mode a; names := names a; colors := c |}.

(** The model object: which network it is, and the flags that [eval],
    [to] and [half] set on it. *)
Record Model : Type := {
  net : string;
  training : bool;
  m_device : Device;
  m_half : bool
}.

Definition model_eval (m : Model) : Model :=
  {| net := net m; training := false; m_device := m_device m;
     m_half := m_half m |}.

Definition model_to (m : Model) (d : Device) : Model :=
  {| net := net m; training := training m; m_device := d;
     m_half := m_half m |}.

Definition model_half (m : Model) : Model :=
  {| net := net m; training := training m; m_device := m_device m;
     m_half := true |}.

(** What [LoadImages] gives: its [mode] attribute and, for each item it
    yields, the path in the item's first position. *)
Record Dataset : Type := {
  ds_mode : string;
  ds_paths : list string
}.

(** The libraries the script calls.  The forward pass is a function of the
    model object and of its input: the script only runs it in eval mode and
    under [torch.no_grad].  The clock and the random generator are read by
    position: the [k]-th reading of the run. *)
Record Ext : Type := {
  argparse : list string -> Exn + Args;
  repr_args : Args -> string;
  cuda_is_available : bool;
  hub_yolov5 : string -> string -> Exn + Model;
  stride_max : Model -> Z;
  forward : Model -> list Tensor -> Exn + list Detection;
  check_img_size : Z -> Z -> Z;
  load_images : string -> Z -> Exn + Dataset;
  box_xyxy_to_cxcywh : box -> box;       (* utils.general: a [4] tensor *)
  plot_one_box : box -> Mat -> string -> Color -> Exn + Mat;
  now : nat -> spec_float;
  randint : nat -> Z;
  pct_g : spec_float -> string;          (* the %g conversion *)
  pct_f : nat -> spec_float -> string    (* the %.<n>f conversion *)
}.

(* ===================================================================== *)
(** ** The world and the monad of the script *)
(* ===================================================================== *)

(** The calls that reach outside the script, in the order they happen, and
    the entry and exit of [inference] and [overlay_boxes].  [ERaise] marks
    the point where an exception is raised. *)
Inductive Event : Type :=
| EParseArgs
| EMkdir (dir : string)
| EPrint (line : string)
| ELoadModel (cfg ckpt : string)
| ELoadImages (src : string)
| EOpenRead (path : string)
| EForward
| EImread (path : string)
| EOpenAppend (path : string)
| EWrite (path line : string)
| EPlot (label : string)
| EImwrite (path : string)
| EInference (path : string)
| EInferenceDone
| EOverlay (path : string)
| EOverlayDone
| ERaise (e : Exn).

(** Image files and text files are kept apart: [cv2.imwrite] only writes
    under a name with an image extension, and every label file is named
    [<stem>.txt].  [faults] lists the paths the operating system refuses to
    open or create, with the error [open] and [mkdir] raise for them. *)
Record World : Type := {
  images : gmap string Mat;
  texts : gmap string string;
  faults : gmap string Exn;
  stdout : list string;
  ticks : nat;            (* clock readings so far *)
  draws : nat;            (* random numbers drawn so far *)
  trace : list Event
}.

Definition log (ev : Event) (w : World) : World :=
  {| images := images w; texts := texts w; faults := faults w;
     stdout := stdout w; ticks := ticks w; draws := draws w;
     trace := trace w ++ [ev] |}.

Definition set_images (f : gmap string Mat) (w : World) : World :=
  {| images := f; texts := texts w; faults := faults w;
     stdout := stdout w; ticks := ticks w; draws := draws w;
     trace := trace w |}.

Definition set_texts (f : gmap string string) (w : World) : World :=
  {| images := images w; texts := f; faults := faults w;
     stdout := stdout w; ticks := ticks w; draws := draws w;
     trace := trace w |}.

Definition set_stdout (o : list string) (w : World) : World :=
  {| images := images w; texts := texts w; faults := faults w;
     stdout := o; ticks := ticks w; draws := draws w;
     trace := trace w |}.

Definition set_ticks (n : nat) (w : World) : World :=
  {| images := images w; texts := texts w; faults := faults w;
     stdout := stdout w; ticks := n; draws := draws w;
     trace := trace w |}.

Definition set_draws (n : nat) (w : World) : World :=
  {| images := images w; texts := texts w; faults := faults w;
     stdout := stdout w; ticks := ticks w; draws := n;
     trace := trace w |}.

(** A computation either returns a value or raises, and leaves a world
    either way: what was written before an exception stays written. *)
Definition M (A : Type) : Type := World -> (Exn + A) * World.

Definition ret {A : Type} (a : A) : M A := fun w => (inr a, w).

Definition bind {A B : Type} (m : M A) (k : A -> M B) : M B :=
  fun w =>
    match m w with
    | (inl e, w') => (inl e, w')
    | (inr a, w') => k a w'
    end.

Definition emit (ev : Event) : M unit := fun w => (inr tt, log ev w).

Definition raise {A : Type} (e : Exn) : M A :=
  fun w => (inl e, log (ERaise e) w).

Definition lift {A : Type} (r : Exn + A) : M A :=
  match r with
  | inl e => raise e
  | inr a => ret a
  end.

Definition get {A : Type} (f : World -> A) : M A := fun w => (inr (f w), w).

Definition modify (f : World -> World) : M unit := fun w => (inr tt, f w).

Declare Scope py_scope.
Delimit Scope py_scope with py.
Notation "'do' x <- m ; k" := (bind m (fun x => k))
  (at level 10, x name, m at level 100, k at level 200) : py_scope.
Notation "'do' ' p <- m ; k" := (bind m (fun x => match x with p => k end))
  (at level 10, p pattern, m at level 100, k at level 200) : py_scope.
Notation "m >> k" := (bind m (fun _ => k))
  (at level 100, k at level 200, right associativity) : py_scope.
Local Open Scope py_scope.

Definition when (b : bool) (m : M unit) : M unit := if b then m else ret tt.

(** A [for] loop that carries the variables its body assigns. *)
Fixpoint foldM {A S : Type} (f : S -> A -> M S) (l : list A) (s : S) : M S :=
  match l with
  | [] => ret s
  | x :: l' => do s' <- f s x; foldM f l' s'
  end.

(** *** The library calls *)

Definition print (line : string) : M unit :=
  emit (EPrint line) >> modify (fun w => set_stdout (stdout w ++ [line]) w).

(** [cv2.imread]: the decoded image, or [None]; it never raises. *)
Definition imread (path : string) : M (option Mat) :=
  emit (EImread path) >> get (fun w => images w !! path).

(** [cv2.imwrite]: raises on an empty image; where the file cannot be
    written it writes nothing and returns [False], without raising. *)
Definition imwrite (path : string) (img : option Mat) : M bool :=
  emit (EImwrite path) >>
  match img with
  | None => raise (External "cv2.imwrite" "empty image")
  | Some m =>
      do f <- get (fun w => faults w !! path);
      match f with
      | Some _ => ret false
      | None =>
          modify (fun w => set_images (<[path := m]> (images w)) w) >> ret true
      end
  end.

(** [open(path, 'a')]: creates the file when it is absent, keeps its
    content otherwise. *)
Definition open_append (path : string) : M unit :=
  emit (EOpenAppend path) >>
  do f <- get (fun w => faults w !! path);
  match f with
  | Some e => raise e
  | None =>
      modify (fun w =>
        match texts w !! path with
        | Some _ => w
        | None => set_texts (<[path := ""]> (texts w)) w
        end)
  end.

(** [f.write(line)] on a file opened for appending. *)
Definition write (path line : string) : M unit :=
  emit (EWrite path line) >>
  modify (fun w =>
    set_texts (<[path := default "" (texts w !! path) +:+ line]> (texts w)) w).

(** [open(path, 'r')] and reading the whole file. *)
Definition open_read (path : string) : M string :=
  emit (EOpenRead path) >>
  do f <- get (fun w => faults w !! path);
  match f with
  | Some e => raise e
  | None =>
      do c <- get (fun w => texts w !! path);
      match c with
      | Some s => ret s
      | None => raise (FileNotFoundError path)
      end
  end.

(** [Path(dir).mkdir(parents=True, exist_ok=True)] *)
Definition mkdir (dir : string) : M unit :=
  emit (EMkdir dir) >>
  do f <- get (fun w => faults w !! dir);
  match f with
  | Some e => raise e
  | None => ret tt
  end.

Section Detect.

Variable X : Ext.

(** [time.time()] and [time_synchronized()] both read the clock. *)
Definition time_time : M spec_float :=
  do k <- get ticks;
  modify (set_ticks (S k)) >> ret (now X k).

Definition time_synchronized : M spec_float := time_time.

Definition random_randint : M Z :=
  do k <- get draws;
  modify (set_draws (S k)) >> ret (randint X k).

(** [model(inputs)] *)
Definition model_call (m : Model) (inputs : list Tensor) : M (list Detection) :=
  emit EForward >> lift (forward X m inputs).

Definition yolov5 (cfg ckpt : string) : M Model :=
  emit (ELoadModel cfg ckpt) >> lift (hub_yolov5 X cfg ckpt).

Definition LoadImages (src : string) (imgsz : Z) : M Dataset :=
  emit (ELoadImages src) >> lift (load_images X src imgsz).

Definition parse_args (argv : list string) : M Args :=
  emit EParseArgs >> lift (argparse X argv).

(* ===================================================================== *)
(** ** The functions of detect.py *)
(* ===================================================================== *)

(** [load_names(category_path)] *)
Definition load_names (category_path : string) : M (list string) :=
  do content <- open_read category_path;
  ret (map strip (file_lines content)).

(** [read_image(img_name, is_half)] *)
Definition read_image (img_name : string) (is_half : bool) : M Tensor :=
  do img <- imread img_name;
  let img := ascontiguousarray img in
  let img := idiv img F32.c255 in
  let img := from_numpy img in
  lift (permute_2_0_1 img).

(** [inference(model, img_name, device, is_half)].  [model.eval()] changes
    the model object the caller holds, so the model is handed back. *)
Definition inference (model : Model) (img_name : string) (device : Device)
    (is_half : bool) : M (Model * list Detection * spec_float) :=
  emit (EInference img_name) >>
  let model := model_eval model in
  do img <- read_image img_name is_half;
  let img := to_device img device in
  do t1 <- time_synchronized;
  do detections <- model_call model [img];
  do t2 <- time_synchronized;
  let time_consume := F64.sub t2 t1 in
  emit EInferenceDone >>
  ret (model, detections, time_consume).

Definition round_box (b : box) : box :=
  let '(x0, y0, x1, y1) := b in
  (F32.round x0, F32.round y0, F32.round x1, F32.round y1).

(** [pred[key]] *)
Definition getitem (pred : gmap string tval) (key : string) : M tval :=
  match pred !! key with
  | Some v => ret v
  | None => raise (KeyError key)
  end.

(** The model gives boxes, scores and labels the tensor kinds named in
    [tval]; a value of another kind under a key is refused. *)
Definition as_boxes (v : tval) : M (list box) :=
  match v with
  | TBoxes b => ret b
  | _ => raise (TypeError "boxes")
  end.

Definition as_floats (v : tval) : M (list spec_float) :=
  match v with
  | TFloats s => ret s
  | _ => raise (TypeError "scores")
  end.

Definition as_longs (v : tval) : M (list Z) :=
  match v with
  | TLongs l => ret l
  | _ => raise (TypeError "labels")
  end.

(** [seq[int(c)]] *)
Definition index {A : Type} (what : string) (l : list A) (c : Z) : M A :=
  match py_index l c with
  | Some x => ret x
  | None => raise (IndexError what)
  end.

(** [('%g ' * 5 + '\n') % args]: five conversions need five arguments. *)
Definition label_line (args : list spec_float) : M string :=
  match args with
  | [a; b; c; d; e] =>
      ret (pct_g X a +:+ " " +:+ pct_g X b +:+ " " +:+ pct_g X c +:+ " "
           +:+ pct_g X d +:+ " " +:+ pct_g X e +:+ " " +:+ String "010" "")
  | _ => raise (TypeError "format")
  end.

(** The variables of [overlay_boxes] that outlive an iteration of its loop:
    the image being annotated, and [boxes], [scores] and [labels] once they
    have been assigned. *)
Record Locals : Type := {
  l_img : option Mat;
  l_bound : option (list box * list spec_float * list Z)
}.

(** The part of the loop body that handles one detection: lines 70 to 79. *)
Definition overlay_detection (args : Args) (txt_path : Path)
    (img : option Mat) (det : box * spec_float * Z) : M (option Mat) :=
  let '(xyxy, conf, cls_name) := det in
  (if save_txt args then
     let '(cx, cy, bw, bh) := box_xyxy_to_cxcywh X xyxy in
     let xywh := [cx; cy; bw; bh] in
     let file := Path_str txt_path +:+ ".txt" in
     open_append file >>
     do line <- label_line (F64.of_Z cls_name :: xywh);
     write file line
   else ret tt) >>
  if save_img args then
    do name <- index "names" (names args) cls_name;
    let label := name +:+ " " +:+ pct_f X 2 conf in
    do color <- index "colors" (colors args) cls_name;
    emit (EPlot label) >>
    match img with
    | None => raise (External "plot_one_box" "no image")
    | Some m => do m' <- lift (plot_one_box X xyxy m label color); ret (Some m')
    end
  else ret img.

(** One iteration of the loop of [overlay_boxes]: lines 56 to 86. *)
Definition overlay_pred (args : Args) (path : string)
    (time_consume : spec_float) (st : Locals) (ipred : nat * Detection)
    : M Locals :=
  let '(i, pred) := ipred in
  let s := if webcam args then pct_g X (F64.of_Z (Z.of_nat i)) +:+ ": " else "" in
  let save_path := joinpath (Path_of (output_dir args)) (Path_name (Path_of path)) in
  let txt_path := joinpath (Path_of (output_dir args)) (Path_stem (Path_of path)) in
  do '(s, st) <-
    match pred with
    | Some pred =>
        if (0 <? size pred)%nat then
          do b <- getitem pred "boxes";
          do b <- as_boxes b;
          let boxes := map round_box b in
          do sc <- getitem pred "scores";
          do scores <- as_floats sc;
          do lb <- getitem pred "labels";
          do labels <- as_longs lb;
          do s <- foldM (fun s c =>
                    let n := count_eq c labels in
                    do name <- index "names" (names args) c;
                    ret (s +:+ pct_g X (F64.of_Z n) +:+ " " +:+ name +:+ "s, "))
                  (unique labels) s;
          do img <- foldM (overlay_detection args txt_path)
                      (zip3 boxes scores labels) (l_img st);
          ret (s, {| l_img := img; l_bound := Some (boxes, scores, labels) |})
        else ret (s, st)
    | None => ret (s, st)
    end;
  print (s +:+ "Done. (" +:+ pct_f X 3 time_consume +:+ "s)") >>
  when (save_img args && String.eqb (mode args) "images")
    (do _ <- imwrite (Path_str save_path) (l_img st); ret tt) >>
  ret st.

(** [overlay_boxes(detections, path, time_consume, args)] *)
Definition overlay_boxes (detections : list Detection) (path : string)
    (time_consume : spec_float) (args : Args)
    : M (list box * list spec_float * list Z) :=
  emit (EOverlay path) >>
  do img <- (if save_img args then imread path else ret None);
  do st <- foldM (overlay_pred args path time_consume)
             (zip (seq 0 (length detections)) detections)
             {| l_img := img; l_bound := None |};
  match l_bound st with
  | Some r => emit EOverlayDone >> ret r
  | None => raise (UnboundLocalError "boxes")
  end.

(** The body of the [for data in dataset] loop of [main]: lines 129 to 133.
    The loop carries the model object. *)
Definition process_image (device : Device) (is_half : bool) (args : Args)
    (model : Model) (img_name : string) : M Model :=
  do '(model, model_out, time_consume) <-
    inference model img_name device is_half;
  do _ <- overlay_boxes model_out img_name time_consume args;
  ret model.

(** The loop [for data in dataset] of [main]: lines 128 to 133. *)
Definition images_loop (device : Device) (is_half : bool) (args : Args)
    (paths : list string) (model : Model) : M Model :=
  foldM (process_image device is_half args) paths model.

(** [[[random.randint(0, 255) for _ in range(3)] for _ in range(n)]] *)
Definition random_colors (n : nat) : M (list Color) :=
  foldM (fun acc _ =>
           do r <- random_randint;
           do g <- random_randint;
           do b <- random_randint;
           ret (acc ++ [(r, g, b)]))
        (seq 0 n) [].

(** [main(args)] *)
Definition main (args : Args) : M unit :=
  print (repr_args X args) >>
  let device := if cuda_is_available X && gpu args then Cuda else Cpu in
  do model <- yolov5 (model_cfg args) (checkpoint args);
  let model := model_eval model in
  let model := model_to model device in
  let args := with_webcam args
    (isnumeric (input_source args)
     || startswith (input_source args) "rtsp://"
     || startswith (input_source args) "rtmp://"
     || startswith (input_source args) "http://"
     || endswith (input_source args) ".txt") in
  (* set_logging() configures the logging module and touches nothing here *)
  let is_half := false in
  let imgsz := check_img_size X (img_size args) (stride_max X model) in
  let model := if is_half then model_half model else model in
  do dataset <- LoadImages (input_source args) imgsz;
  let args := with_mode args (ds_mode dataset) in
  do lines <- load_names (Path_str (Path_of (labelmap args)));
  let args := with_names args lines in
  do colors <- random_colors (length (names args));
  let args := with_colors args colors in
  do t0 <- time_time;
  let img := zeros3 imgsz device in
  do _ <- model_call model [img];
  do _ <- images_loop device is_half args (ds_paths dataset) model;
  when (save_txt args || save_img args)
    (print ("Results saved to " +:+ output_dir args)) >>
  do t1 <- time_time;
  print ("Done. (" +:+ pct_f X 3 (F64.sub t1 t0) +:+ "s)").

(** The [if __name__ == "__main__"] block, run with the command line
    [argv]. *)
Definition script (argv : list string) : M unit :=
  do args <- parse_args argv;
  when (negb (String.eqb (output_dir args) ""))
    (mkdir (Path_str (Path_of (output_dir args)))) >>
  main args.

End Detect.

(* ===================================================================== *)
(** ** A concrete environment *)
(* ===================================================================== *)

(** A small instance of the libraries and of the disk, on which the
    definitions above can be run: two image files, a label map of two
    classes, and a model that finds as many objects as the image has rows
    beyond the first. *)
Module Demo.

(** The value after the option [name] on the command line. *)
Fixpoint opt_value (name : string) (dflt : string) (argv : list string)
  : string :=
  match argv with
  | o :: ((v :: _) as rest) =>
      if String.eqb o name then v else opt_value name dflt rest
  | _ => dflt
  end.

Definition has_flag (name : string) (argv : list string) : bool :=
  existsb (String.eqb name) argv.

Definition parse (argv : list string) : Exn + Args :=
  if has_flag "--help" argv then inl (External "argparse" "SystemExit")
  else inr
    {| model_cfg := opt_value "--model_cfg" "./models/yolov5s.yaml" argv;
       checkpoint :=
         opt_value "--checkpoint" "./checkpoints/yolov5/yolov5s.pt" argv;
       labelmap :=
         opt_value "--labelmap" "./checkpoints/yolov5/coco.names" argv;
       input_source := opt_value "--input_source" "./.github/" argv;
       output_dir := opt_value "--output_dir" "./data-bin/output" argv;
       img_size := 416;
       gpu := has_flag "--gpu" argv;
       save_txt := has_flag "--save_txt" argv;
       save_img := has_flag "--save_img" argv;
       webcam := false; mode := ""; names := []; colors := [] |}.

Definition hub (cfg ckpt : string) : Exn + Model :=
  if String.eqb ckpt "missing.pt" then inl (FileNotFoundError ckpt)
  else inr {| net := ckpt; training := true; m_device := Cpu;
              m_half := false |}.

Definition f (z : Z) : spec_float := F32.of_Z z.

Definition candidates : list (box * spec_float * Z) :=
  [ ((f 10, f 20, F32.div (f 61) F32.two, f 80), F32.div (f 7) (f 8), 1);
    ((f 0, f 0, f 5, f 4), F32.div (f 1) F32.two, 0);
    ((f 3, f 3, f 9, f 9), F32.div (f 3) (f 4), 1) ].

Definition pred_of (n : nat) : gmap string tval :=
  let c := take n candidates in
  <["boxes" := TBoxes (map (fun d => fst (fst d)) c)]>
    (<["scores" := TFloats (map (fun d => snd (fst d)) c)]>
       (<["labels" := TLongs (map snd c)]> ∅)).

(** One prediction per input tensor; an image of [r] rows holds [r - 1]
    objects. *)
Definition fwd (m : Model) (inputs : list Tensor)
  : Exn + list Detection :=
  if training m then inl (External "model" "targets required")
  else inr (map (fun t =>
              match t_data t with
              | A3 a => Some (pred_of (dim1 a - 1))
              | A1 _ => None
              end) inputs).

Definition glob (src : string) (imgsz : Z) : Exn + Dataset :=
  if String.eqb src "imgs" then
    inr {| ds_mode := "images"; ds_paths := ["imgs/a.jpg"; "imgs/b.jpg"] |}
  else if String.eqb src "clip.mp4" then
    inr {| ds_mode := "video"; ds_paths := ["imgs/a.jpg"] |}
  else if String.eqb src "empty" then
    inr {| ds_mode := "images"; ds_paths := [] |}
  else inl (External "LoadImages" "does not exist").

(** Drawing marks the corner pixel. *)
Definition draw (b : box) (m : Mat) (label : string) (c : Color)
  : Exn + Mat :=
  inr {| rows := rows m; cols := cols m;
         pixel := fun i j k =>
           match i, j with
           | O, O => "255"%byte
           | _, _ => pixel m i j k
           end |}.

(** A decimal rendering of a finite float: the integer part and up to
    [digits] decimals, cut rather than rounded; [trim] drops the zeros at
    the end, as %g does. *)
Fixpoint decimals (digits : nat) (r d : Z) : string :=
  match digits with
  | O => ""
  | S n => pretty (10 * r / d) +:+ decimals n (10 * r mod d) d
  end.

Fixpoint drop_zeros (s : string) : string :=
  match s with
  | String c s' => if Ascii.eqb c "0" then drop_zeros s' else s
  | EmptyString => s
  end.

Definition render (digits : nat) (trim : bool) (x : spec_float) : string :=
  match x with
  | S754_zero _ => if trim then "0" else "0." +:+ decimals digits 0 1
  | S754_infinity s => if s then "-inf" else "inf"
  | S754_nan => "nan"
  | S754_finite s m e =>
      let sign := if s then "-" else "" in
      let d := 2 ^ (- e) in
      let q := if 0 <=? e then Z.pos m * 2 ^ e else Z.pos m / d in
      let r := if 0 <=? e then 0 else Z.pos m mod d in
      let frac := decimals digits r (if 0 <=? e then 1 else d) in
      let frac := if trim then String.rev (drop_zeros (String.rev frac))
                  else frac in
      match frac with
      | EmptyString => sign +:+ pretty q
      | _ => sign +:+ pretty q +:+ "." +:+ frac
      end
  end.

(** The box in centre-x, centre-y, width, height form, on float32. *)
Definition cxcywh (b : box) : box :=
  let '(x0, y0, x1, y1) := b in
  (F32.div (F32.add x0 x1) F32.two, F32.div (F32.add y0 y1) F32.two,
   F32.sub x1 x0, F32.sub y1 y0).

Definition ext : Ext :=
  {| argparse := parse;
     repr_args := fun _ => "Namespace(...)";
     cuda_is_available := false;
     hub_yolov5 := hub;
     stride_max := fun _ => 32;
     forward := fwd;
     check_img_size := fun n s => (n + s - 1) / s * s;
     load_images := glob;
     box_xyxy_to_cxcywh := cxcywh;
     plot_one_box := draw;
     now := fun k => F64.of_Z (Z.of_nat k);
     randint := fun k => Z.of_nat k mod 255;
     pct_g := render 5 true;
     pct_f := fun n => render n false |}.

Definition gray (r c : nat) : Mat :=
  {| rows := r; cols := c; pixel := fun _ _ _ => "128"%byte |}.

(** The disk: [imgs/a.jpg] has three rows (two objects), [imgs/b.jpg] has
    one row (no object). *)
Definition disk : World :=
  {| images := <["imgs/a.jpg" := gray 3 2]> (<["imgs/b.jpg" := gray 1 2]> ∅);
     texts := <["coco.names" := "person" +:+ String "010" ("car" +:+ String "010" "")]> ∅;
     faults := ∅;
     stdout := [];
     ticks := 0;
     draws := 0;
     trace := [] |}.

Definition argv : list string :=
  ["--input_source"; "imgs"; "--labelmap"; "coco.names";
   "--output_dir"; "out"; "--save_txt"; "--save_img"].

(** The arguments as [argparse] gives them for [argv]. *)
Definition args : Args :=
  match parse argv with
  | inr a => a
  | inl _ =>
      {| model_cfg := ""; checkpoint := ""; labelmap := "";
         input_source := ""; output_dir := ""; img_size := 0;
         gpu := false; save_txt := false; save_img := false;
         webcam := false; mode := ""; names := []; colors := [] |}
  end.

(** The same arguments once [main] has added the dataset's mode, the
    class names and a colour per class. *)
Definition main_args : Args :=
  with_colors
    (with_names (with_mode args "images") ["person"; "car"])
    [(10, 20, 30); (40, 50, 60)].

(** A run over a video file: the dataset's mode is not ['images']. *)
Definition video_argv : list string :=
  ["--input_source"; "clip.mp4"; "--labelmap"; "coco.names";
   "--output_dir"; "out"; "--save_txt"; "--save_img"].

Definition model : Model :=
  {| net := "yolov5s"; training := true; m_device := Cpu;
     m_half := false |}.

Definition start : Locals :=
  {| l_img := Some (gray 3 2); l_bound := None |}.

(** The arguments of a run that saves nothing. *)
Definition quiet_args : Args :=
  match parse ["--output_dir"; "out"] with
  | inr a => with_names (with_mode a "images") ["person"; "car"]
  | inl _ => main_args
  end.

(** The two detections the model finds in [imgs/a.jpg]. *)
Definition two_boxes : list box := map (fun d => d.1.1) (take 2 candidates).
Definition two_scores : list spec_float :=
  map (fun d => d.1.2) (take 2 candidates).
Definition two_labels : list Z := map snd (take 2 candidates).
End Demo.

(* ===================================================================== *)
(** ** The order of the pipeline, as an automaton over the events *)
(* ===================================================================== *)

(** Where a run stands.  [k] counts the images already finished and [p] is
    the path of the image at hand. *)
Inductive Phase : Type :=
| PStart
| PArgs                              (* command line parsed *)
| PModel                             (* checkpoint loaded *)
| PNext (k : nat)                    (* between images, [k] of them done *)
| PRead (k : nat) (p : string)       (* [inference] entered *)
| PFwd (k : nat) (p : string)        (* image read, forward pass due *)
| PGot (k : nat) (p : string)        (* forward pass done *)
| PInferred (k : nat) (p : string)   (* [inference] returned *)
| PPost (k : nat) (p : string)       (* [overlay_boxes] entered *)
| PEnd                               (* every image done *)
| PStop (e : Exn).                   (* an exception was raised *)

(** The phases in which code of the script runs. *)
Definition live (q : Phase) : Prop :=
  match q with
  | PStart | PStop _ => False
  | _ => True
  end.

Definition stopped (q : Phase) : Prop :=
  match q with
  | PStop _ => True
  | _ => False
  end.

#[global] Instance stopped_dec (q : Phase) : Decision (stopped q).
Proof. destruct q; simpl; apply _. Defined.

(** The moves the pipeline allows, for a dataset that yields [paths].  An
    exception stops the run for good. *)
Definition step (paths : list string) (q : Phase) (ev : Event)
  : option Phase :=
  match q, ev with
  | PStop _, _ => None
  | PStart, EParseArgs => Some PArgs
  | PStart, _ => None
  | _, ERaise e => Some (PStop e)
  | PArgs, EMkdir _ => Some PArgs
  | PArgs, EPrint _ => Some PArgs
  | PArgs, ELoadModel _ _ => Some PModel
  | PModel, ELoadImages _ => Some PModel
  | PModel, EOpenRead _ => Some PModel
  | PModel, EForward => Some (PNext 0)
  | PNext k, EInference p =>
      if decide (paths !! k = Some p) then Some (PRead k p) else None
  | PNext k, EPrint _ =>
      if decide (k = length paths) then Some PEnd else None
  | PRead k p, EImread p' =>
      if decide (p' = p) then Some (PFwd k p) else None
  | PFwd k p, EForward => Some (PGot k p)
  | PGot k p, EInferenceDone => Some (PInferred k p)
  | PInferred k p, EOverlay p' =>
      if decide (p' = p) then Some (PPost k p) else None
  | PPost k p, EImread p' =>
      if decide (p' = p) then Some (PPost k p) else None
  | PPost k p, EOpenAppend _ => Some (PPost k p)
  | PPost k p, EWrite _ _ => Some (PPost k p)
  | PPost k p, EPlot _ => Some (PPost k p)
  | PPost k p, EPrint _ => Some (PPost k p)
  | PPost k p, EImwrite _ => Some (PPost k p)
  | PPost k p, EOverlayDone => Some (PNext (S k))
  | PEnd, EPrint _ => Some PEnd
  | _, _ => None
  end.

Fixpoint pipeline (paths : list string) (q : Phase) (t : list Event)
  : option Phase :=
  match t with
  | [] => Some q
  | ev :: t' =>
      match step paths q ev with
      | Some q' => pipeline paths q' t'
      | None => None
      end
  end.

(** The events that load the checkpoint, and those that read or write an
    image or run the model on one. *)
Definition is_load (ev : Event) : bool :=
  match ev with
  | ELoadModel _ _ => true
  | _ => false
  end.

Definition touches_image (ev : Event) : bool :=
  match ev with
  | EImread _ | EImwrite _ | EInference _ | EOverlay _ | EForward => true
  | _ => false
  end.

(** The exceptions raised along a trace. *)
Definition raised (t : list Event) : list Exn :=
  omap (fun ev => match ev with ERaise e => Some e | _ => None end) t.

(** The events that mark the progress through one image. *)
Definition is_milestone (ev : Event) : bool :=
  match ev with
  | EInference _ | EForward | EInferenceDone | EOverlay _ | EOverlayDone => true
  | _ => false
  end.

Definition milestones (t : list Event) : list Event :=
  List.filter is_milestone t.

Definition image_milestones (p : string) : list Event :=
  [EInference p; EForward; EInferenceDone; EOverlay p; EOverlayDone].

(** The milestones behind a run that stands in phase [q]: the warm-up
    forward pass, the images done, and the part done of the image at hand. *)
Definition progress (paths : list string) (q : Phase) : list Event :=
  let done k := EForward :: flat_map image_milestones (take k paths) in
  match q with
  | PStart | PArgs | PModel | PStop _ => []
  | PNext k => done k
  | PRead k p | PFwd k p => done k ++ [EInference p]
  | PGot k p => done k ++ [EInference p; EForward]
  | PInferred k p => done k ++ [EInference p; EForward; EInferenceDone]
  | PPost k p =>
      done k ++ [EInference p; EForward; EInferenceDone; EOverlay p]
  | PEnd => done (length paths)
  end.

(** The image at hand is the one the dataset yields at that position. *)
Definition wf_phase (paths : list string) (q : Phase) : Prop :=
  match q with
  | PRead k p | PFwd k p | PGot k p | PInferred k p | PPost k p =>
      paths !! k = Some p
  | _ => True
  end.

(** How often the checkpoint has been loaded when a run stands in [q]. *)
Definition loads (q : Phase) : nat :=
  match q with
  | PStart | PArgs | PStop _ => 0
  | _ => 1
  end.

(** [triple paths q m Q]: run from any world, [m] adds to the trace events
    that take the pipeline from [q] to a phase [q'] with [Q a q'] when [m]
    returns [a], and to [PStop e] when [m] raises [e]. *)
Definition triple {A : Type} (paths : list string) (q : Phase) (m : M A)
    (Q : A -> Phase -> Prop) : Prop :=
  forall w, exists t,
    trace (m w).2 = trace w ++ t /\
    match (m w).1 with
    | inr a => exists q', pipeline paths q t = Some q' /\ Q a q'
    | inl e => pipeline paths q t = Some (PStop e)
    end.

(** The post-condition "the pipeline is in phase [q']". *)
Definition at_phase {A : Type} (q' : Phase) : A -> Phase -> Prop :=
  fun _ q => q = q'.

(** The paths the dataset of a run yields, computed the way [main] gets to
    them: from the checkpoint's stride and the requested image size. *)
Definition planned (X : Ext) (args : Args) : list string :=
  match hub_yolov5 X (model_cfg args) (checkpoint args) with
  | inr m =>
      let device := if cuda_is_available X && gpu args then Cuda else Cpu in
      let model := model_to (model_eval m) device in
      let imgsz := check_img_size X (img_size args) (stride_max X model) in
      match load_images X (input_source args) imgsz with
      | inr ds => ds_paths ds
      | inl _ => []
      end
  | inl _ => []
  end.

Definition planned_argv (X : Ext) (argv : list string) : list string :=
  match argparse X argv with
  | inr args => planned X args
  | inl _ => []
  end.

(** What [inference] hands back apart from the time it measured. *)
Definition outcome (r : Exn + Model * list Detection * spec_float)
  : Exn + Model * list Detection :=
  match r with
  | inl e => inl e
  | inr (m, d, _) => inr (m, d)
  end.

(** The detections of an image file, as a function of what the file holds,
    of the model and of the device. *)
Definition detect (X : Ext) (model : Model) (device : Device)
    (file : option Mat) : Exn + Model * list Detection :=
  match permute_2_0_1 (from_numpy (idiv (ascontiguousarray file) F32.c255)) with
  | inl e => inl e
  | inr img =>
      match forward X (model_eval model) [to_device img device] with
      | inl e => inl e
      | inr d => inr (model_eval model, d)
      end
  end.

(* ===================================================================== *)
(** ** What post-processing is to produce *)
(* ===================================================================== *)

(** The label line of a detection, as the format of the label file has it:
    the class, then the four numbers [box_xyxy_to_cxcywh] makes of the box
    (centre, width and height), each followed by a blank, and a newline. *)
Definition label_text (X : Ext) (det : box * spec_float * Z) : string :=
  let '(xyxy, _, cls) := det in
  let '(cx, cy, bw, bh) := box_xyxy_to_cxcywh X xyxy in
  pct_g X (F64.of_Z cls) +:+ " " +:+ pct_g X cx +:+ " " +:+ pct_g X cy
  +:+ " " +:+ pct_g X bw +:+ " " +:+ pct_g X bh +:+ " " +:+ String "010" "".

Definition label_texts (X : Ext) (dets : list (box * spec_float * Z))
  : string :=
  foldr (fun det rest => label_text X det +:+ rest) "" dets.

(** A text store after [text] is appended to [file]. *)
Definition appended (file text : string) (store : gmap string string)
  : gmap string string :=
  <[file := default "" (store !! file) +:+ text]> store.

(** The per-class summary: for each distinct label, in increasing order, how
    many detections carry it and the name of the class. *)
Fixpoint class_summary (X : Ext) (class_names : list string)
    (labels : list Z) (classes : list Z) : option string :=
  match classes with
  | [] => Some ""
  | c :: rest =>
      match py_index class_names c, class_summary X class_names labels rest with
      | Some name, Some tail =>
          Some (pct_g X (F64.of_Z (count_eq c labels)) +:+ " " +:+ name
                +:+ "s, " +:+ tail)
      | _, _ => None
      end
  end.

(** The image with the box of one detection drawn on it, where drawing
    succeeds. *)
Definition draw_detection (X : Ext) (args : Args) (img : option Mat)
    (det : box * spec_float * Z) : option Mat :=
  let '(xyxy, conf, cls) := det in
  match py_index (names args) cls, py_index (colors args) cls, img with
  | Some name, Some color, Some m =>
      match plot_one_box X xyxy m (name +:+ " " +:+ pct_f X 2 conf) color with
      | inr m' => Some m'
      | inl _ => None
      end
  | _, _, _ => None
  end.

Fixpoint draw_detections (X : Ext) (args : Args) (img : option Mat)
    (dets : list (box * spec_float * Z)) : option Mat :=
  match dets with
  | [] => img
  | det :: rest =>
      match draw_detection X args img det with
      | Some m => draw_detections X args (Some m) rest
      | None => None
      end
  end.

(** A prediction that the loop of [overlay_boxes] passes over. *)
Definition blank (pred : Detection) : Prop :=
  match pred with
  | None => True
  | Some d => size d = 0%nat
  end.

#[global] Instance blank_dec (pred : Detection) : Decision (blank pred).
Proof. destruct pred; simpl; apply _. Defined.

(** The paths [overlay_boxes] writes to for the image at [path]. *)
Definition save_path_of (args : Args) (path : string) : string :=
  Path_str (joinpath (Path_of (output_dir args)) (Path_name (Path_of path))).

Definition txt_file_of (args : Args) (path : string) : string :=
  Path_str (joinpath (Path_of (output_dir args)) (Path_stem (Path_of path)))
  +:+ ".txt".

(** The files and the output of a world, without its ghost state. *)
Definition disk (w : World)
  : gmap string Mat * gmap string string * gmap string Exn * list string :=
  (images w, texts w, faults w, stdout w).

(** A text store after the pieces of [pieces] are appended to [file], one
    after the other. *)
Definition appended_all (file : string) (pieces : list string)
    (store : gmap string string) : gmap string string :=
  foldl (fun st piece => appended file piece st) store pieces.

(** The detections of a prediction in the order [overlay_boxes] handles
    them, boxes rounded. *)
Definition detections_of (b : list box) (sc : list spec_float) (lb : list Z)
  : list (box * spec_float * Z) :=
  zip3 (map round_box b) sc lb.

(** Whether a computation returned rather than raised. *)
Definition returned {A : Type} (r : Exn + A) : bool :=
  match r with
  | inr _ => true
  | inl _ => false
  end.

(** A float32 that holds an integer: one converted from an integer, a
    negative zero, or one whose exponent is not negative. *)
Definition whole (x : spec_float) : Prop :=
  (exists z, x = F32.of_Z z) \/ x = S754_zero true \/
  (exists s m e, x = S754_finite s m e /\ 0 <= e).

Definition is_finite (x : spec_float) : bool :=
  match x with
  | S754_zero _ | S754_finite _ _ _ => true
  | _ => false
  end.

(** Every text file of [w] is still there in [w'], with its old content at
    the start of the new one. *)
Definition texts_grow (w w' : World) : Prop :=
  forall file s, texts w !! file = Some s ->
    exists more, texts w' !! file = Some (s +:+ more).

(** A computation that only ever adds to the end of text files. *)
Definition appends_only {A : Type} (m : M A) : Prop :=
  forall w, texts_grow w (m w).2.


(* ===================================================================== *)
(** ** Further notions for the properties of the functions *)
(* ===================================================================== *)

(** A computation that leaves the part [f] of the world as it found it,
    whether it returns or raises. *)
Definition keeps {T A : Type} (f : World -> T) (m : M A) : Prop :=
  forall w, f (m w).2 = f w.

(** A command line that asks for nothing to be saved. *)
Definition quiet_argv : list string :=
  ["--input_source"; "imgs"; "--labelmap"; "coco.names";
   "--output_dir"; "out"].

(** What a prediction binds [boxes], [scores] and [labels] to, when it holds
    the three tensors. *)
Definition bound_by (pred : Detection)
  : option (list box * list spec_float * list Z) :=
  match pred with
  | Some d =>
      match d !! "boxes", d !! "scores", d !! "labels" with
      | Some (TBoxes b), Some (TFloats sc), Some (TLongs lb) =>
          Some (map round_box b, sc, lb)
      | _, _, _ => None
      end
  | None => None
  end.

(** The binding the loop of [overlay_boxes] ends with: that of the last
    prediction it does not pass over. *)
Definition last_bound (detections : list Detection)
  : option (list box * list spec_float * list Z) :=
  foldl (fun acc pred => if decide (blank pred) then acc else bound_by pred)
    None detections.

(** The key the loop body of [overlay_boxes] misses first in a prediction,
    in the order it asks for them. *)
Definition missing_key (d : gmap string tval) : option string :=
  match d !! "boxes" with
  | None => Some "boxes"
  | Some (TBoxes _) =>
      match d !! "scores" with
      | None => Some "scores"
      | Some (TFloats _) =>
          match d !! "labels" with
          | None => Some "labels"
          | Some _ => None
          end
      | Some _ => None
      end
  | Some _ => None
  end.

Definition total (l : list Z) : Z := foldr Z.add 0 l.

(** The colours [main] draws for [n] classes when [d] random numbers have
    been drawn before: three numbers in a row for each class. *)
Definition colors_from (X : Ext) (d n : nat) : list Color :=
  map (fun j => (randint X (d + 3 * j), randint X (d + 3 * j + 1),
                 randint X (d + 3 * j + 2))%nat)
      (seq 0 n).

(** A line printed for a prediction: whatever summary, then the time. *)
Definition done_line (X : Ext) (tc : spec_float) (line : string) : Prop :=
  exists s, line = s +:+ "Done. (" +:+ pct_f X 3 tc +:+ "s)".

(** The float32 that [read_image] makes of each of the 256 pixel values. *)
Definition scaled_table : list (N * spec_float) :=
  map (fun k => let n := N.of_nat k in
                (n, F32.div (F32.of_Z (Z.of_N n)) F32.c255))
      (seq 0 256).

Definition table_increasing (t : list (N * spec_float)) : bool :=
  List.forallb (fun p =>
    List.forallb (fun q => implb (p.1 <? q.1)%N (SFltb p.2 q.2)) t) t.

(** A two-pixel image, one dark and one bright, and a disk that holds it. *)
Definition ramp : Mat :=
  {| rows := 2; cols := 1;
     pixel := fun i _ _ => match i with O => "010"%byte | _ => "200"%byte end |}.

Definition ramp_disk : World := set_images {[ "ramp.png" := ramp ]} Demo.disk.

(** A string that neither starts nor ends with white space. *)
Definition clean (s : string) : Prop :=
  lstrip s = s /\ lstrip (String.rev s) = String.rev s.

(** A string without the character [sep]. *)
Definition free_of (sep : ascii) (s : string) : bool :=
  all_chars (fun c => negb (Ascii.eqb c sep)) s.


(** A line that ends with an inference time, as [overlay_boxes] prints one
    for each prediction. *)
Definition timed_line (X : Ext) (line : string) : Prop :=
  exists tc, done_line X tc line.

(** The last lines [main] prints when it has taken [t] seconds. *)
Definition closing_lines (X : Ext) (args : Args) (t : spec_float)
  : list string :=
  (if save_txt args || save_img args
   then ["Results saved to " +:+ output_dir args] else [])
  ++ ["Done. (" +:+ pct_f X 3 t +:+ "s)"].

(** The arguments of a run over a directory without images, with
    [--save_txt]. *)
Definition empty_args : Args :=
  match Demo.parse ["--input_source"; "empty"; "--labelmap"; "coco.names";
                    "--output_dir"; "out"; "--save_txt"] with
  | inr a => a
  | inl _ => Demo.args
  end.

(** A computation all of whose events pass [ok], whether it returns or
    raises. *)
Definition emits_only {A : Type} (ok : Event -> bool) (m : M A) : Prop :=
  forall w, exists t, trace (m w).2 = trace w ++ t /\ forallb ok t = true.

(** The events in which an image is read, drawn on or written. *)
Definition image_event (ev : Event) : bool :=
  match ev with
  | EImread _ | EPlot _ | EImwrite _ => true
  | _ => false
  end.

(** The events in which a label file is opened or written to. *)
Definition text_event (ev : Event) : bool :=
  match ev with
  | EOpenAppend _ | EWrite _ _ => true
  | _ => false
  end.

Definition is_mkdir (ev : Event) : bool :=
  match ev with
  | EMkdir _ => true
  | _ => false
  end.

(** A disk on which the output directory cannot be made, and a command line
    without an output directory. *)
Definition locked_disk : World :=
  {| images := images Demo.disk; texts := texts Demo.disk;
     faults := {[ "out" := OSError "out" ]};
     stdout := []; ticks := 0; draws := 0; trace := [] |}.

Definition here_argv : list string :=
  ["--input_source"; "imgs"; "--labelmap"; "coco.names"; "--output_dir"; ""].

(* ===================================================================== *)
(** ** What the results have to be *)
(* ===================================================================== *)

(** The definitions of this part are not taken from the code: they say what
    a result has to be, for the theorems to compare with what the code
    computes. *)

(** [y] is [x] rounded to the nearest whole number, a tie going to the even
    one.  A finite [x] is [(-1)^s * m * 2^e]: with [e >= 0] it is whole
    already; with [e < 0] its magnitude is [m / 2^(-e)], and [n] is the
    whole number next to it. *)
Definition rounded_to_whole (x y : spec_float) : Prop :=
  match x with
  | S754_finite s m e =>
      if 0 <=? e then y = x
      else
        exists n : Z,
          0 <= n /\
          2 * Z.abs (Z.pos m - n * 2 ^ (- e)) <= 2 ^ (- e) /\
          (2 * Z.abs (Z.pos m - n * 2 ^ (- e)) = 2 ^ (- e) ->
           Z.even n = true) /\
          y = (if n =? 0 then S754_zero s
               else F32.of_Z (if s then - n else n))
  | _ => y = x
  end.

(** A property of each of the four coordinates of a box. *)
Definition box_all (P : spec_float -> Prop) (b : box) : Prop :=
  let '(x0, y0, x1, y1) := b in P x0 /\ P y0 /\ P x1 /\ P y1.

(** [b'] is [b] with every coordinate rounded to a whole number. *)
Definition box_rounded (b b' : box) : Prop :=
  let '(x0, y0, x1, y1) := b in
  let '(x0', y0', x1', y1') := b' in
  rounded_to_whole x0 x0' /\ rounded_to_whole y0 y0' /\
  rounded_to_whole x1 x1' /\ rounded_to_whole y1 y1'.

(** [dets] pairs boxes, scores and labels by position, up to the end of the
    shortest of the three. *)
Definition paired (boxes : list box) (scores : list spec_float)
    (labels : list Z) (dets : list (box * spec_float * Z)) : Prop :=
  length dets
  = Nat.min (length boxes) (Nat.min (length scores) (length labels)) /\
  forall k,
    dets !! k
    = match boxes !! k, scores !! k, labels !! k with
      | Some b, Some s, Some l => Some (b, s, l)
      | _, _, _ => None
      end.

(** The text of the per-class summary over the classes [classes]: for each
    of them the number of labels equal to it, its name and [s, ]. *)
Fixpoint summary_text (X : Ext) (class_names : list string)
    (labels : list Z) (classes : list Z) : option string :=
  match classes with
  | [] => Some ""
  | c :: rest =>
      match py_index class_names c, summary_text X class_names labels rest with
      | Some name, Some tail =>
          Some (pct_g X (F64.of_Z (Z.of_nat (count_occ Z.eq_dec labels c)))
                +:+ " " +:+ name +:+ "s, " +:+ tail)
      | _, _ => None
      end
  end.

(** The white space that [str.strip] takes off, by code point. *)
Definition white (c : ascii) : bool :=
  existsb (Nat.eqb (nat_of_ascii c))
    [9; 10; 11; 12; 13; 28; 29; 30; 31; 32; 133; 160]%nat.

Definition first_char (s : string) : option ascii :=
  match s with
  | String c _ => Some c
  | EmptyString => None
  end.

Fixpoint last_char (s : string) : option ascii :=
  match s with
  | EmptyString => None
  | String c s' =>
      match last_char s' with
      | None => Some c
      | r => r
      end
  end.

(** A string that neither starts nor ends with white space. *)
Definition trimmed (s : string) : Prop :=
  (forall c, first_char s = Some c -> white c = false) /\
  (forall c, last_char s = Some c -> white c = false).

(** The number of line ends in a text: every carriage return, and every
    line feed that does not come right after a carriage return. *)
Fixpoint line_ends (after_cr : bool) (s : string) : nat :=
  match s with
  | EmptyString => 0
  | String c s' =>
      if Ascii.eqb c "013" then S (line_ends true s')
      else if Ascii.eqb c "010"
           then ((if after_cr then 0 else 1) + line_ends false s')%nat
           else line_ends false s'
  end.

(** The number of line feeds in a text. *)
Fixpoint count_lf (s : string) : nat :=
  match s with
  | EmptyString => 0
  | String c s' => if Ascii.eqb c "010" then S (count_lf s') else count_lf s'
  end.

(** A text whose last line has no line end. *)
Definition unterminated (s : string) : bool :=
  match last_char s with
  | Some c => negb (Ascii.eqb c "010" || Ascii.eqb c "013")
  | None => false
  end.

(** The number of lines of a text. *)
Definition line_count (s : string) : nat :=
  (line_ends false s + (if unterminated s then 1 else 0))%nat.

(** A label map with the line ends of three systems and white space around
    the names, and a disk that holds it. *)
Definition mixed_names : string :=
  " person " +:+ String "013" (String "010"
    ("car" +:+ String "031" (String "013" ("dog" +:+ String "010" "cat")))).

Definition names_disk : World :=
  set_texts {[ "mixed.names" := mixed_names ]} Demo.disk.

(** The values [main] computes before its loop: the device (line 93), the
    model once it is in evaluation mode and on the device (lines 96 and
    97), the checked image size (line 109) and the path of the label map
    (line 118). *)
Definition main_device (X : Ext) (args : Args) : Device :=
  if cuda_is_available X && gpu args then Cuda else Cpu.

Definition main_model (X : Ext) (args : Args) (m : Model) : Model :=
  model_to (model_eval m) (main_device X args).

Definition main_imgsz (X : Ext) (args : Args) (m : Model) : Z :=
  check_img_size X (img_size args) (stride_max X (main_model X args m)).

Definition labelmap_path (args : Args) : string :=
  Path_str (Path_of (labelmap args)).

(** The arguments of a run whose checkpoint does not load. *)
Definition missing_args : Args :=
  match Demo.parse ("--checkpoint" :: "missing.pt" :: Demo.argv) with
  | inr a => a
  | inl _ => Demo.args
  end.

(** A disk on which the annotated copy of [imgs/a.jpg] cannot be written. *)
Definition readonly_disk : World :=
  {| images := images Demo.disk; texts := texts Demo.disk;
     faults := {[ "out/a.jpg" := OSError "out/a.jpg" ]};
     stdout := []; ticks := 0; draws := 0; trace := [] |}.
(* ===================================================================== *)
(** ** Lemmas on the automaton and on the monad *)
(* ===================================================================== *)

Lemma pipeline_app paths q t1 t2 :
  pipeline paths q (t1 ++ t2) =
  match pipeline paths q t1 with
  | Some q' => pipeline paths q' t2
  | None => None
  end.
Proof.
  revert q. induction t1 as [|ev t1 IH]; intros q; simpl; [done|].
  destruct (step paths q ev); [apply IH | done].
Qed.

Lemma step_raise paths q e : live q -> step paths q (ERaise e) = Some (PStop e).
Proof. destruct q; simpl; intros H; try done. Qed.

Section Rules.

Variable paths : list string.

Lemma triple_conseq {A} q (m : M A) (Q Q' : A -> Phase -> Prop) :
  triple paths q m Q -> (forall a q', Q a q' -> Q' a q') ->
  triple paths q m Q'.
Proof.
  intros Hm HQ w. destruct (Hm w) as (t & Ht & H). exists t. split; [done|].
  destruct ((m w).1) as [e|a]; [done|].
  destruct H as (q' & Hp & Hq). exists q'. auto.
Qed.

Lemma triple_ret {A} q (a : A) :
  triple paths q (ret a) (fun a' q' => a' = a /\ q' = q).
Proof.
  intros w. exists []. simpl. rewrite app_nil_r. split; [done|].
  exists q. auto.
Qed.

Lemma triple_bind {A B} q (m : M A) (k : A -> M B) Q R :
  triple paths q m Q ->
  (forall a q', Q a q' -> triple paths q' (k a) R) ->
  triple paths q (bind m k) R.
Proof.
  intros Hm Hk w. unfold bind.
  destruct (Hm w) as (t1 & Ht1 & H1).
  destruct (m w) as [[e|a] w1]; simpl in *.
  - exists t1. auto.
  - destruct H1 as (q1 & Hp1 & HQ).
    destruct (Hk a q1 HQ w1) as (t2 & Ht2 & H2).
    exists (t1 ++ t2). rewrite Ht2, Ht1, app_assoc. split; [done|].
    rewrite pipeline_app, Hp1. exact H2.
Qed.

Lemma triple_emit q ev q' :
  step paths q ev = Some q' -> live q' ->
  triple paths q (emit ev) (at_phase q').
Proof.
  intros Hs _ w. exists [ev]. simpl. split; [done|].
  exists q'. rewrite Hs. done.
Qed.

Lemma triple_raise {A} q (e : Exn) (Q : A -> Phase -> Prop) :
  live q -> triple paths q (raise e) Q.
Proof.
  intros Hq w. exists [ERaise e]. simpl. split; [done|].
  by rewrite step_raise.
Qed.

Lemma triple_lift {A} q (r : Exn + A) :
  live q -> triple paths q (lift r) (fun a q' => r = inr a /\ q' = q).
Proof.
  intros Hq. destruct r as [e|a]; simpl.
  - by apply triple_raise.
  - eapply triple_conseq; [apply triple_ret|]. by intros ? ? [-> ->].
Qed.

Lemma triple_get {A} q (f : World -> A) :
  triple paths q (get f) (at_phase q).
Proof.
  intros w. exists []. simpl. rewrite app_nil_r. split; [done|].
  exists q. done.
Qed.

Lemma triple_modify q (f : World -> World) :
  (forall w, trace (f w) = trace w) ->
  triple paths q (modify f) (at_phase q).
Proof.
  intros Hf w. exists []. simpl. rewrite app_nil_r, Hf. split; [done|].
  exists q. done.
Qed.

(** A loop whose body leaves the phase where it found it. *)
Lemma triple_foldM {A S} q (f : S -> A -> M S) (l : list A) (s : S) :
  (forall s x, triple paths q (f s x) (at_phase q)) ->
  triple paths q (foldM f l s) (at_phase q).
Proof.
  intros Hf. revert s. induction l as [|x l IH]; intros s; simpl.
  - eapply triple_conseq; [apply triple_ret|]. by intros ? ? [_ ->].
  - eapply triple_bind; [apply Hf|]. intros s' q' ->. apply IH.
Qed.

Lemma triple_when q (b : bool) (m : M unit) :
  triple paths q m (at_phase q) ->
  triple paths q (when b m) (at_phase q).
Proof.
  intros Hm. destruct b; simpl; [done|].
  eapply triple_conseq; [apply triple_ret|]. by intros ? ? [_ ->].
Qed.

End Rules.

Section AtPhase.

Variable paths : list string.

Lemma triple_bind_at {A B} q q1 (m : M A) (k : A -> M B) R :
  triple paths q m (at_phase q1) ->
  (forall a, triple paths q1 (k a) R) ->
  triple paths q (bind m k) R.
Proof.
  intros Hm Hk. eapply triple_bind; [exact Hm|].
  intros a q' ->. apply Hk.
Qed.

Lemma triple_ret_at {A} q (a : A) : triple paths q (ret a) (at_phase q).
Proof. eapply triple_conseq; [apply triple_ret|]. by intros ? ? [_ ->]. Qed.

Lemma triple_lift_at {A} q (r : Exn + A) :
  live q -> triple paths q (lift r) (at_phase q).
Proof.
  intros Hq. eapply triple_conseq; [by apply triple_lift|]. by intros ? ? [_ ->].
Qed.

End AtPhase.

Create HintDb triples discriminated.

Ltac solve_step :=
  first [ eassumption | simpl; rewrite ?decide_True by done; reflexivity ].

(** Walks through a computation, one monadic step at a time. *)
Ltac tri :=
  lazymatch goal with
  | |- triple _ _ (bind _ _) _ => eapply triple_bind_at; [tri | intros; tri]
  | |- triple _ _ (ret _) _ => apply triple_ret_at
  | |- triple _ _ (raise _) _ => apply triple_raise; done
  | |- triple _ _ (lift _) _ => apply triple_lift_at; done
  | |- triple _ _ (get _) _ => apply triple_get
  | |- triple _ _ (modify _) _ =>
      apply triple_modify; intros ?; simpl; repeat case_match; reflexivity
  | |- triple _ _ (emit _) _ => eapply triple_emit; [solve_step | done]
  | |- triple _ _ (when _ _) _ => apply triple_when; tri
  | |- triple _ _ (foldM _ _ _) _ => apply triple_foldM; intros; tri
  | |- triple _ _ (if ?b then _ else _) _ => destruct b; tri
  | |- triple _ _ (match ?x with Some _ => _ | None => _ end) _ =>
      destruct x; tri
  | |- triple _ _ (match ?x with inl _ => _ | inr _ => _ end) _ =>
      destruct x; tri
  | |- triple _ _ (match ?x with (_, _) => _ end) _ => destruct x; tri
  | |- triple _ _ (match ?x with TBoxes _ => _ | _ => _ end) _ =>
      destruct x; tri
  | |- triple _ _ (match ?x with [] => _ | _ :: _ => _ end) _ =>
      destruct x; tri
  | |- triple _ _ _ _ => solve [auto with triples]
  end.

Section PrimitiveTriples.

Variable paths : list string.
Variable X : Ext.

Lemma print_at q q' line :
  step paths q (EPrint line) = Some q' -> live q' ->
  triple paths q (print line) (at_phase q').
Proof. intros Hs Hl. unfold print. tri. Qed.

Lemma imread_at q q' path :
  step paths q (EImread path) = Some q' -> live q' ->
  triple paths q (imread path) (at_phase q').
Proof. intros Hs Hl. unfold imread. tri. Qed.

Lemma imwrite_at q q' path img :
  step paths q (EImwrite path) = Some q' -> live q' ->
  triple paths q (imwrite path img) (at_phase q').
Proof. intros Hs Hl. unfold imwrite. tri. Qed.

Lemma open_append_at q q' path :
  step paths q (EOpenAppend path) = Some q' -> live q' ->
  triple paths q (open_append path) (at_phase q').
Proof. intros Hs Hl. unfold open_append. tri. Qed.

Lemma write_at q q' path line :
  step paths q (EWrite path line) = Some q' -> live q' ->
  triple paths q (write path line) (at_phase q').
Proof. intros Hs Hl. unfold write. tri. Qed.

Lemma open_read_at q q' path :
  step paths q (EOpenRead path) = Some q' -> live q' ->
  triple paths q (open_read path) (at_phase q').
Proof. intros Hs Hl. unfold open_read. tri. Qed.

Lemma mkdir_at q q' dir :
  step paths q (EMkdir dir) = Some q' -> live q' ->
  triple paths q (mkdir dir) (at_phase q').
Proof. intros Hs Hl. unfold mkdir. tri. Qed.

Lemma time_time_at q : live q -> triple paths q (time_time X) (at_phase q).
Proof. intros Hl. unfold time_time. tri. Qed.

Lemma random_randint_at q :
  live q -> triple paths q (random_randint X) (at_phase q).
Proof. intros Hl. unfold random_randint. tri. Qed.

Lemma model_call_at q q' m inputs :
  step paths q EForward = Some q' -> live q' ->
  triple paths q (model_call X m inputs) (at_phase q').
Proof. intros Hs Hl. unfold model_call. tri. Qed.

End PrimitiveTriples.

#[global] Hint Extern 1 (triple _ _ (print _) _) =>
  eapply print_at; [solve_step | done] : triples.
#[global] Hint Extern 1 (triple _ _ (imread _) _) =>
  eapply imread_at; [solve_step | done] : triples.
#[global] Hint Extern 1 (triple _ _ (imwrite _ _) _) =>
  eapply imwrite_at; [solve_step | done] : triples.
#[global] Hint Extern 1 (triple _ _ (open_append _) _) =>
  eapply open_append_at; [solve_step | done] : triples.
#[global] Hint Extern 1 (triple _ _ (write _ _) _) =>
  eapply write_at; [solve_step | done] : triples.
#[global] Hint Extern 1 (triple _ _ (open_read _) _) =>
  eapply open_read_at; [solve_step | done] : triples.
#[global] Hint Extern 1 (triple _ _ (mkdir _) _) =>
  eapply mkdir_at; [solve_step | done] : triples.
#[global] Hint Extern 1 (triple _ _ (time_time _) _) =>
  apply time_time_at; done : triples.
#[global] Hint Extern 1 (triple _ _ (time_synchronized _) _) =>
  apply time_time_at; done : triples.
#[global] Hint Extern 1 (triple _ _ (random_randint _) _) =>
  apply random_randint_at; done : triples.
#[global] Hint Extern 1 (triple _ _ (model_call _ _ _) _) =>
  eapply model_call_at; [solve_step | done] : triples.

Section FunctionTriples.

Variable paths : list string.
Variable X : Ext.

Lemma load_names_at path :
  triple paths PModel (load_names path) (at_phase PModel).
Proof. unfold load_names. tri. Qed.

Lemma read_image_at k p is_half :
  triple paths (PRead k p) (read_image p is_half) (at_phase (PFwd k p)).
Proof. unfold read_image. tri. Qed.

Lemma inference_at k p model device is_half :
  paths !! k = Some p ->
  triple paths (PNext k) (inference X model p device is_half)
    (at_phase (PInferred k p)).
Proof.
  intros Hk. unfold inference.
  eapply triple_bind_at; [tri|]. intros _.
  eapply triple_bind_at; [apply read_image_at|]. intros img.
  tri.
Qed.

Lemma label_line_at q l :
  live q -> triple paths q (label_line X l) (at_phase q).
Proof.
  intros Hq. unfold label_line.
  do 6 (destruct l as [|? l]; [tri|]); tri.
Qed.

Lemma index_at {A} q what (l : list A) c :
  live q -> triple paths q (index what l c) (at_phase q).
Proof. intros Hq. unfold index. tri. Qed.

Lemma getitem_at q pred key :
  live q -> triple paths q (getitem pred key) (at_phase q).
Proof. intros Hq. unfold getitem. tri. Qed.

Lemma overlay_detection_at k p args txt_path img det :
  triple paths (PPost k p) (overlay_detection X args txt_path img det)
    (at_phase (PPost k p)).
Proof.
  unfold overlay_detection. destruct det as [[xyxy conf] cls_name].
  eapply triple_bind_at.
  - destruct (save_txt args); [|tri].
    destruct (box_xyxy_to_cxcywh X xyxy) as [[[cx cy] bw] bh].
    eapply triple_bind_at; [tri|]. intros _.
    eapply triple_bind_at; [by apply label_line_at|]. intros line. tri.
  - intros _. destruct (save_img args); [|tri].
    eapply triple_bind_at; [by apply index_at|]. intros name.
    eapply triple_bind_at; [by apply index_at|]. intros color.
    tri.
Qed.

Lemma overlay_pred_at k p args time_consume st ipred :
  triple paths (PPost k p) (overlay_pred X args p time_consume st ipred)
    (at_phase (PPost k p)).
Proof.
  unfold overlay_pred. destruct ipred as [i pred].
  eapply triple_bind_at.
  - destruct pred as [pred|]; [|tri].
    destruct (0 <? size pred)%nat; [|tri].
    eapply triple_bind_at; [by apply getitem_at|]. intros b.
    eapply triple_bind_at; [unfold as_boxes; tri|]. intros boxes.
    eapply triple_bind_at; [by apply getitem_at|]. intros sc.
    eapply triple_bind_at; [unfold as_floats; tri|]. intros scores.
    eapply triple_bind_at; [by apply getitem_at|]. intros lb.
    eapply triple_bind_at; [unfold as_longs; tri|]. intros labels.
    eapply triple_bind_at.
    { apply triple_foldM. intros s c.
      eapply triple_bind_at; [by apply index_at|]. intros name. tri. }
    intros s.
    eapply triple_bind_at.
    { apply triple_foldM. intros img det. apply overlay_detection_at. }
    intros img. tri.
  - intros [s st']. tri.
Qed.

Lemma overlay_boxes_at k p detections time_consume args :
  triple paths (PInferred k p)
    (overlay_boxes X detections p time_consume args)
    (at_phase (PNext (S k))).
Proof.
  unfold overlay_boxes.
  eapply triple_bind_at; [tri|]. intros _.
  eapply triple_bind_at; [destruct (save_img args); tri|]. intros img.
  eapply triple_bind_at.
  { apply triple_foldM. intros st ipred. apply overlay_pred_at. }
  intros st. tri.
Qed.

Lemma process_image_at k p device is_half args model :
  paths !! k = Some p ->
  triple paths (PNext k) (process_image X device is_half args model p)
    (at_phase (PNext (S k))).
Proof.
  intros Hk. unfold process_image.
  eapply triple_bind_at; [by apply inference_at|]. intros [[m out] tc].
  eapply triple_bind_at; [apply overlay_boxes_at|]. intros _. tri.
Qed.

(** The loop of [main], started when the images of [pre] are done. *)
Lemma images_loop_at device is_half args l pre model :
  paths = pre ++ l ->
  triple paths (PNext (length pre))
    (images_loop X device is_half args l model)
    (at_phase (PNext (length paths))).
Proof.
  unfold images_loop. revert pre model. induction l as [|p l IH]; intros pre model Hp; simpl.
  - subst paths. rewrite app_nil_r. tri.
  - eapply triple_bind_at.
    + apply process_image_at. subst paths. by rewrite list_lookup_middle.
    + intros model'. specialize (IH (pre ++ [p]) model').
      rewrite length_app in IH. simpl in IH.
      replace (length pre + 1)%nat with (S (length pre)) in IH by lia.
      apply IH. subst paths. by rewrite <- app_assoc.
Qed.

End FunctionTriples.

#[global] Hint Resolve load_names_at : triples.

Section MainTriples.

Variable X : Ext.

Lemma random_colors_at paths q n :
  live q -> triple paths q (random_colors X n) (at_phase q).
Proof. intros Hq. unfold random_colors. tri. Qed.

Lemma yolov5_val paths cfg ckpt :
  triple paths PArgs (yolov5 X cfg ckpt)
    (fun m q' => hub_yolov5 X cfg ckpt = inr m /\ q' = PModel).
Proof.
  unfold yolov5. eapply triple_bind_at; [tri|]. intros _.
  by apply triple_lift.
Qed.

Lemma LoadImages_val paths src imgsz :
  triple paths PModel (LoadImages X src imgsz)
    (fun ds q' => load_images X src imgsz = inr ds /\ q' = PModel).
Proof.
  unfold LoadImages. eapply triple_bind_at; [tri|]. intros _.
  by apply triple_lift.
Qed.

Lemma parse_args_val paths argv :
  triple paths PStart (parse_args X argv)
    (fun args q' => argparse X argv = inr args /\ q' = PArgs).
Proof.
  unfold parse_args. eapply triple_bind_at; [tri|]. intros _.
  by apply triple_lift.
Qed.

(** [main] takes the pipeline from parsed arguments to its end, over the
    paths its dataset yields. *)
Lemma main_at args :
  triple (planned X args) PArgs (main X args) (at_phase PEnd).
Proof.
  unfold main. cbv zeta.
  eapply triple_bind_at; [tri|]. intros _.
  eapply triple_bind; [apply yolov5_val|]. intros m q' [Hhub ->].
  eapply triple_bind; [apply LoadImages_val|]. intros ds q' [Hds ->].
  simpl in Hds.
  assert (Hp : planned X args = ds_paths ds).
  { unfold planned. by rewrite Hhub, Hds. }
  eapply triple_bind_at; [apply load_names_at|]. intros lines.
  eapply triple_bind_at; [by apply random_colors_at|]. intros cols.
  eapply triple_bind_at; [tri|]. intros t0.
  eapply triple_bind_at; [tri|]. intros _.
  eapply triple_bind_at.
  { apply (images_loop_at _ X _ _ _ (ds_paths ds) []). by rewrite Hp. }
  intros _. simpl.
  destruct (save_txt args || save_img args); simpl; tri.
Qed.

Lemma script_at argv :
  triple (planned_argv X argv) PStart (script X argv) (at_phase PEnd).
Proof.
  unfold script.
  eapply triple_bind; [apply parse_args_val|]. intros args q' [Hargs ->].
  assert (Hp : planned_argv X argv = planned X args).
  { unfold planned_argv. by rewrite Hargs. }
  rewrite Hp.
  eapply triple_bind_at; [tri|]. intros _. apply main_at.
Qed.

End MainTriples.

(* ===================================================================== *)
(** ** What an accepted trace looks like *)
(* ===================================================================== *)

Ltac step_cases q ev :=
  destruct q, ev; simpl in *; repeat case_decide; simplify_eq/=; try done.

Section Accepted.

Variable paths : list string.

Lemma step_stop_inv q ev e :
  step paths q ev = Some (PStop e) -> ev = ERaise e /\ live q.
Proof. intros H. step_cases q ev. Qed.

Lemma step_target q ev q' : step paths q ev = Some q' -> q' <> PStart.
Proof. intros H. step_cases q ev. Qed.

Lemma step_live_not_raise q ev q' :
  step paths q ev = Some q' -> live q' -> raised [ev] = [].
Proof. intros H Hl. step_cases q ev. Qed.

Lemma pipeline_from_stop e t q' :
  pipeline paths (PStop e) t = Some q' -> t = [] /\ q' = PStop e.
Proof. destruct t; simpl; [by intros [= <-]|done]. Qed.

Lemma raised_cons ev t : raised (ev :: t) = raised [ev] ++ raised t.
Proof. unfold raised. simpl. by destruct ev. Qed.

Lemma raised_app t1 t2 : raised (t1 ++ t2) = raised t1 ++ raised t2.
Proof. unfold raised. apply omap_app. Qed.

(** A run that ends in a live phase has raised nothing. *)
Lemma pipeline_live_raised q t q' :
  pipeline paths q t = Some q' -> live q' -> raised t = [].
Proof.
  revert q. induction t as [|ev t IH]; intros q; [done|]. cbn [pipeline].
  destruct (step paths q ev) as [q1|] eqn:Hs; [|done].
  intros Hp Hl. rewrite raised_cons.
  destruct (decide (stopped q1)) as [Hq1|Hq1].
  - destruct q1; try done. apply pipeline_from_stop in Hp as [_ ->]. done.
  - assert (live q1).
    { apply step_target in Hs. by destruct q1. }
    rewrite (step_live_not_raise _ _ _ Hs), (IH q1); done.
Qed.

(** A run that ends stopped was live until its last event, which is the
    raise. *)
Lemma pipeline_stop_split q t e :
  pipeline paths q t = Some (PStop e) -> ~ stopped q ->
  exists t0 q0,
    t = t0 ++ [ERaise e] /\ pipeline paths q t0 = Some q0 /\ live q0.
Proof.
  revert q. induction t as [|ev t IH]; intros q; simpl.
  - intros [= ->] Hq. by destruct Hq.
  - destruct (step paths q ev) as [q1|] eqn:Hs; [|done].
    intros Hp Hq.
    destruct (decide (stopped q1)) as [Hq1|Hq1].
    + destruct q1; try done. apply pipeline_from_stop in Hp as [-> [= ->]].
      apply step_stop_inv in Hs as [-> Hl]. by exists [], q.
    + destruct (IH q1 Hp Hq1) as (t0 & q0 & -> & Hp0 & Hl0).
      exists (ev :: t0), q0. simpl. by rewrite Hs.
Qed.

Lemma pipeline_stop_raised q t e :
  pipeline paths q t = Some (PStop e) -> ~ stopped q ->
  raised t = [e] /\ last t = Some (ERaise e).
Proof.
  intros Hp Hq.
  destruct (pipeline_stop_split _ _ _ Hp Hq) as (t0 & q0 & -> & Hp0 & Hl0).
  rewrite raised_app, (pipeline_live_raised _ _ _ Hp0 Hl0), last_snoc. done.
Qed.

(** *** The checkpoint is loaded once, before any image is touched *)

Lemma step_loads q ev q' :
  step paths q ev = Some q' -> live q' ->
  loads q' = (loads q + length (List.filter is_load [ev]))%nat.
Proof. intros H Hl. step_cases q ev. Qed.

Lemma filter_cons_app {A} (f : A -> bool) x l :
  List.filter f (x :: l) = List.filter f [x] ++ List.filter f l.
Proof. simpl. by destruct (f x). Qed.

Lemma pipeline_loads q t q' :
  pipeline paths q t = Some q' -> live q' ->
  loads q' = (loads q + length (List.filter is_load t))%nat.
Proof.
  revert q. induction t as [|ev t IH]; intros q.
  - simpl. intros [= ->] _. lia.
  - cbn [pipeline]. destruct (step paths q ev) as [q1|] eqn:Hs; [|done].
    intros Hp Hl.
    destruct (decide (stopped q1)) as [Hq1|Hq1].
    + destruct q1; try done. apply pipeline_from_stop in Hp as [_ ->]. done.
    + assert (live q1).
      { apply step_target in Hs. by destruct q1. }
      rewrite filter_cons_app, length_app, (IH q1 Hp Hl),
        (step_loads _ _ _ Hs); [lia|done].
Qed.

Lemma step_touch q ev q' :
  step paths q ev = Some q' -> loads q = 0%nat -> touches_image ev = false.
Proof. intros H Hl. step_cases q ev. Qed.

Lemma step_loads_zero q ev q' :
  step paths q ev = Some q' -> loads q = 0%nat -> is_load ev = false ->
  loads q' = 0%nat.
Proof. intros H Hl Hev. step_cases q ev. Qed.

(** Before the checkpoint is loaded no event touches an image. *)
Lemma pipeline_touch q t q' t1 ev t2 :
  pipeline paths q t = Some q' -> loads q = 0%nat ->
  t = t1 ++ ev :: t2 -> touches_image ev = true ->
  exists cfg ckpt, ELoadModel cfg ckpt ∈ t1.
Proof.
  revert q t. induction t1 as [|ev1 t1 IH]; intros q t Hp Hq -> Hev;
    simpl in Hp; destruct (step paths q _) as [q1|] eqn:Hs; try done.
  - by rewrite (step_touch _ _ _ Hs Hq) in Hev.
  - destruct (is_load ev1) eqn:Hl1.
    + destruct ev1; try done. eexists _, _. apply list_elem_of_here.
    + destruct (IH q1 _ Hp (step_loads_zero _ _ _ Hs Hq Hl1) eq_refl Hev)
        as (cfg & ckpt & Hin).
      exists cfg, ckpt. by apply list_elem_of_further.
Qed.

(** A run out of [PStart] begins by parsing the command line. *)
Lemma pipeline_start t q' :
  pipeline paths PStart t = Some q' -> q' <> PStart ->
  exists t', t = EParseArgs :: t'.
Proof.
  destruct t as [|ev t]; simpl; [by intros [= <-]|].
  destruct ev; try done. eauto.
Qed.

(** *** Milestones follow the dataset *)

Lemma step_progress q ev q' :
  wf_phase paths q -> step paths q ev = Some q' -> live q' ->
  wf_phase paths q' /\
  progress paths q' = progress paths q ++ milestones [ev].
Proof.
  intros Hwf Hs Hl.
  destruct q, ev; simpl in Hs; repeat case_decide; simplify_eq;
    try done; try (split; [done|]; simpl; by rewrite ?app_nil_r, <- ?app_assoc).
  split; [done|]. cbn [progress milestones List.filter is_milestone].
  simpl in Hwf. rewrite (take_S_r _ _ _ Hwf), flat_map_app. simpl.
  by rewrite <- app_assoc.
Qed.

Lemma milestones_cons ev t :
  milestones (ev :: t) = milestones [ev] ++ milestones t.
Proof. apply filter_cons_app. Qed.

Lemma milestones_app t1 t2 :
  milestones (t1 ++ t2) = milestones t1 ++ milestones t2.
Proof. apply List.filter_app. Qed.

Lemma pipeline_progress q t q' :
  wf_phase paths q -> pipeline paths q t = Some q' -> live q' ->
  wf_phase paths q' /\
  progress paths q' = progress paths q ++ milestones t.
Proof.
  revert q. induction t as [|ev t IH]; intros q Hwf.
  - simpl. intros [= ->] _. by rewrite app_nil_r.
  - cbn [pipeline]. destruct (step paths q ev) as [q1|] eqn:Hs; [|done].
    intros Hp Hl.
    destruct (decide (stopped q1)) as [Hq1|Hq1].
    + destruct q1; try done. apply pipeline_from_stop in Hp as [_ ->]. done.
    + assert (Hl1 : live q1).
      { apply step_target in Hs. by destruct q1. }
      destruct (step_progress _ _ _ Hwf Hs Hl1) as [Hwf1 Hpr1].
      destruct (IH q1 Hwf1 Hp Hl) as [Hwf' Hpr'].
      split; [done|].
      by rewrite Hpr', Hpr1, (milestones_cons ev t), <- app_assoc.
Qed.

(** Whatever the phase, the milestones behind it begin the full list. *)
Lemma progress_prefix q :
  wf_phase paths q ->
  progress paths q `prefix_of`
    EForward :: flat_map image_milestones paths.
Proof.
  intros Hwf.
  assert (Hdone : forall k p, paths !! k = Some p -> forall part rest,
    image_milestones p = part ++ rest ->
    (EForward :: flat_map image_milestones (take k paths)) ++ part
      `prefix_of` EForward :: flat_map image_milestones paths).
  { intros k p Hk part rest Hpr.
    rewrite <- (take_drop_middle _ _ _ Hk) at 2.
    rewrite flat_map_app. cbn [flat_map]. rewrite Hpr.
    exists (rest ++ flat_map image_milestones (drop (S k) paths)).
    cbn [app]. by rewrite <- !app_assoc. }
  destruct q; simpl in *; try apply prefix_nil.
  - rewrite <- (take_drop k paths) at 2. rewrite flat_map_app.
    apply prefix_cons, prefix_app_r. done.
  - eapply Hdone; [done|]. by instantiate (1 := [_; _; _; _]).
  - eapply Hdone; [done|]. by instantiate (1 := [_; _; _; _]).
  - eapply Hdone; [done|]. by instantiate (1 := [_; _; _]).
  - eapply Hdone; [done|]. by instantiate (1 := [_; _]).
  - eapply Hdone; [done|]. by instantiate (1 := [_]).
  - by rewrite firstn_all.
Qed.

End Accepted.

(* ===================================================================== *)
(** ** The order of the steps *)
(* ===================================================================== *)

Lemma filter_load_snoc_raise t e :
  List.filter is_load (t ++ [ERaise e]) = List.filter is_load t.
Proof. by rewrite List.filter_app, app_nil_r. Qed.

Lemma loads_le_1 q : (loads q <= 1)%nat.
Proof. destruct q; simpl; lia. Qed.

(** C1.  Every run of the script goes through the steps in the order of the
    pipeline.  Its first event is the parsing of the command line, and the
    events of the run are accepted by [pipeline], which ends in [PEnd] when
    the script returns and in [PStop e] when it raises [e]: the checkpoint
    is loaded after the arguments are parsed, the images are taken in the
    order [planned_argv] gives (the paths the dataset yields), and each
    image goes through [inference] (read, forward pass) and then through
    [overlay_boxes] before the next one is begun.  The checkpoint is loaded
    at most once, exactly once in a run that returns, and every event that
    touches an image comes after that load. *)
Theorem script_follows_pipeline (X : Ext) (argv : list string) (w : World) :
  exists t,
    trace (script X argv w).2 = trace w ++ EParseArgs :: t /\
    pipeline (planned_argv X argv) PStart (EParseArgs :: t) =
      Some (match (script X argv w).1 with
            | inr _ => PEnd
            | inl e => PStop e
            end) /\
    (length (List.filter is_load t) <= 1)%nat /\
    (forall t1 ev t2,
        t = t1 ++ ev :: t2 -> touches_image ev = true ->
        exists cfg ckpt, ELoadModel cfg ckpt ∈ t1) /\
    (forall u, (script X argv w).1 = inr u ->
        length (List.filter is_load t) = 1%nat /\
        milestones t =
          EForward :: flat_map image_milestones (planned_argv X argv)).
Proof.
  destruct (script_at X argv w) as (t & Ht & H).
  set (paths := planned_argv X argv) in *.
  assert (Hacc : pipeline paths PStart t =
                 Some (match (script X argv w).1 with
                       | inr _ => PEnd
                       | inl e => PStop e
                       end)).
  { destruct ((script X argv w).1) as [e|u]; [done|].
    by destruct H as (q' & Hp & ->). }
  clear H.
  destruct (pipeline_start paths t _ Hacc) as [t' ->].
  { by destruct ((script X argv w).1). }
  exists t'. split; [done|]. split; [done|].
  assert (Htouch : forall t1 ev t2,
    t' = t1 ++ ev :: t2 -> touches_image ev = true ->
    exists cfg ckpt, ELoadModel cfg ckpt ∈ t1).
  { intros t1 ev t2 -> Hev.
    destruct (pipeline_touch paths PStart _ _ (EParseArgs :: t1) ev t2
                Hacc eq_refl eq_refl Hev) as (cfg & ckpt & Hin).
    exists cfg, ckpt. by apply elem_of_cons in Hin as [?|?]. }
  destruct ((script X argv w).1) as [e|u].
  - destruct (pipeline_stop_split paths _ _ _ Hacc) as (t0 & q0 & Ht0 & Hp0 & Hl0);
      [by intros []|].
    destruct t0 as [|ev0 t0]; [by simplify_eq/=|].
    simpl in Ht0. injection Ht0 as Hev0 Ht'. subst ev0 t'.
    pose proof (pipeline_loads paths _ _ _ Hp0 Hl0) as Hloads.
    pose proof (loads_le_1 q0). cbn in Hloads.
    rewrite filter_load_snoc_raise.
    split; [lia|]. split; [done|]. done.
  - pose proof (pipeline_loads paths _ _ _ Hacc I) as Hloads. cbn in Hloads.
    split; [lia|]. split; [done|]. intros u' _. split; [lia|].
    destruct (pipeline_progress paths PStart _ _ I Hacc I) as [_ Hpr].
    cbn in Hpr. by rewrite firstn_all in Hpr.
Qed.

(** In every run of [main] an exception is raised at most once; when one is
    raised it is the very exception [main] hands to its caller, and raising
    it is the last thing the run does. *)
Lemma main_raises_once (X : Ext) (args : Args) (w : World) :
  exists t,
    trace (main X args w).2 = trace w ++ t /\
    match (main X args w).1 with
    | inl e => raised t = [e] /\ last t = Some (ERaise e)
    | inr _ => raised t = []
    end.
Proof.
  destruct (main_at X args w) as (t & Ht & H). exists t. split; [done|].
  destruct ((main X args w).1) as [e|u].
  - apply (pipeline_stop_raised _ _ _ _ H). by intros [].
  - destruct H as (q' & Hp & ->). by apply (pipeline_live_raised _ _ _ _ Hp).
Qed.

Lemma script_follows_pipeline_witness :
  exists t,
    trace (script Demo.ext Demo.argv Demo.disk).2
    = trace Demo.disk ++ EParseArgs :: t /\
    milestones t
    = EForward :: flat_map image_milestones ["imgs/a.jpg"; "imgs/b.jpg"].
Proof.
  destruct (script_follows_pipeline Demo.ext Demo.argv Demo.disk)
    as (t & Ht & _ & _ & _ & Hret).
  exists t. split; [exact Ht|].
  refine (proj2 (Hret tt _)). vm_compute. reflexivity.
Defined.

(** Four failing runs on the demo disk: a checkpoint that does not load, a
    label map that is not there, an image file that OpenCV cannot decode,
    and a label file that cannot be opened.  Each time the script ends with
    the exception of the failing call. *)
Example failures_reach_the_caller :
  (script Demo.ext ("--checkpoint" :: "missing.pt" :: Demo.argv) Demo.disk).1
  = inl (FileNotFoundError "missing.pt") /\
  (script Demo.ext ("--labelmap" :: "nowhere.names" :: Demo.argv) Demo.disk).1
  = inl (FileNotFoundError "nowhere.names") /\
  (script Demo.ext Demo.argv
     (set_images (delete "imgs/b.jpg" (images Demo.disk)) Demo.disk)).1
  = inl (RuntimeError "permute: number of dims don't match") /\
  (script Demo.ext Demo.argv
     {| images := images Demo.disk; texts := texts Demo.disk;
        faults := {[ "out/a.txt" := OSError "out/a.txt" ]};
        stdout := []; ticks := 0; draws := 0; trace := [] |}).1
  = inl (OSError "out/a.txt").
Proof. repeat split; vm_compute; reflexivity. Qed.

(** C4.  The loop of [main] handles the images one at a time and in the
    order the dataset yields them.  Among the events of the loop, the
    milestones (entry of [inference], forward pass, return of [inference],
    entry and return of [overlay_boxes]) are, for the paths in order, those
    of one image after those of the other, so [overlay_boxes] of an image
    has returned when the forward pass of the next begins.  A loop that
    raises stops part of the way through that list. *)
Theorem images_one_at_a_time (X : Ext) (device : Device) (is_half : bool)
    (args : Args) (paths : list string) (model : Model) (w : World) :
  exists t,
    trace (images_loop X device is_half args paths model w).2 = trace w ++ t /\
    milestones t `prefix_of` flat_map image_milestones paths /\
    (forall m,
        (images_loop X device is_half args paths model w).1 = inr m ->
        milestones t = flat_map image_milestones paths).
Proof.
  destruct (images_loop_at paths X device is_half args paths [] model eq_refl w)
    as (t & Ht & H).
  exists t. split; [done|].
  destruct ((images_loop X device is_half args paths model w).1) as [e|m].
  - destruct (pipeline_stop_split paths _ _ _ H) as (t0 & q0 & -> & Hp0 & Hl0);
      [by intros []|].
    destruct (pipeline_progress paths (PNext 0) _ _ I Hp0 Hl0) as [Hwf Hpr].
    pose proof (progress_prefix paths q0 Hwf) as Hpre.
    rewrite Hpr in Hpre. cbn in Hpre. apply prefix_cons_inv_2 in Hpre.
    rewrite milestones_app, app_nil_r. split; [done|]. done.
  - destruct H as (q' & Hp & ->).
    destruct (pipeline_progress paths (PNext 0) _ _ I Hp I) as [_ Hpr].
    cbn in Hpr. rewrite firstn_all in Hpr. injection Hpr as Hpr.
    rewrite <- Hpr. split; [done|]. done.
Qed.

Lemma images_one_at_a_time_witness :
  exists t,
    trace (images_loop Demo.ext Cpu false Demo.main_args
             ["imgs/a.jpg"; "imgs/b.jpg"] Demo.model Demo.disk).2
    = trace Demo.disk ++ t /\
    milestones t = flat_map image_milestones ["imgs/a.jpg"; "imgs/b.jpg"].
Proof.
  destruct (images_one_at_a_time Demo.ext Cpu false Demo.main_args
              ["imgs/a.jpg"; "imgs/b.jpg"] Demo.model Demo.disk)
    as (t & Ht & _ & Hret).
  exists t. split; [exact Ht|].
  refine (Hret (model_eval Demo.model) _). vm_compute. reflexivity.
Defined.

(* ===================================================================== *)
(** ** Reading an image *)
(* ===================================================================== *)

Lemma scaled_pixel_in_range (b : byte) :
  F32.leb F32.zero (F32.div (F32.of_u8 b) F32.c255) = true /\
  F32.leb (F32.div (F32.of_u8 b) F32.c255) F32.one = true.
Proof. destruct b; vm_compute; done. Qed.

(** C6.  For an image file that OpenCV decodes, [read_image] returns a
    float32 tensor of shape (3, H, W) whose element at channel [c], row [i],
    column [j] is the pixel value at row [i], column [j], channel [c],
    converted to float32 and divided by 255.0; every element lies between
    0.0 and 1.0. *)
Theorem read_image_scales_pixels (name : string) (is_half : bool)
    (w : World) (m : Mat) :
  images w !! name = Some m ->
  exists a,
    (read_image name is_half w).1 = inr {| t_data := A3 a; t_device := Cpu |} /\
    (dim0 a, dim1 a, dim2 a) = (3%nat, rows m, cols m) /\
    forall c i j,
      item a c i j = F32.div (F32.of_u8 (pixel m i j c)) F32.c255 /\
      F32.leb F32.zero (item a c i j) = true /\
      F32.leb (item a c i j) F32.one = true.
Proof.
  intros Hm. unfold read_image, imread, bind, emit, get. simpl. rewrite Hm.
  simpl. eexists. split; [reflexivity|]. split; [done|].
  intros c i j. simpl. split; [done|]. apply scaled_pixel_in_range.
Qed.

Lemma read_image_scales_pixels_witness :
  images Demo.disk !! "imgs/a.jpg" = Some (Demo.gray 3 2) /\
  exists a,
    (read_image "imgs/a.jpg" false Demo.disk).1
      = inr {| t_data := A3 a; t_device := Cpu |} /\
    (dim0 a, dim1 a, dim2 a) = (3%nat, 3%nat, 2%nat) /\
    forall c i j,
      item a c i j = F32.div (F32.of_u8 "128"%byte) F32.c255 /\
      F32.leb F32.zero (item a c i j) = true /\
      F32.leb (item a c i j) F32.one = true.
Proof.
  split; [reflexivity|].
  apply (read_image_scales_pixels "imgs/a.jpg" false Demo.disk (Demo.gray 3 2)).
  reflexivity.
Defined.

(** C10.  [read_image] never looks at [is_half]: with either value it does
    the same, and so does [inference], which only passes the flag on. *)
Theorem read_image_ignores_is_half (name : string) (w : World) :
  read_image name true w = read_image name false w /\
  forall (X : Ext) (model : Model) (device : Device),
    inference X model name device true w
    = inference X model name device false w.
Proof. split; [reflexivity|]. intros X model device. reflexivity. Qed.

(* ===================================================================== *)
(** ** Inference keeps nothing from one image to the next *)
(* ===================================================================== *)

Lemma bind_inr {A B} (m : M A) (k : A -> M B) w b w' :
  bind m k w = (inr b, w') ->
  exists a w1, m w = (inr a, w1) /\ k a w1 = (inr b, w').
Proof.
  unfold bind. destruct (m w) as [[e|a] w1]; [done|]. eauto.
Qed.

Lemma ret_inr {A} (a b : A) w w' : ret a w = (inr b, w') -> a = b /\ w = w'.
Proof. by intros [= -> ->]. Qed.

(** What [inference] returns is [detect] of what the file holds now. *)
Lemma inference_outcome X model p device is_half w :
  outcome (inference X model p device is_half w).1
  = detect X model device (images w !! p).
Proof.
  unfold inference, read_image, imread, time_synchronized, time_time,
    model_call, detect, bind, emit, get, modify, ret. simpl.
  destruct (images w !! p) as [m|]; simpl; [|done].
  destruct (forward X (model_eval model) _) as [e|d]; simpl; done.
Qed.

(** Every call of [inference] reads the image file. *)
Lemma inference_reads X model p device is_half w :
  exists t,
    trace (inference X model p device is_half w).2
    = trace w ++ EInference p :: EImread p :: t.
Proof.
  unfold inference, read_image, imread, time_synchronized, time_time,
    model_call, bind, emit, get, modify, ret. simpl.
  destruct (images w !! p) as [m|]; simpl.
  - destruct (forward X (model_eval model) _) as [e|d]; simpl;
      rewrite <- !app_assoc; simpl; eexists; reflexivity.
  - rewrite <- !app_assoc. simpl. eexists; reflexivity.
Qed.

Lemma inference_model X model p device is_half w m d tc w' :
  inference X model p device is_half w = (inr (m, d, tc), w') ->
  m = model_eval model.
Proof.
  intros H. pose proof (inference_outcome X model p device is_half w) as Ho.
  rewrite H in Ho. simpl in Ho. unfold detect in Ho.
  destruct (permute_2_0_1 _); [done|].
  destruct (forward X _ _); [done|]. by injection Ho as -> _.
Qed.

Lemma process_image_model X device is_half args model p w m w' :
  process_image X device is_half args model p w = (inr m, w') ->
  m = model_eval model.
Proof.
  unfold process_image. intros H.
  apply bind_inr in H as ([[m0 d] tc] & w1 & Hinf & H).
  apply bind_inr in H as (r & w2 & _ & H).
  apply ret_inr in H as [<- _].
  by apply inference_model in Hinf.
Qed.

(** The loop leaves the model as [eval] makes it. *)
Lemma images_loop_model X device is_half args paths model w m w' :
  images_loop X device is_half args paths model w = (inr m, w') ->
  model_eval m = model_eval model.
Proof.
  unfold images_loop. revert model w.
  induction paths as [|p paths IH]; intros model w; simpl.
  - by intros [= -> _].
  - intros H. apply bind_inr in H as (m1 & w1 & Hp & H).
    apply process_image_model in Hp as ->.
    by rewrite (IH _ _ H).
Qed.

(** C5.  The detections of an image depend on what its file holds when it
    is read, on the model and on the device, and on nothing else.  Take two
    runs of the loop of [main] with the same model, over any two lists of
    earlier images [pre1] and [pre2] and from any two worlds; if the file
    [p] holds the same in the worlds they reach, [inference] on [p] gives
    the same model and detections (or the same exception) after both, and
    these are [detect] of the file's content.  Each of the two calls reads
    the file again. *)
Theorem inference_keeps_no_state (X : Ext) (device : Device) (is_half : bool)
    (args : Args) (model : Model) (pre1 pre2 : list string) (p : string)
    (w1 w2 : World) (m1 m2 : Model) :
  (images_loop X device is_half args pre1 model w1).1 = inr m1 ->
  (images_loop X device is_half args pre2 model w2).1 = inr m2 ->
  images (images_loop X device is_half args pre1 model w1).2 !! p
  = images (images_loop X device is_half args pre2 model w2).2 !! p ->
  outcome (inference X m1 p device is_half
             (images_loop X device is_half args pre1 model w1).2).1
  = outcome (inference X m2 p device is_half
               (images_loop X device is_half args pre2 model w2).2).1 /\
  outcome (inference X m1 p device is_half
             (images_loop X device is_half args pre1 model w1).2).1
  = detect X model device
      (images (images_loop X device is_half args pre1 model w1).2 !! p) /\
  (exists t,
      trace (inference X m1 p device is_half
               (images_loop X device is_half args pre1 model w1).2).2
      = trace (images_loop X device is_half args pre1 model w1).2
        ++ EInference p :: EImread p :: t) /\
  (exists t,
      trace (inference X m2 p device is_half
               (images_loop X device is_half args pre2 model w2).2).2
      = trace (images_loop X device is_half args pre2 model w2).2
        ++ EInference p :: EImread p :: t).
Proof.
  intros H1 H2 Hfile.
  destruct (images_loop X device is_half args pre1 model w1) as [r1 w1'] eqn:E1.
  destruct (images_loop X device is_half args pre2 model w2) as [r2 w2'] eqn:E2.
  simpl in *. subst r1 r2.
  apply images_loop_model in E1, E2.
  rewrite !inference_outcome. unfold detect. rewrite E1, E2, Hfile.
  split; [done|]. split; [done|].
  split; apply inference_reads.
Qed.

Lemma inference_keeps_no_state_witness :
  outcome (inference Demo.ext Demo.model "imgs/a.jpg" Cpu false
             (images_loop Demo.ext Cpu false Demo.main_args []
                Demo.model Demo.disk).2).1
  = outcome (inference Demo.ext (model_eval Demo.model) "imgs/a.jpg" Cpu false
               (images_loop Demo.ext Cpu false Demo.main_args ["imgs/b.jpg"]
                  Demo.model Demo.disk).2).1.
Proof.
  refine (proj1 (inference_keeps_no_state Demo.ext Cpu false Demo.main_args
                   Demo.model [] ["imgs/b.jpg"] "imgs/a.jpg"
                   Demo.disk Demo.disk Demo.model (model_eval Demo.model)
                   _ _ _)).
  - reflexivity.
  - vm_compute. reflexivity.
  - vm_compute. reflexivity.
Defined.

(* ===================================================================== *)
(** ** What post-processing writes *)
(* ===================================================================== *)

Lemma string_app_assoc (s1 s2 s3 : string) :
  (s1 +:+ s2) +:+ s3 = s1 +:+ (s2 +:+ s3).
Proof.
  induction s1 as [|a s1 IH]; [done|].
  change (String a ((s1 +:+ s2) +:+ s3) = String a (s1 +:+ (s2 +:+ s3))).
  by rewrite IH.
Qed.

Lemma string_app_nil_r (s : string) : s +:+ "" = s.
Proof.
  induction s as [|a s IH]; [done|].
  change (String a (s +:+ "") = String a s). by rewrite IH.
Qed.

(** *** What a computation that returns has done *)

Lemma emit_inr ev w u w' : emit ev w = (inr u, w') -> w' = log ev w.
Proof. by intros [= _ <-]. Qed.

Lemma get_inr {A} (f : World -> A) w a w' :
  get f w = (inr a, w') -> a = f w /\ w' = w.
Proof. by intros [= <- <-]. Qed.

Lemma modify_inr f w u w' : modify f w = (inr u, w') -> w' = f w.
Proof. by intros [= _ <-]. Qed.

Lemma raise_inr {A} e w (a : A) w' : raise e w = (inr a, w') -> False.
Proof. done. Qed.

Lemma lift_inr {A} (r : Exn + A) w a w' :
  lift r w = (inr a, w') -> r = inr a /\ w' = w.
Proof. destruct r; simpl; [done|]. by intros [= -> ->]. Qed.

(** Takes apart a hypothesis that says a computation returned. *)
Ltac inv_run H :=
  lazymatch type of H with
  | bind _ _ _ = (inr _, _) =>
      let a := fresh "a" in
      let w1 := fresh "w" in
      let H1 := fresh "H" in
      apply bind_inr in H as (a & w1 & H1 & H); inv_run H1; inv_run H
  | ret _ _ = (inr _, _) => apply ret_inr in H as [? ?]; subst
  | emit _ _ = (inr _, _) => apply emit_inr in H; subst
  | get _ _ = (inr _, _) => apply get_inr in H as [? ?]; subst
  | modify _ _ = (inr _, _) => apply modify_inr in H; subst
  | raise _ _ = (inr _, _) => by apply raise_inr in H
  | lift _ _ = (inr _, _) => apply lift_inr in H as [? ?]; subst
  | _ => idtac
  end.

Lemma open_append_inr path w u w' :
  open_append path w = (inr u, w') ->
  disk w' = (images w,
             match texts w !! path with
             | Some _ => texts w
             | None => <[path := ""]> (texts w)
             end,
             faults w, stdout w).
Proof.
  unfold open_append. intros H. inv_run H.
  destruct (faults (log _ w) !! path); inv_run H.
  unfold disk. simpl. by destruct (texts w !! path).
Qed.

Lemma write_inr path line w u w' :
  write path line w = (inr u, w') ->
  disk w' = (images w, appended path line (texts w), faults w, stdout w).
Proof. unfold write. intros H. inv_run H. done. Qed.

Lemma print_inr line w u w' :
  print line w = (inr u, w') ->
  disk w' = (images w, texts w, faults w, stdout w ++ [line]).
Proof. unfold print. intros H. inv_run H. done. Qed.

Lemma imread_inr path w img w' :
  imread path w = (inr img, w') -> img = images w !! path /\ disk w' = disk w.
Proof. unfold imread. intros H. inv_run H. done. Qed.

Lemma imwrite_inr path img w ok w' :
  imwrite path img w = (inr ok, w') ->
  exists m, img = Some m /\
    disk w' = (match faults w !! path with
               | None => <[path := m]> (images w)
               | Some _ => images w
               end, texts w, faults w, stdout w).
Proof.
  unfold imwrite. intros H. inv_run H. destruct img as [m|]; inv_run H.
  exists m. split; [done|]. simpl in H.
  destruct (faults w !! path); inv_run H; done.
Qed.

Lemma index_inr {A} what (l : list A) c w x w' :
  index what l c w = (inr x, w') -> py_index l c = Some x /\ w' = w.
Proof.
  unfold index. destruct (py_index l c); intros H; inv_run H. done.
Qed.

Lemma getitem_inr pred key w v w' :
  getitem pred key w = (inr v, w') -> pred !! key = Some v /\ w' = w.
Proof.
  unfold getitem. destruct (pred !! key); intros H; inv_run H. done.
Qed.

Lemma label_line_inr X a b c d e w line w' :
  label_line X [a; b; c; d; e] w = (inr line, w') ->
  line = pct_g X a +:+ " " +:+ pct_g X b +:+ " " +:+ pct_g X c +:+ " "
         +:+ pct_g X d +:+ " " +:+ pct_g X e +:+ " " +:+ String "010" ""
  /\ w' = w.
Proof. unfold label_line. intros H. inv_run H. done. Qed.

Lemma appended_after_create path text (store : gmap string string) :
  store !! path = None ->
  appended path text (<[path := ""]> store) = appended path text store.
Proof.
  intros Hn. unfold appended.
  by rewrite lookup_insert_eq, insert_insert_eq, Hn.
Qed.

(** One detection: its label line is appended when [save_txt] is set, and
    its box is drawn on the image when [save_img] is set. *)
Lemma overlay_detection_effect X args txt_path img det w img' w' :
  overlay_detection X args txt_path img det w = (inr img', w') ->
  disk w' = (images w,
             (if save_txt args
              then appended (Path_str txt_path +:+ ".txt") (label_text X det)
                     (texts w)
              else texts w),
             faults w, stdout w) /\
  (if save_img args
   then exists m, img' = Some m /\ draw_detection X args img det = Some m
   else img' = img).
Proof.
  destruct det as [[xyxy conf] cls].
  unfold overlay_detection. intros H.
  apply bind_inr in H as (u & w1 & Htxt & Himg).
  assert (Hdisk : disk w1 =
    (images w,
     (if save_txt args
      then appended (Path_str txt_path +:+ ".txt")
             (label_text X (xyxy, conf, cls)) (texts w)
      else texts w),
     faults w, stdout w)).
  { destruct (save_txt args); [|by inv_run Htxt].
    unfold label_text.
    destruct (box_xyxy_to_cxcywh X xyxy) as [[[cx cy] bw] bh].
    apply bind_inr in Htxt as (u1 & w2 & Hopen & Htxt).
    apply bind_inr in Htxt as (line & w3 & Hline & Hwrite).
    apply open_append_inr in Hopen. apply label_line_inr in Hline as [-> ->].
    apply write_inr in Hwrite. rewrite Hwrite.
    unfold disk in Hopen. injection Hopen as -> -> -> ->.
    destruct (texts w !! _) eqn:Hf; [done|].
    by rewrite appended_after_create. }
  destruct (save_img args).
  - apply bind_inr in Himg as (name & w2 & Hname & Himg).
    apply bind_inr in Himg as (color & w3 & Hcolor & Himg).
    apply bind_inr in Himg as (u2 & w4 & Hplot & Himg).
    apply index_inr in Hname as [Hname ->].
    apply index_inr in Hcolor as [Hcolor ->].
    apply emit_inr in Hplot as ->.
    destruct img as [m|]; [|by inv_run Himg].
    apply bind_inr in Himg as (m' & w5 & Hdraw & Himg).
    apply lift_inr in Hdraw as [Hdraw ->]. apply ret_inr in Himg as [<- <-].
    split; [exact Hdisk|]. exists m'. split; [done|].
    unfold draw_detection. by rewrite Hname, Hcolor, Hdraw.
  - apply ret_inr in Himg as [<- <-]. done.
Qed.

Lemma overlay_detections_effect X args txt_path dets img w img' w' :
  foldM (overlay_detection X args txt_path) dets img w = (inr img', w') ->
  disk w' = (images w,
             (if save_txt args
              then appended_all (Path_str txt_path +:+ ".txt")
                     (map (label_text X) dets) (texts w)
              else texts w),
             faults w, stdout w) /\
  (if save_img args
   then draw_detections X args img dets = img'
   else img' = img).
Proof.
  revert img w. induction dets as [|det dets IH]; intros img w; simpl.
  - intros H. apply ret_inr in H as [<- <-]. by destruct (save_txt args), (save_img args).
  - intros H. apply bind_inr in H as (img1 & w1 & Hdet & H).
    apply overlay_detection_effect in Hdet as [Hd1 Hi1].
    apply IH in H as [Hd Hi]. unfold disk in Hd1. injection Hd1 as E1 E2 E3 E4.
    rewrite Hd, E1, E2, E3, E4. split.
    + by destruct (save_txt args).
    + destruct (save_img args); [|congruence].
      destruct Hi1 as (m & -> & ->). done.
Qed.

Lemma summary_effect X class_names labels classes s w s' w' :
  foldM (fun s c =>
           let n := count_eq c labels in
           do name <- index "names" class_names c;
           ret (s +:+ pct_g X (F64.of_Z n) +:+ " " +:+ name +:+ "s, "))
        classes s w = (inr s', w') ->
  w' = w /\
  exists summary,
    class_summary X class_names labels classes = Some summary /\
    s' = s +:+ summary.
Proof.
  revert s w. induction classes as [|c classes IH]; intros s w; simpl.
  - intros H. apply ret_inr in H as [<- <-]. split; [done|].
    exists "". by rewrite string_app_nil_r.
  - intros H. apply bind_inr in H as (s1 & w1 & Hc & H).
    apply bind_inr in Hc as (name & w2 & Hname & Hc).
    apply index_inr in Hname as [Hname ->]. apply ret_inr in Hc as [<- <-].
    apply IH in H as [-> (tail & Htail & ->)]. split; [done|].
    rewrite Hname, Htail. eexists. split; [done|].
    by rewrite !string_app_assoc.
Qed.

Lemma size_lookup_pos (pred : gmap string tval) key v :
  pred !! key = Some v -> (0 <? size pred)%nat = true.
Proof.
  intros Hk. apply Nat.ltb_lt.
  destruct (decide (size pred = 0%nat)) as [Hz|]; [|lia].
  apply map_size_empty_iff in Hz. subst pred. by rewrite lookup_empty in Hk.
Qed.

(** One prediction that holds boxes, scores and labels. *)
Lemma overlay_pred_effect X args path tc st i pred b sc lb w st' w' :
  pred !! "boxes" = Some (TBoxes b) ->
  pred !! "scores" = Some (TFloats sc) ->
  pred !! "labels" = Some (TLongs lb) ->
  overlay_pred X args path tc st (i, Some pred) w = (inr st', w') ->
  exists summary,
    class_summary X (names args) lb (unique lb) = Some summary /\
    l_bound st' = Some (map round_box b, sc, lb) /\
    l_img st' = (if save_img args
                 then draw_detections X args (l_img st) (detections_of b sc lb)
                 else l_img st) /\
    texts w' = (if save_txt args
                then appended_all (txt_file_of args path)
                       (map (label_text X) (detections_of b sc lb)) (texts w)
                else texts w) /\
    stdout w' = stdout w ++
      [(if webcam args then pct_g X (F64.of_Z (Z.of_nat i)) +:+ ": " else "")
       +:+ summary +:+ "Done. (" +:+ pct_f X 3 tc +:+ "s)"] /\
    faults w' = faults w /\
    (if save_img args && String.eqb (mode args) "images"
     then exists m, l_img st' = Some m /\
            images w' = match faults w !! save_path_of args path with
                        | None => <[save_path_of args path := m]> (images w)
                        | Some _ => images w
                        end
     else images w' = images w).
Proof.
  intros Hb Hs Hl. unfold overlay_pred. rewrite (size_lookup_pos _ _ _ Hb).
  intros H.
  apply bind_inr in H as ([s1 st1] & w1 & Hbody & H).
  apply bind_inr in Hbody as (b0 & w2 & Hg1 & Hbody).
  apply getitem_inr in Hg1 as [Hg1 ->]. rewrite Hb in Hg1. injection Hg1 as <-.
  apply bind_inr in Hbody as (b1 & w2 & Ha1 & Hbody).
  apply ret_inr in Ha1 as [<- <-].
  apply bind_inr in Hbody as (s0 & w2 & Hg2 & Hbody).
  apply getitem_inr in Hg2 as [Hg2 ->]. rewrite Hs in Hg2. injection Hg2 as <-.
  apply bind_inr in Hbody as (sc1 & w2 & Ha2 & Hbody).
  apply ret_inr in Ha2 as [<- <-].
  apply bind_inr in Hbody as (l0 & w2 & Hg3 & Hbody).
  apply getitem_inr in Hg3 as [Hg3 ->]. rewrite Hl in Hg3. injection Hg3 as <-.
  apply bind_inr in Hbody as (lb1 & w2 & Ha3 & Hbody).
  apply ret_inr in Ha3 as [<- <-].
  apply bind_inr in Hbody as (s2 & w2 & Hsum & Hbody).
  apply summary_effect in Hsum as [-> (summary & Hsummary & ->)].
  apply bind_inr in Hbody as (img1 & w3 & Hdets & Hbody).
  apply overlay_detections_effect in Hdets as [Hdisk Himg].
  apply ret_inr in Hbody as [[= <- <-] <-].
  apply bind_inr in H as (u1 & w4 & Hprint & H).
  apply print_inr in Hprint.
  apply bind_inr in H as (u2 & w5 & Hwrite & H).
  apply ret_inr in H as [<- <-].
  unfold disk in Hdisk, Hprint. injection Hdisk as D1 D2 D3 D4.
  injection Hprint as P1 P2 P3 P4.
  exists summary. split; [done|]. split; [done|]. simpl.
  assert (Himg1 : img1 = (if save_img args
                 then draw_detections X args (l_img st) (detections_of b sc lb)
                 else l_img st)).
  { by destruct (save_img args). }
  split; [done|].
  unfold when in Hwrite.
  destruct (save_img args && String.eqb (mode args) "images") eqn:Hmode.
  - apply bind_inr in Hwrite as (ok & w6 & Hwrite & Hok).
    apply ret_inr in Hok as [_ <-].
    apply imwrite_inr in Hwrite as (m & Hm & Hw). simpl in Hm.
    unfold disk in Hw. injection Hw as W1 W2 W3 W4.
    rewrite W2, W3, W4, P2, P3, P4, D2, D3, D4, string_app_assoc.
    split; [done|]. split; [done|]. split; [done|].
    exists m. by rewrite W1, P1, P3, D1, D3.
  - apply ret_inr in Hwrite as [_ <-].
    rewrite P1, P2, P3, P4, D1, D2, D3, D4, string_app_assoc. done.
Qed.

Lemma appended_all_other file pieces (store : gmap string string) other :
  other <> file -> appended_all file pieces store !! other = store !! other.
Proof.
  intros Hne. unfold appended_all. revert store.
  induction pieces as [|p pieces IH]; intros store; simpl; [done|].
  rewrite IH. unfold appended. by rewrite lookup_insert_ne.
Qed.

Lemma appended_all_lookup file pieces (store : gmap string string) :
  pieces <> [] ->
  appended_all file pieces store !! file
  = Some (default "" (store !! file) +:+ foldr String.append "" pieces).
Proof.
  intros Hne. unfold appended_all. revert store.
  induction pieces as [|p pieces IH]; intros store; [done|]. simpl.
  destruct pieces as [|p' pieces].
  - simpl. unfold appended. by rewrite lookup_insert_eq, string_app_nil_r.
  - rewrite IH by done. unfold appended at 1.
    rewrite lookup_insert_eq. simpl. by rewrite string_app_assoc.
Qed.

Lemma appended_all_app file l1 l2 (store : gmap string string) :
  appended_all file (l1 ++ l2) store
  = appended_all file l2 (appended_all file l1 store).
Proof. unfold appended_all. apply foldl_app. Qed.

Lemma label_texts_foldr X dets :
  foldr String.append "" (map (label_text X) dets) = label_texts X dets.
Proof.
  unfold label_texts. induction dets as [|d dets IH]; simpl; [done|].
  by rewrite IH.
Qed.

(** [overlay_boxes] on the one prediction of an image. *)
Lemma overlay_boxes_single X pred path tc args b sc lb w r w' :
  pred !! "boxes" = Some (TBoxes b) ->
  pred !! "scores" = Some (TFloats sc) ->
  pred !! "labels" = Some (TLongs lb) ->
  overlay_boxes X [Some pred] path tc args w = (inr r, w') ->
  r = (map round_box b, sc, lb) /\
  texts w' = (if save_txt args
              then appended_all (txt_file_of args path)
                     (map (label_text X) (detections_of b sc lb)) (texts w)
              else texts w) /\
  faults w' = faults w /\
  (if save_img args && String.eqb (mode args) "images"
   then exists m,
          draw_detections X args (images w !! path) (detections_of b sc lb)
          = Some m /\
          images w' = match faults w !! save_path_of args path with
                      | None => <[save_path_of args path := m]> (images w)
                      | Some _ => images w
                      end
   else images w' = images w).
Proof.
  intros Hb Hs Hl. unfold overlay_boxes. intros H.
  apply bind_inr in H as (u & w1 & Hev & H). apply emit_inr in Hev as ->.
  apply bind_inr in H as (img & w2 & Hread & H).
  assert (Himg : img = (if save_img args then images w !! path else None)
                 /\ disk w2 = disk w).
  { destruct (save_img args).
    - apply imread_inr in Hread as [-> Hd]. done.
    - by apply ret_inr in Hread as [<- <-]. }
  clear Hread. destruct Himg as [-> Hd2].
  apply bind_inr in H as (st & w3 & Hloop & H).
  lazymatch type of Hloop with
  | foldM ?f _ ?s _ = _ =>
      change (bind (f s (0%nat, Some pred)) (fun s' => ret s') w2 = (inr st, w3))
        in Hloop
  end.
  apply bind_inr in Hloop as (st1 & w4 & Hpred & Hloop).
  apply ret_inr in Hloop as [<- <-].
  destruct (overlay_pred_effect _ _ _ _ _ _ _ _ _ _ _ _ _ Hb Hs Hl Hpred)
    as (summary & _ & Hbound & Himg & Htexts & _ & Hfaults & Himages).
  rewrite Hbound in H. apply bind_inr in H as (u2 & w5 & Hdone & H).
  apply emit_inr in Hdone as ->. apply ret_inr in H as [<- <-].
  unfold disk in Hd2. injection Hd2 as D1 D2 D3 D4. simpl in *.
  rewrite Htexts, Hfaults, D2, D3. split; [done|]. split; [done|].
  split; [done|].
  destruct (save_img args); simpl in *; [|by rewrite Himages, D1].
  destruct (String.eqb (mode args) "images"); [|by rewrite Himages, D1].
  destruct Himages as (m & Hm & Hw). exists m.
  rewrite Hw, D1, D3. split; [|done]. by rewrite <- Himg.
Qed.

(** [torch.round] of a finite number is a whole number. *)
Lemma round_whole (x : spec_float) :
  is_finite x = true -> whole (F32.round x).
Proof.
  assert (Hz : forall s, whole (S754_zero s)).
  { intros [|]; [right; by left|]. left. by exists 0. }
  destruct x as [s|s| |s m e]; simpl; try done; intros _.
  destruct (0 <=? e) eqn:He.
  - right; right. exists s, m, e. split; [done|]. lia.
  - match goal with |- context [if ?n =? 0 then _ else _] =>
      destruct (n =? 0) eqn:Hn; [apply Hz|]; set (k := n) in *
    end.
    left. exists (if s then - k else k). unfold F32.of_Z.
    assert (k <> 0) by lia. destruct s, k; done.
Qed.

(* ===================================================================== *)
(** ** Text files only grow *)
(* ===================================================================== *)

Lemma texts_grow_refl w w' : texts w' = texts w -> texts_grow w w'.
Proof.
  intros E file s Hs. exists "". by rewrite E, string_app_nil_r.
Qed.

Lemma texts_grow_trans w1 w2 w3 :
  texts_grow w1 w2 -> texts_grow w2 w3 -> texts_grow w1 w3.
Proof.
  intros H12 H23 file s Hs.
  destruct (H12 _ _ Hs) as [m1 H1]. destruct (H23 _ _ H1) as [m2 H2].
  exists (m1 +:+ m2). by rewrite H2, string_app_assoc.
Qed.

Lemma appends_only_ret {A} (a : A) : appends_only (ret a).
Proof. intros w. by apply texts_grow_refl. Qed.

Lemma appends_only_bind {A B} (m : M A) (k : A -> M B) :
  appends_only m -> (forall a, appends_only (k a)) -> appends_only (bind m k).
Proof.
  intros Hm Hk w. unfold bind. specialize (Hm w).
  destruct (m w) as [[e|a] w1]; simpl in *; [done|].
  eapply texts_grow_trans; [exact Hm|apply Hk].
Qed.

Lemma appends_only_emit ev : appends_only (emit ev).
Proof. intros w. by apply texts_grow_refl. Qed.

Lemma appends_only_raise {A} e : appends_only (@raise A e).
Proof. intros w. by apply texts_grow_refl. Qed.

Lemma appends_only_lift {A} (r : Exn + A) : appends_only (lift r).
Proof. destruct r; [apply appends_only_raise|apply appends_only_ret]. Qed.

Lemma appends_only_get {A} (f : World -> A) : appends_only (get f).
Proof. intros w. by apply texts_grow_refl. Qed.

Lemma appends_only_modify f :
  (forall w, texts_grow w (f w)) -> appends_only (modify f).
Proof. intros Hf w. apply Hf. Qed.

Lemma appends_only_foldM {A S} (f : S -> A -> M S) l s :
  (forall s x, appends_only (f s x)) -> appends_only (foldM f l s).
Proof.
  intros Hf. revert s. induction l as [|x l IH]; intros s; simpl.
  - apply appends_only_ret.
  - apply appends_only_bind; [apply Hf|]. intros s'. apply IH.
Qed.

Lemma appends_only_when b m : appends_only m -> appends_only (when b m).
Proof. intros Hm. destruct b; [done|apply appends_only_ret]. Qed.

Lemma appended_grows path line w :
  texts_grow w (set_texts (appended path line (texts w)) w).
Proof.
  intros file s Hs. simpl. unfold appended.
  destruct (decide (file = path)) as [->|Hne].
  - rewrite lookup_insert_eq, Hs. by exists line.
  - rewrite lookup_insert_ne by done. exists "". by rewrite string_app_nil_r.
Qed.

Lemma created_grows path w :
  texts_grow w
    match texts w !! path with
    | Some _ => w
    | None => set_texts (<[path := ""]> (texts w)) w
    end.
Proof.
  destruct (texts w !! path) eqn:Hp; [by apply texts_grow_refl|].
  intros file s Hs. simpl. exists "".
  rewrite lookup_insert_ne, string_app_nil_r; [done|]. congruence.
Qed.

Create HintDb appends discriminated.

(** Walks through a computation to show that it only appends. *)
Ltac app_only :=
  lazymatch goal with
  | |- appends_only (bind _ _) =>
      apply appends_only_bind; [app_only | intros; app_only]
  | |- appends_only (ret _) => apply appends_only_ret
  | |- appends_only (raise _) => apply appends_only_raise
  | |- appends_only (lift _) => apply appends_only_lift
  | |- appends_only (get _) => apply appends_only_get
  | |- appends_only (emit _) => apply appends_only_emit
  | |- appends_only (modify _) =>
      apply appends_only_modify; intros ?;
      first [ by apply texts_grow_refl | apply appended_grows
            | apply created_grows ]
  | |- appends_only (when _ _) => apply appends_only_when; app_only
  | |- appends_only (foldM _ _ _) => apply appends_only_foldM; intros; app_only
  | |- appends_only (if ?b then _ else _) => destruct b; app_only
  | |- appends_only (match ?x with Some _ => _ | None => _ end) =>
      destruct x; app_only
  | |- appends_only (match ?x with inl _ => _ | inr _ => _ end) =>
      destruct x; app_only
  | |- appends_only (match ?x with (_, _) => _ end) => destruct x; app_only
  | |- appends_only (match ?x with TBoxes _ => _ | _ => _ end) =>
      destruct x; app_only
  | |- appends_only (match ?x with [] => _ | _ :: _ => _ end) =>
      destruct x; app_only
  | |- appends_only _ => solve [auto with appends]
  end.

Section AppendsOnly.

Variable X : Ext.

Lemma print_appends line : appends_only (print line).
Proof. unfold print. app_only. Qed.

Lemma imread_appends path : appends_only (imread path).
Proof. unfold imread. app_only. Qed.

Lemma imwrite_appends path img : appends_only (imwrite path img).
Proof. unfold imwrite. app_only. Qed.

Lemma open_append_appends path : appends_only (open_append path).
Proof. unfold open_append. app_only. Qed.

Lemma write_appends path line : appends_only (write path line).
Proof. unfold write. app_only. Qed.

Lemma open_read_appends path : appends_only (open_read path).
Proof. unfold open_read. app_only. Qed.

Lemma mkdir_appends dir : appends_only (mkdir dir).
Proof. unfold mkdir. app_only. Qed.

Lemma time_time_appends : appends_only (time_time X).
Proof. unfold time_time. app_only. Qed.

Lemma random_randint_appends : appends_only (random_randint X).
Proof. unfold random_randint. app_only. Qed.

Hint Resolve print_appends imread_appends imwrite_appends open_append_appends
  write_appends open_read_appends mkdir_appends time_time_appends
  random_randint_appends : appends.

Lemma label_line_appends l : appends_only (label_line X l).
Proof. unfold label_line. do 6 (destruct l as [|? l]; [app_only|]). app_only. Qed.

Lemma index_appends {A} what (l : list A) c : appends_only (index what l c).
Proof. unfold index. app_only. Qed.

Lemma getitem_appends pred key : appends_only (getitem pred key).
Proof. unfold getitem. app_only. Qed.

Hint Resolve label_line_appends index_appends getitem_appends : appends.

Lemma overlay_boxes_appends detections path tc args :
  appends_only (overlay_boxes X detections path tc args).
Proof.
  unfold overlay_boxes, overlay_pred, overlay_detection, as_boxes, as_floats,
    as_longs.
  app_only.
Qed.

Lemma inference_appends model p device is_half :
  appends_only (inference X model p device is_half).
Proof.
  unfold inference, read_image, time_synchronized, model_call. app_only.
Qed.

Hint Resolve overlay_boxes_appends inference_appends : appends.

Lemma main_appends args : appends_only (main X args).
Proof.
  unfold main, yolov5, LoadImages, load_names, random_colors, images_loop,
    process_image, model_call.
  cbv zeta. app_only.
Qed.

Hint Resolve main_appends : appends.

Lemma script_appends argv : appends_only (script X argv).
Proof. unfold script, parse_args. app_only. Qed.

End AppendsOnly.

Lemma foldr_append_app (l1 l2 : list string) :
  foldr String.append "" (l1 ++ l2)
  = foldr String.append "" l1 +:+ foldr String.append "" l2.
Proof.
  induction l1 as [|s l1 IH]; simpl; [done|].
  by rewrite IH, string_app_assoc.
Qed.

(** C9.  Label files are only ever appended to.  When [overlay_boxes] runs
    twice for the same image and prediction with [save_txt] set, the label
    file holds after the first run its old content followed by the lines of
    the detections, and after the second run the same followed by those
    lines once more.  And in every run of the whole script, every text file
    that exists at the start still exists at the end, with its old content
    at the beginning of the new one: nothing is truncated or overwritten. *)
Theorem label_files_are_appended (X : Ext) (pred : gmap string tval)
    (path : string) (tc : spec_float) (args : Args) (b : list box)
    (sc : list spec_float) (lb : list Z) (w : World) :
  pred !! "boxes" = Some (TBoxes b) ->
  pred !! "scores" = Some (TFloats sc) ->
  pred !! "labels" = Some (TLongs lb) ->
  save_txt args = true ->
  returned (overlay_boxes X [Some pred] path tc args w).1 = true ->
  returned (overlay_boxes X [Some pred] path tc args
              (overlay_boxes X [Some pred] path tc args w).2).1 = true ->
  texts (overlay_boxes X [Some pred] path tc args w).2
  = appended_all (txt_file_of args path)
      (map (label_text X) (detections_of b sc lb)) (texts w) /\
  texts (overlay_boxes X [Some pred] path tc args
           (overlay_boxes X [Some pred] path tc args w).2).2
  = appended_all (txt_file_of args path)
      (map (label_text X) (detections_of b sc lb)
       ++ map (label_text X) (detections_of b sc lb)) (texts w) /\
  (detections_of b sc lb <> [] ->
   texts (overlay_boxes X [Some pred] path tc args
            (overlay_boxes X [Some pred] path tc args w).2).2
     !! txt_file_of args path
   = Some (default "" (texts w !! txt_file_of args path)
           +:+ label_texts X (detections_of b sc lb)
           +:+ label_texts X (detections_of b sc lb))) /\
  (forall argv w0, texts_grow w0 (script X argv w0).2).
Proof.
  intros Hb Hs Hl Htxt Hr1 Hr2.
  destruct (overlay_boxes X [Some pred] path tc args w)
    as [[e1|r1] w1] eqn:Hrun1; [done|]. simpl in *.
  destruct (overlay_boxes X [Some pred] path tc args w1)
    as [[e2|r2] w2] eqn:Hrun2; [done|]. simpl in *.
  destruct (overlay_boxes_single _ _ _ _ _ _ _ _ _ _ _ Hb Hs Hl Hrun1)
    as (_ & Ht1 & _ & _).
  destruct (overlay_boxes_single _ _ _ _ _ _ _ _ _ _ _ Hb Hs Hl Hrun2)
    as (_ & Ht2 & _ & _).
  rewrite Htxt in Ht1, Ht2.
  assert (Hboth : texts w2 = appended_all (txt_file_of args path)
      (map (label_text X) (detections_of b sc lb)
       ++ map (label_text X) (detections_of b sc lb)) (texts w)).
  { by rewrite appended_all_app, <- Ht1. }
  split; [done|]. split; [done|]. split.
  - intros Hne. rewrite Hboth, appended_all_lookup, foldr_append_app,
      label_texts_foldr; [done|].
    by destruct (detections_of b sc lb).
  - intros argv w0. apply script_appends.
Qed.

Lemma label_files_are_appended_witness :
  texts (overlay_boxes Demo.ext [Some (Demo.pred_of 2)] "imgs/a.jpg"
           (F64.of_Z 1) Demo.main_args
           (overlay_boxes Demo.ext [Some (Demo.pred_of 2)] "imgs/a.jpg"
              (F64.of_Z 1) Demo.main_args Demo.disk).2).2
    !! "out/a.txt"
  = Some ("1 20 50 20 60 " +:+ String "010" (
          "0 2.5 2 5 4 " +:+ String "010" (
          "1 20 50 20 60 " +:+ String "010" (
          "0 2.5 2 5 4 " +:+ String "010" "")))).
Proof.
  refine (proj1 (proj2 (proj2
    (label_files_are_appended Demo.ext (Demo.pred_of 2) "imgs/a.jpg"
       (F64.of_Z 1) Demo.main_args Demo.two_boxes Demo.two_scores
       Demo.two_labels Demo.disk _ _ _ _ _ _))) _).
  - reflexivity.
  - reflexivity.
  - reflexivity.
  - reflexivity.
  - vm_compute. reflexivity.
  - vm_compute. reflexivity.
  - vm_compute. discriminate.
Defined.

(** The whole script run twice on the demo disk: the label file of
    [imgs/a.jpg] holds the two lines of the first run and then the same two
    lines again. *)
Example script_twice_duplicates_lines :
  texts (script Demo.ext Demo.argv Demo.disk).2 !! "out/a.txt"
  = Some ("1 20 50 20 60 " +:+ String "010" (
          "0 2.5 2 5 4 " +:+ String "010" "")) /\
  texts (script Demo.ext Demo.argv (script Demo.ext Demo.argv Demo.disk).2).2
    !! "out/a.txt"
  = Some ("1 20 50 20 60 " +:+ String "010" (
          "0 2.5 2 5 4 " +:+ String "010" (
          "1 20 50 20 60 " +:+ String "010" (
          "0 2.5 2 5 4 " +:+ String "010" "")))).
Proof. split; vm_compute; reflexivity. Qed.

(* ===================================================================== *)
(** ** What is saved for an image *)
(* ===================================================================== *)

(** Two runs of the script on the demo disk with [--save_txt --save_img].
    Over the directory, [imgs/b.jpg] (no object) is processed and its
    annotated copy is written, but no label file [out/b.txt] comes to
    exist.  Over the video source, whose dataset mode is not ['images'],
    [imgs/a.jpg] is processed and its label file is written, but no image
    [out/a.jpg] is. *)
Lemma saved_results_counterexample :
  ((script Demo.ext Demo.argv Demo.disk).1 = inr tt /\
   (exists m, images (script Demo.ext Demo.argv Demo.disk).2 !! "out/b.jpg"
              = Some m) /\
   texts (script Demo.ext Demo.argv Demo.disk).2 !! "out/b.txt" = None) /\
  ((script Demo.ext Demo.video_argv Demo.disk).1 = inr tt /\
   (exists s, texts (script Demo.ext Demo.video_argv Demo.disk).2
                !! "out/a.txt" = Some s) /\
   images (script Demo.ext Demo.video_argv Demo.disk).2 !! "out/a.jpg" = None).
Proof.
  split; (split; [vm_compute; reflexivity|]);
    (split; [vm_compute; eexists; reflexivity|vm_compute; reflexivity]).
Qed.

(** C2, amended.  When [overlay_boxes] returns on the one prediction of an
    image: with [save_img] set and the dataset's mode ['images'], the image
    read from the input path, with the box of every detection drawn on it,
    is written to the output directory under the image's file name (where
    OpenCV can write the file: the result of [cv2.imwrite] is not looked
    at), and otherwise no image file is written or changed; with [save_txt]
    set, one
    line per detection is appended to the label file named after the
    image's stem in the output directory (so the file comes to exist only
    when there is a detection), and otherwise no text file changes.  This
    holds whatever [webcam] is. *)
Theorem overlay_boxes_saves_results (X : Ext) (pred : gmap string tval)
    (path : string) (tc : spec_float) (args : Args) (b : list box)
    (sc : list spec_float) (lb : list Z) (w : World) :
  pred !! "boxes" = Some (TBoxes b) ->
  pred !! "scores" = Some (TFloats sc) ->
  pred !! "labels" = Some (TLongs lb) ->
  returned (overlay_boxes X [Some pred] path tc args w).1 = true ->
  (if save_img args && String.eqb (mode args) "images"
   then exists m,
          draw_detections X args (images w !! path) (detections_of b sc lb)
          = Some m /\
          (faults w !! save_path_of args path = None ->
           images (overlay_boxes X [Some pred] path tc args w).2
           = <[save_path_of args path := m]> (images w))
   else images (overlay_boxes X [Some pred] path tc args w).2 = images w) /\
  (if save_txt args
   then texts (overlay_boxes X [Some pred] path tc args w).2
        = appended_all (txt_file_of args path)
            (map (label_text X) (detections_of b sc lb)) (texts w)
   else texts (overlay_boxes X [Some pred] path tc args w).2 = texts w) /\
  (save_txt args = true -> detections_of b sc lb <> [] ->
   texts (overlay_boxes X [Some pred] path tc args w).2
     !! txt_file_of args path
   = Some (default "" (texts w !! txt_file_of args path)
           +:+ label_texts X (detections_of b sc lb))) /\
  (detections_of b sc lb = [] ->
   texts (overlay_boxes X [Some pred] path tc args w).2 = texts w) /\
  (forall other, other <> txt_file_of args path ->
   texts (overlay_boxes X [Some pred] path tc args w).2 !! other
   = texts w !! other).
Proof.
  intros Hb Hs Hl Hr.
  destruct (overlay_boxes X [Some pred] path tc args w)
    as [[e|r] w'] eqn:Hrun; [done|]. simpl.
  destruct (overlay_boxes_single _ _ _ _ _ _ _ _ _ _ _ Hb Hs Hl Hrun)
    as (_ & Ht & _ & Hi).
  split.
  { destruct (save_img args && String.eqb (mode args) "images"); [|done].
    destruct Hi as (m & Hm & Hw). exists m. split; [done|].
    intros Hf. by rewrite Hw, Hf. }
  split; [by destruct (save_txt args)|]. split.
  { intros Htxt Hne.
    rewrite Ht, Htxt, appended_all_lookup, label_texts_foldr; [done|].
    by destruct (detections_of b sc lb). }
  split.
  - intros Hnil. rewrite Ht, Hnil. by destruct (save_txt args).
  - intros other Hne. rewrite Ht.
    destruct (save_txt args); [by apply appended_all_other|done].
Qed.

Lemma overlay_boxes_saves_results_witness :
  (exists m, images (overlay_boxes Demo.ext [Some (Demo.pred_of 2)]
                       "imgs/a.jpg" (F64.of_Z 1) Demo.main_args Demo.disk).2
               !! "out/a.jpg" = Some m) /\
  texts (overlay_boxes Demo.ext [Some (Demo.pred_of 2)] "imgs/a.jpg"
           (F64.of_Z 1) Demo.main_args Demo.disk).2 !! "out/a.txt"
  = Some ("1 20 50 20 60 " +:+ String "010" (
          "0 2.5 2 5 4 " +:+ String "010" "")).
Proof.
  pose proof (overlay_boxes_saves_results Demo.ext (Demo.pred_of 2)
    "imgs/a.jpg" (F64.of_Z 1) Demo.main_args Demo.two_boxes Demo.two_scores
    Demo.two_labels Demo.disk eq_refl eq_refl eq_refl) as H.
  destruct H as (Himg & _ & Htxt & _); [vm_compute; reflexivity|].
  split.
  - destruct Himg as (m & _ & Hw). exists m.
    rewrite Hw by reflexivity. apply lookup_insert_eq.
  - apply Htxt; [reflexivity|vm_compute; discriminate].
Defined.

(* ===================================================================== *)
(** ** When [overlay_boxes] returns *)
(* ===================================================================== *)

(** The last prediction is [None], and [overlay_boxes] returns all the
    same, with what the first prediction bound.  And on a prediction that
    holds no detection at all (three empty tensors) it returns three empty
    lists. *)
Lemma blank_last_counterexample :
  last [Some (Demo.pred_of 2); None] = Some None /\
  (overlay_boxes Demo.ext [Some (Demo.pred_of 2); None] "imgs/a.jpg"
     (F64.of_Z 1) Demo.main_args Demo.disk).1
  = inr (map round_box Demo.two_boxes, Demo.two_scores, Demo.two_labels) /\
  (overlay_boxes Demo.ext [Some (Demo.pred_of 0)] "imgs/b.jpg"
     (F64.of_Z 1) Demo.main_args Demo.disk).1
  = inr ([], [], []).
Proof. split; [reflexivity|]. split; vm_compute; reflexivity. Qed.

Lemma overlay_pred_blank X args path tc st i pred w st' w' :
  blank pred ->
  overlay_pred X args path tc st (i, pred) w = (inr st', w') -> st' = st.
Proof.
  intros Hb. unfold overlay_pred.
  assert (Hbody :
    match pred with
    | Some p => (0 <? size p)%nat = false
    | None => True
    end).
  { destruct pred as [p|]; [|done]. simpl in Hb. rewrite Hb. done. }
  intros H. apply bind_inr in H as ([s1 st1] & w1 & Hbody1 & H).
  assert (st1 = st) as ->.
  { destruct pred as [p|].
    - rewrite Hbody in Hbody1. by apply ret_inr in Hbody1 as [[= _ <-] _].
    - by apply ret_inr in Hbody1 as [[= _ <-] _]. }
  apply bind_inr in H as (u1 & w2 & _ & H).
  apply bind_inr in H as (u2 & w3 & _ & H).
  by apply ret_inr in H as [<- _].
Qed.

Lemma overlay_preds_blank X args path tc l st w st' w' :
  Forall (fun ip => blank ip.2) l ->
  foldM (overlay_pred X args path tc) l st w = (inr st', w') -> st' = st.
Proof.
  revert st w. induction l as [|[i pred] l IH]; intros st w Hl; simpl.
  - by intros [= -> _].
  - intros H. apply bind_inr in H as (st1 & w1 & Hp & H).
    apply Forall_cons in Hl as [Hb Hl].
    apply overlay_pred_blank in Hp as ->; [|done]. by apply (IH _ _ Hl) in H.
Qed.

(** Without [save_img], the loop body on a blank prediction only prints. *)
Lemma overlay_pred_blank_runs X args path tc st i pred w :
  blank pred -> save_img args = false ->
  exists w', overlay_pred X args path tc st (i, pred) w = (inr st, w').
Proof.
  intros Hb Himg. unfold overlay_pred, print, when, bind, emit, modify, ret.
  rewrite Himg. destruct pred as [p|]; simpl in *.
  - rewrite Hb. simpl. eexists. reflexivity.
  - eexists. reflexivity.
Qed.

Lemma overlay_preds_blank_run X args path tc l st w :
  Forall (fun ip => blank ip.2) l -> save_img args = false ->
  exists w', foldM (overlay_pred X args path tc) l st w = (inr st, w').
Proof.
  intros Hl Himg. revert w.
  induction l as [|[i pred] l IH]; intros w; cbn [foldM].
  - eexists. reflexivity.
  - apply Forall_cons in Hl as [Hb Hl].
    destruct (overlay_pred_blank_runs X args path tc st i pred w Hb Himg)
      as [w1 H1].
    destruct (IH Hl w1) as [w2 H2].
    exists w2. unfold bind. by rewrite H1.
Qed.

Lemma Forall_blank_zip (dets : list Detection) :
  Forall blank dets ->
  Forall (fun ip : nat * Detection => blank ip.2)
    (zip (seq 0 (length dets)) dets).
Proof.
  intros H. apply Forall_forall. intros [i p] Hin.
  apply elem_of_zip_r in Hin. simpl.
  by apply (proj1 (Forall_forall _ _) H).
Qed.

(** C8, amended.  When every prediction in [detections] is [None] or an
    empty dict (as when the list is empty), [overlay_boxes] does not
    return: [boxes] is never bound.  Without [save_img] nothing else can
    go wrong first, and what is raised is the unbound-variable error. *)
Theorem overlay_boxes_needs_a_prediction (X : Ext)
    (detections : list Detection) (path : string) (tc : spec_float)
    (args : Args) (w : World) :
  Forall blank detections ->
  returned (overlay_boxes X detections path tc args w).1 = false /\
  (save_img args = false ->
   (overlay_boxes X detections path tc args w).1
   = inl (UnboundLocalError "boxes")).
Proof.
  intros Hblank. apply Forall_blank_zip in Hblank. split.
  - destruct (overlay_boxes X detections path tc args w)
      as [[e|r] w'] eqn:Hrun; [done|]. exfalso.
    unfold overlay_boxes in Hrun.
    apply bind_inr in Hrun as (u & w1 & _ & H).
    apply bind_inr in H as (img & w2 & _ & H).
    apply bind_inr in H as (st & w3 & Hloop & H).
    apply (overlay_preds_blank _ _ _ _ _ _ _ _ _ Hblank) in Hloop as ->.
    simpl in H. by apply raise_inr in H.
  - intros Himg. unfold overlay_boxes. rewrite Himg.
    destruct (overlay_preds_blank_run X args path tc _
                {| l_img := None; l_bound := None |} (log (EOverlay path) w)
                Hblank Himg) as [w' Hloop].
    unfold bind at 1 2 3. simpl. unfold ret at 1. rewrite Hloop. done.
Qed.

Lemma overlay_boxes_needs_a_prediction_witness :
  (overlay_boxes Demo.ext [None; Some ∅] "imgs/a.jpg" (F64.of_Z 1)
     Demo.quiet_args Demo.disk).1
  = inl (UnboundLocalError "boxes").
Proof.
  refine (proj2 (overlay_boxes_needs_a_prediction Demo.ext [None; Some ∅]
                   "imgs/a.jpg" (F64.of_Z 1) Demo.quiet_args Demo.disk _) _).
  - repeat constructor.
  - reflexivity.
Defined.

(* ===================================================================== *)
(** ** What the functions leave alone *)
(* ===================================================================== *)

Section Keeps.

Context {T : Type} (f : World -> T).
Hypothesis f_log : forall ev w, f (log ev w) = f w.

Lemma keeps_ret {A} (a : A) : keeps f (ret a).
Proof. done. Qed.

Lemma keeps_bind {A B} (m : M A) (k : A -> M B) :
  keeps f m -> (forall a, keeps f (k a)) -> keeps f (bind m k).
Proof.
  intros Hm Hk w. unfold bind. specialize (Hm w).
  destruct (m w) as [[e|a] w1]; simpl in *; [done|].
  by rewrite Hk.
Qed.

Lemma keeps_emit ev : keeps f (emit ev).
Proof. intros w. apply f_log. Qed.

Lemma keeps_raise {A} e : keeps f (@raise A e).
Proof. intros w. apply f_log. Qed.

Lemma keeps_lift {A} (r : Exn + A) : keeps f (lift r).
Proof. destruct r; [apply keeps_raise|apply keeps_ret]. Qed.

Lemma keeps_get {A} (g : World -> A) : keeps f (get g).
Proof. done. Qed.

Lemma keeps_modify g : (forall w, f (g w) = f w) -> keeps f (modify g).
Proof. intros Hg w. apply Hg. Qed.

Lemma keeps_foldM {A S} (body : S -> A -> M S) l s :
  (forall s x, keeps f (body s x)) -> keeps f (foldM body l s).
Proof.
  intros Hb. revert s. induction l as [|x l IH]; intros s; simpl.
  - apply keeps_ret.
  - apply keeps_bind; [apply Hb|]. intros s'. apply IH.
Qed.

Lemma keeps_when b m : keeps f m -> keeps f (when b m).
Proof. intros Hm. destruct b; [done|apply keeps_ret]. Qed.

End Keeps.

Create HintDb keeps discriminated.

(** Walks through a computation to show that it keeps a part of the world;
    what is left over are the writes to that part. *)
Ltac kp :=
  lazymatch goal with
  | |- keeps _ (bind _ _) => apply keeps_bind; [kp | intros; kp]
  | |- keeps _ (ret _) => apply keeps_ret
  | |- keeps _ (raise _) => apply keeps_raise; done
  | |- keeps _ (lift _) => apply keeps_lift; done
  | |- keeps _ (get _) => apply keeps_get
  | |- keeps _ (emit _) => apply keeps_emit; done
  | |- keeps _ (modify _) =>
      apply keeps_modify; intros ?; simpl; repeat case_match; reflexivity
  | |- keeps _ (when _ _) => apply keeps_when; kp
  | |- keeps _ (foldM _ _ _) => apply keeps_foldM; intros; kp
  | |- keeps _ (if ?b then _ else _) => destruct b; kp
  | |- keeps _ (match ?x with Some _ => _ | None => _ end) => destruct x; kp
  | |- keeps _ (match ?x with inl _ => _ | inr _ => _ end) => destruct x; kp
  | |- keeps _ (match ?x with (_, _) => _ end) => destruct x; kp
  | |- keeps _ (match ?x with TBoxes _ => _ | _ => _ end) => destruct x; kp
  | |- keeps _ (match ?x with [] => _ | _ :: _ => _ end) => destruct x; kp
  | |- keeps _ _ => solve [auto with keeps]
  end.

Lemma label_line_keeps {T} (f : World -> T) X l :
  (forall ev w, f (log ev w) = f w) -> keeps f (label_line X l).
Proof.
  intros Hf. unfold label_line. do 6 (destruct l as [|? l]; [kp|]). kp.
Qed.

#[global] Hint Extern 1 (keeps _ (label_line _ _)) =>
  apply label_line_keeps; done : keeps.

Section KeepsDisk.

Variable X : Ext.

(** X1.  [load_names], [read_image] and [inference] only read: whether they
    return or raise, they leave every image file, every text file and the
    standard output as they were. *)
Theorem inference_only_reads (model : Model) (path : string)
    (device : Device) (is_half : bool) :
  keeps disk (load_names path) /\
  keeps disk (read_image path is_half) /\
  keeps disk (inference X model path device is_half).
Proof.
  unfold load_names, open_read, inference, read_image, imread,
    time_synchronized, time_time, model_call.
  repeat split; kp.
Qed.

Lemma overlay_boxes_keeps_images detections path tc args :
  save_img args = false ->
  keeps images (overlay_boxes X detections path tc args).
Proof.
  intros Himg.
  unfold overlay_boxes, overlay_pred, overlay_detection, as_boxes, as_floats,
    as_longs, getitem, index, print, open_append, write.
  rewrite Himg. cbn [andb when]. cbv beta iota.
  kp.
Qed.

Lemma overlay_boxes_keeps_texts detections path tc args :
  save_txt args = false ->
  keeps texts (overlay_boxes X detections path tc args).
Proof.
  intros Htxt.
  unfold overlay_boxes, overlay_pred, overlay_detection, as_boxes, as_floats,
    as_longs, getitem, index, print, imread, imwrite.
  rewrite Htxt. cbv beta iota.
  kp.
Qed.

Lemma inference_keeps_disk model path device is_half :
  keeps disk (inference X model path device is_half).
Proof.
  unfold inference, read_image, imread, time_synchronized, time_time,
    model_call.
  kp.
Qed.

Lemma keeps_disk_images {A} (m : M A) : keeps disk m -> keeps images m.
Proof. intros H w. specialize (H w). unfold disk in H. congruence. Qed.

Lemma keeps_disk_texts {A} (m : M A) : keeps disk m -> keeps texts m.
Proof. intros H w. specialize (H w). unfold disk in H. congruence. Qed.

Lemma keeps_after_parse {T} (f : World -> T) {A B} ev (r : Exn + A)
    (k : A -> M B) :
  (forall ev w, f (log ev w) = f w) ->
  (forall a, r = inr a -> keeps f (k a)) ->
  keeps f (bind (bind (emit ev) (fun _ => lift r)) k).
Proof.
  intros Hf Hk. destruct r as [e|a]; intros w.
  - unfold bind, emit, lift, raise. simpl. by rewrite !Hf.
  - unfold bind, emit, lift, ret. simpl. rewrite (Hk a eq_refl). apply Hf.
Qed.

End KeepsDisk.

#[global] Hint Extern 1 (keeps images (inference _ _ _ _ _)) =>
  apply keeps_disk_images, inference_keeps_disk : keeps.
#[global] Hint Extern 1 (keeps texts (inference _ _ _ _ _)) =>
  apply keeps_disk_texts, inference_keeps_disk : keeps.
#[global] Hint Extern 1 (keeps images (overlay_boxes _ _ _ _ _)) =>
  apply overlay_boxes_keeps_images; simpl; done : keeps.
#[global] Hint Extern 1 (keeps texts (overlay_boxes _ _ _ _ _)) =>
  apply overlay_boxes_keeps_texts; simpl; done : keeps.

Section KeepsMain.

Variable X : Ext.

Lemma main_keeps_images args :
  save_img args = false -> keeps images (main X args).
Proof.
  intros Himg.
  unfold main, yolov5, LoadImages, load_names, open_read, random_colors,
    random_randint, images_loop, process_image, model_call, time_time, print.
  cbv zeta. kp.
Qed.

Lemma main_keeps_texts args :
  save_txt args = false -> keeps texts (main X args).
Proof.
  intros Htxt.
  unfold main, yolov5, LoadImages, load_names, open_read, random_colors,
    random_randint, images_loop, process_image, model_call, time_time, print.
  cbv zeta. kp.
Qed.

(** X2.  Without [--save_img] the script leaves the image files alone: in every
    run, returning or raising, no image file is written, changed or
    removed. *)
Theorem script_keeps_images (argv : list string) :
  (forall args, argparse X argv = inr args -> save_img args = false) ->
  keeps images (script X argv).
Proof.
  intros Hargs. unfold script, parse_args.
  apply keeps_after_parse; [done|]. intros args Ha.
  apply keeps_bind; [unfold mkdir; kp|]. intros _.
  apply main_keeps_images. by apply Hargs.
Qed.

(** X3.  Without [--save_txt] the script leaves the text files alone: in every
    run, returning or raising, no label file is created or added to. *)
Theorem script_keeps_texts (argv : list string) :
  (forall args, argparse X argv = inr args -> save_txt args = false) ->
  keeps texts (script X argv).
Proof.
  intros Hargs. unfold script, parse_args.
  apply keeps_after_parse; [done|]. intros args Ha.
  apply keeps_bind; [unfold mkdir; kp|]. intros _.
  apply main_keeps_texts. by apply Hargs.
Qed.

End KeepsMain.

Lemma script_keeps_images_witness :
  images (script Demo.ext quiet_argv Demo.disk).2 = images Demo.disk.
Proof.
  apply (script_keeps_images Demo.ext quiet_argv).
  intros args Ha. injection Ha as <-. reflexivity.
Defined.

Lemma script_keeps_texts_witness :
  texts (script Demo.ext quiet_argv Demo.disk).2 = texts Demo.disk.
Proof.
  apply (script_keeps_texts Demo.ext quiet_argv).
  intros args Ha. injection Ha as <-. reflexivity.
Defined.

(* ===================================================================== *)
(** ** What [overlay_boxes] returns *)
(* ===================================================================== *)

Lemma as_boxes_inr v w b w' :
  as_boxes v w = (inr b, w') -> v = TBoxes b /\ w' = w.
Proof. destruct v; simpl; intros H; inv_run H; done. Qed.

Lemma as_floats_inr v w s w' :
  as_floats v w = (inr s, w') -> v = TFloats s /\ w' = w.
Proof. destruct v; simpl; intros H; inv_run H; done. Qed.

Lemma as_longs_inr v w l w' :
  as_longs v w = (inr l, w') -> v = TLongs l /\ w' = w.
Proof. destruct v; simpl; intros H; inv_run H; done. Qed.

(** A prediction that is not passed over and on which the loop body returns
    holds the three tensors. *)
Lemma overlay_pred_typed X args path tc st i d w st' w' :
  size d <> 0%nat ->
  overlay_pred X args path tc st (i, Some d) w = (inr st', w') ->
  exists b sc lb,
    d !! "boxes" = Some (TBoxes b) /\
    d !! "scores" = Some (TFloats sc) /\
    d !! "labels" = Some (TLongs lb).
Proof.
  intros Hsize. unfold overlay_pred.
  assert ((0 <? size d)%nat = true) as -> by (apply Nat.ltb_lt; lia).
  intros H. apply bind_inr in H as ([s1 st1] & w1 & Hbody & _).
  apply bind_inr in Hbody as (v1 & w2 & Hg1 & Hbody).
  apply getitem_inr in Hg1 as [Hg1 ->].
  apply bind_inr in Hbody as (b & w2 & Ha1 & Hbody).
  apply as_boxes_inr in Ha1 as [-> ->].
  apply bind_inr in Hbody as (v2 & w2 & Hg2 & Hbody).
  apply getitem_inr in Hg2 as [Hg2 ->].
  apply bind_inr in Hbody as (sc & w2 & Ha2 & Hbody).
  apply as_floats_inr in Ha2 as [-> ->].
  apply bind_inr in Hbody as (v3 & w2 & Hg3 & Hbody).
  apply getitem_inr in Hg3 as [Hg3 ->].
  apply bind_inr in Hbody as (lb & w2 & Ha3 & Hbody).
  apply as_longs_inr in Ha3 as [-> ->].
  by exists b, sc, lb.
Qed.

Lemma overlay_pred_bound X args path tc st i pred w st' w' :
  overlay_pred X args path tc st (i, pred) w = (inr st', w') ->
  l_bound st' = if decide (blank pred) then l_bound st else bound_by pred.
Proof.
  intros H. destruct (decide (blank pred)) as [Hb|Hb].
  - by apply overlay_pred_blank in H as ->.
  - destruct pred as [d|]; [|by destruct Hb]. simpl in Hb.
    destruct (overlay_pred_typed _ _ _ _ _ _ _ _ _ _ Hb H)
      as (b & sc & lb & Hk1 & Hk2 & Hk3).
    destruct (overlay_pred_effect _ _ _ _ _ _ _ _ _ _ _ _ _ Hk1 Hk2 Hk3 H)
      as (_ & _ & Hbound & _).
    rewrite Hbound. simpl. by rewrite Hk1, Hk2, Hk3.
Qed.

Lemma overlay_preds_bound X args path tc l st w st' w' :
  foldM (overlay_pred X args path tc) l st w = (inr st', w') ->
  l_bound st'
  = foldl (fun acc pred => if decide (blank pred) then acc else bound_by pred)
      (l_bound st) (l.*2).
Proof.
  revert st w. induction l as [|[i pred] l IH]; intros st w; cbn [foldM].
  - by intros [= -> _].
  - intros H. apply bind_inr in H as (st1 & w1 & Hp & H).
    apply overlay_pred_bound in Hp. apply IH in H.
    rewrite H. simpl. by rewrite Hp.
Qed.

(** X4.  When [overlay_boxes] returns, what it returns are the rounded boxes,
    the scores and the labels of the last prediction in [detections] that
    is neither [None] nor an empty dict, also when predictions that are
    passed over come after it. *)
Theorem overlay_boxes_returns_last_bound (X : Ext)
    (detections : list Detection) (path : string) (tc : spec_float)
    (args : Args) (w : World) (r : list box * list spec_float * list Z) :
  (overlay_boxes X detections path tc args w).1 = inr r ->
  last_bound detections = Some r.
Proof.
  destruct (overlay_boxes X detections path tc args w) as [res w'] eqn:Hrun.
  simpl. intros ->. unfold overlay_boxes in Hrun.
  apply bind_inr in Hrun as (u & w1 & _ & H).
  apply bind_inr in H as (img & w2 & _ & H).
  apply bind_inr in H as (st & w3 & Hloop & H).
  apply overlay_preds_bound in Hloop. simpl in Hloop.
  rewrite snd_zip in Hloop by (rewrite length_seq; lia).
  unfold last_bound. rewrite <- Hloop.
  destruct (l_bound st) as [r'|]; [|by apply raise_inr in H].
  apply bind_inr in H as (u2 & w4 & _ & H). by apply ret_inr in H as [-> _].
Qed.

Lemma overlay_boxes_returns_last_bound_witness :
  last_bound [Some (Demo.pred_of 0); Some (Demo.pred_of 2); None; Some ∅]
  = Some (map round_box Demo.two_boxes, Demo.two_scores, Demo.two_labels).
Proof.
  apply (overlay_boxes_returns_last_bound Demo.ext _ "imgs/a.jpg"
           (F64.of_Z 1) Demo.main_args Demo.disk).
  vm_compute. reflexivity.
Defined.

(* ===================================================================== *)
(** ** Predictions the loop body cannot handle *)
(* ===================================================================== *)

Lemma bind_ret_l {A B} (a : A) (k : A -> M B) : bind (ret a) k = k a.
Proof. reflexivity. Qed.

Lemma bind_fail {A B} (m : M A) (k : A -> M B) w e w1 :
  m w = (inl e, w1) -> bind m k w = (inl e, w1).
Proof. intros H. unfold bind. by rewrite H. Qed.

Lemma bind_run {A B} (m : M A) (k : A -> M B) w a w1 :
  m w = (inr a, w1) -> bind m k w = k a w1.
Proof. intros H. unfold bind. by rewrite H. Qed.

Lemma getitem_some pred key v : pred !! key = Some v -> getitem pred key = ret v.
Proof. intros H. unfold getitem. by rewrite H. Qed.

Lemma getitem_none pred key :
  pred !! key = None -> getitem pred key = raise (KeyError key).
Proof. intros H. unfold getitem. by rewrite H. Qed.

Lemma elem_of_insert_unique x y l :
  y ∈ insert_unique x l <-> y = x \/ y ∈ l.
Proof.
  induction l as [|z l IH]; simpl.
  - rewrite list_elem_of_singleton, elem_of_nil. tauto.
  - destruct (x <? z) eqn:Hlt; [apply elem_of_cons|].
    destruct (x =? z) eqn:Heq.
    + apply Z.eqb_eq in Heq as ->. rewrite elem_of_cons. tauto.
    + rewrite !elem_of_cons, IH. tauto.
Qed.

Lemma elem_of_unique x l : x ∈ unique l <-> x ∈ l.
Proof.
  unfold unique. induction l as [|y l IH]; simpl; [done|].
  rewrite elem_of_insert_unique, IH, elem_of_cons. done.
Qed.

(** The summary loop stops at the first class that has no name. *)
Lemma summary_fails X class_names labels classes s w :
  Exists (fun c => py_index class_names c = None) classes ->
  foldM (fun s c =>
           let n := count_eq c labels in
           do name <- index "names" class_names c;
           ret (s +:+ pct_g X (F64.of_Z n) +:+ " " +:+ name +:+ "s, "))
        classes s w
  = (inl (IndexError "names"), log (ERaise (IndexError "names")) w).
Proof.
  intros Hex. revert s. induction classes as [|c classes IH]; intros s.
  - by apply Exists_nil in Hex.
  - cbn [foldM]. unfold index at 1.
    destruct (py_index class_names c) as [name|] eqn:Hc.
    + rewrite !bind_ret_l. apply IH.
      apply Exists_cons in Hex as [Hex|Hex]; [congruence|done].
    + done.
Qed.

(** X5.  A label without a class name stops the loop body of [overlay_boxes]
    before it prints, draws or writes anything: it raises the index error
    of [args.names], and no label line of this prediction reaches the
    label file, not even those of detections with a valid label. *)
Theorem overlay_pred_unnamed_label (X : Ext) (args : Args) (path : string)
    (tc : spec_float) (st : Locals) (i : nat) (pred : gmap string tval)
    (b : list box) (sc : list spec_float) (lb : list Z) (c : Z) (w : World) :
  pred !! "boxes" = Some (TBoxes b) ->
  pred !! "scores" = Some (TFloats sc) ->
  pred !! "labels" = Some (TLongs lb) ->
  c ∈ lb ->
  py_index (names args) c = None ->
  (overlay_pred X args path tc st (i, Some pred) w).1
  = inl (IndexError "names") /\
  disk (overlay_pred X args path tc st (i, Some pred) w).2 = disk w.
Proof.
  intros Hb Hs Hl Hc Hname.
  assert (Hrun : overlay_pred X args path tc st (i, Some pred) w
                 = (inl (IndexError "names"),
                    log (ERaise (IndexError "names")) w)).
  { unfold overlay_pred. rewrite (size_lookup_pos _ _ _ Hb).
    rewrite (getitem_some _ _ _ Hb), bind_ret_l. cbn [as_boxes].
    rewrite bind_ret_l, (getitem_some _ _ _ Hs), bind_ret_l. cbn [as_floats].
    rewrite bind_ret_l, (getitem_some _ _ _ Hl), bind_ret_l. cbn [as_longs].
    rewrite bind_ret_l.
    apply bind_fail, bind_fail, summary_fails.
    apply Exists_exists. exists c. split; [|done]. by apply elem_of_unique. }
  by rewrite Hrun.
Qed.

Lemma overlay_pred_unnamed_label_witness :
  (overlay_pred Demo.ext Demo.main_args "imgs/a.jpg" (F64.of_Z 1) Demo.start
     (0%nat, Some (<["labels" := TLongs [1; 7]]> (Demo.pred_of 2)))
     Demo.disk).1
  = inl (IndexError "names") /\
  disk (overlay_pred Demo.ext Demo.main_args "imgs/a.jpg" (F64.of_Z 1)
          Demo.start
          (0%nat, Some (<["labels" := TLongs [1; 7]]> (Demo.pred_of 2)))
          Demo.disk).2
  = disk Demo.disk.
Proof.
  apply (overlay_pred_unnamed_label Demo.ext Demo.main_args "imgs/a.jpg"
           (F64.of_Z 1) Demo.start 0
           (<["labels" := TLongs [1; 7]]> (Demo.pred_of 2))
           Demo.two_boxes Demo.two_scores [1; 7] 7 Demo.disk).
  - reflexivity.
  - reflexivity.
  - reflexivity.
  - apply list_elem_of_further, list_elem_of_here.
  - reflexivity.
Defined.

(** X6.  A prediction that is not empty but lacks one of the keys ['boxes'],
    ['scores'], ['labels'] makes the loop body raise the key error of the
    first key it misses, before it prints or writes anything. *)
Theorem overlay_pred_missing_key (X : Ext) (args : Args) (path : string)
    (tc : spec_float) (st : Locals) (i : nat) (pred : gmap string tval)
    (key : string) (w : World) :
  size pred <> 0%nat ->
  missing_key pred = Some key ->
  (overlay_pred X args path tc st (i, Some pred) w).1 = inl (KeyError key) /\
  disk (overlay_pred X args path tc st (i, Some pred) w).2 = disk w.
Proof.
  intros Hsize Hkey.
  assert (Hrun : overlay_pred X args path tc st (i, Some pred) w
                 = (inl (KeyError key), log (ERaise (KeyError key)) w)).
  { unfold overlay_pred.
    assert ((0 <? size pred)%nat = true) as -> by (apply Nat.ltb_lt; lia).
    unfold missing_key in Hkey.
    destruct (pred !! "boxes") as [[b| |]|] eqn:Hb; try done.
    - rewrite (getitem_some _ _ _ Hb), bind_ret_l. cbn [as_boxes].
      rewrite bind_ret_l.
      destruct (pred !! "scores") as [[|sc|]|] eqn:Hs; try done.
      + rewrite (getitem_some _ _ _ Hs), bind_ret_l. cbn [as_floats].
        rewrite bind_ret_l.
        destruct (pred !! "labels") as [v|] eqn:Hl; [done|].
        injection Hkey as <-. by rewrite (getitem_none _ _ Hl).
      + injection Hkey as <-. by rewrite (getitem_none _ _ Hs).
    - injection Hkey as <-. by rewrite (getitem_none _ _ Hb). }
  by rewrite Hrun.
Qed.

Lemma overlay_pred_missing_key_witness :
  (overlay_pred Demo.ext Demo.main_args "imgs/a.jpg" (F64.of_Z 1) Demo.start
     (0%nat, Some (delete "scores" (Demo.pred_of 2))) Demo.disk).1
  = inl (KeyError "scores").
Proof.
  refine (proj1 (overlay_pred_missing_key Demo.ext Demo.main_args "imgs/a.jpg"
            (F64.of_Z 1) Demo.start 0 (delete "scores" (Demo.pred_of 2))
            "scores" Demo.disk _ _)).
  - vm_compute. discriminate.
  - reflexivity.
Defined.

(* ===================================================================== *)
(** ** The per-class summary *)
(* ===================================================================== *)

Lemma insert_unique_sorted x l :
  StronglySorted Z.lt l -> StronglySorted Z.lt (insert_unique x l).
Proof.
  induction 1 as [|z l Hs IH Hz]; simpl.
  - repeat constructor.
  - destruct (x <? z) eqn:Hlt.
    + apply Z.ltb_lt in Hlt. constructor; [by constructor|].
      constructor; [done|].
      eapply Forall_impl; [exact Hz|]. intros y Hy. simpl in Hy. lia.
    + destruct (x =? z) eqn:Heq; [by constructor|].
      apply Z.ltb_ge in Hlt. apply Z.eqb_neq in Heq.
      constructor; [done|]. apply Forall_forall. intros y Hy.
      apply elem_of_insert_unique in Hy as [->|Hy]; [lia|].
      by apply (proj1 (Forall_forall _ _) Hz).
Qed.

Lemma unique_sorted l : StronglySorted Z.lt (unique l).
Proof.
  unfold unique. induction l as [|x l IH]; simpl; [constructor|].
  by apply insert_unique_sorted.
Qed.

Lemma sorted_NoDup l : StronglySorted Z.lt l -> NoDup l.
Proof.
  induction 1 as [|z l Hs IH Hz]; constructor; [|done].
  intros Hin. apply (proj1 (Forall_forall _ _) Hz) in Hin. lia.
Qed.

Lemma count_eq_cons c x l :
  count_eq c (x :: l) = count_eq c l + (if decide (x = c) then 1 else 0).
Proof.
  unfold count_eq. rewrite filter_cons.
  destruct (decide (x = c)); simpl; lia.
Qed.

Lemma total_add {A} (f g : A -> Z) l :
  total (map (fun c => f c + g c) l) = total (map f l) + total (map g l).
Proof. unfold total. induction l as [|c l IH]; simpl; lia. Qed.

Lemma total_indicator x l :
  NoDup l ->
  total (map (fun c : Z => if decide (x = c) then 1 else 0) l)
  = if decide (x ∈ l) then 1 else 0.
Proof.
  unfold total. induction 1 as [|c l Hc Hnd IH]; cbn [map foldr].
  - destruct (decide (x ∈ [])) as [Hin|]; [by apply elem_of_nil in Hin|done].
  - rewrite IH.
    destruct (decide (x ∈ l)) as [Hin|Hin],
      (decide (x ∈ c :: l)) as [Hin'|Hin'],
      (decide (x = c)) as [Heq|Hne]; try done; exfalso.
    + subst. done.
    + by apply Hin', list_elem_of_further.
    + by apply Hin', list_elem_of_further.
    + apply elem_of_cons in Hin'. tauto.
    + subst. apply Hin', list_elem_of_here.
Qed.

Lemma total_counts (classes l : list Z) :
  NoDup classes -> (forall c, c ∈ l -> c ∈ classes) ->
  total (map (fun c => count_eq c l) classes) = Z.of_nat (length l).
Proof.
  intros Hnd. induction l as [|x l IH]; intros Hcov.
  - unfold total, count_eq. simpl. clear. induction classes; simpl; lia.
  - rewrite (map_ext _ (fun c => count_eq c l
                                 + (if decide (x = c) then 1 else 0)))
      by (intros c; apply count_eq_cons).
    rewrite total_add, total_indicator by done.
    rewrite decide_True by apply Hcov, list_elem_of_here.
    rewrite IH; [simpl; lia|].
    intros c Hc. by apply Hcov, list_elem_of_further.
Qed.

(** X7.  The summary of a prediction goes over the labels that occur, each one
    once and in increasing order, and the counts it gives add up to the
    number of labels: every detection is counted under exactly one class. *)
Theorem summary_counts_every_detection (labels : list Z) :
  StronglySorted Z.lt (unique labels) /\
  (forall c, c ∈ unique labels <-> c ∈ labels) /\
  total (map (fun c => count_eq c labels) (unique labels))
  = Z.of_nat (length labels).
Proof.
  split; [apply unique_sorted|]. split; [intros c; apply elem_of_unique|].
  apply total_counts.
  - apply sorted_NoDup, unique_sorted.
  - intros c. apply elem_of_unique.
Qed.

(* ===================================================================== *)
(** ** The colours of the classes *)
(* ===================================================================== *)

Lemma colors_from_S X d n :
  colors_from X d (S n)
  = (randint X d, randint X (d + 1)%nat, randint X (d + 2)%nat)
    :: colors_from X (d + 3) n.
Proof.
  unfold colors_from. cbn [seq map]. f_equal.
  - by rewrite Nat.mul_0_r, !Nat.add_0_r.
  - rewrite <- seq_shift, map_map. apply map_ext. intros j.
    by replace (d + 3 * S j)%nat with (d + 3 + 3 * j)%nat by lia.
Qed.

Lemma random_colors_loop X (l : list nat) acc w :
  exists w',
    foldM (fun acc (_ : nat) =>
             do r <- random_randint X;
             do g <- random_randint X;
             do b <- random_randint X;
             ret (acc ++ [(r, g, b)]))
          l acc w
    = (inr (acc ++ colors_from X (draws w) (length l)), w') /\
    draws w' = (draws w + 3 * length l)%nat /\
    disk w' = disk w /\ trace w' = trace w /\ ticks w' = ticks w.
Proof.
  revert acc w. induction l as [|x l IH]; intros acc w.
  - exists w. cbn. rewrite app_nil_r. repeat split; lia.
  - cbn [foldM length]. rewrite colors_from_S.
    replace (draws w + 1)%nat with (S (draws w)) by lia.
    replace (draws w + 2)%nat with (S (S (draws w))) by lia.
    replace (draws w + 3)%nat with (S (S (S (draws w)))) by lia.
    set (w1 := set_draws (S (S (S (draws w)))) w).
    set (c0 := (randint X (draws w), randint X (S (draws w)),
                randint X (S (S (draws w))))).
    destruct (IH (acc ++ [c0]) w1) as (w' & Hrun & Hd & Hdisk & Htr & Hti).
    assert (Hstep :
      (do r <- random_randint X;
       do g <- random_randint X;
       do b <- random_randint X;
       ret (acc ++ [(r, g, b)])) w = (inr (acc ++ [c0]), w1)) by reflexivity.
    exists w'. split.
    + rewrite (bind_run _ _ _ _ _ Hstep), Hrun. by rewrite <- app_assoc.
    + rewrite Hd, Hdisk, Htr, Hti. subst w1. cbn. repeat split; lia.
Qed.

Lemma py_index_is_Some {A} (l : list A) (c : Z) :
  is_Some (py_index l c)
  <-> - Z.of_nat (length l) <= c < Z.of_nat (length l).
Proof.
  unfold py_index.
  destruct (0 <=? c) eqn:H0, (c <? Z.of_nat (length l)) eqn:H1; simpl.
  - rewrite lookup_lt_is_Some. lia.
  - split; [|lia]. destruct (- Z.of_nat (length l) <=? c) eqn:H2,
      (c <? 0) eqn:H3; simpl; try (by intros [? ?]); lia.
  - destruct (- Z.of_nat (length l) <=? c) eqn:H2; simpl.
    + destruct (c <? 0) eqn:H3; [|lia]. rewrite lookup_lt_is_Some. lia.
    + split; [by intros [? ?]|lia].
  - lia.
Qed.

(** X8.  [main] draws one colour per class name, three random numbers each, in
    order, and nothing else: so a label that has a class name has a colour
    too, and drawing a box cannot fail for want of a colour once the
    summary has found the names. *)
Theorem random_colors_one_per_class (X : Ext) (n : nat) (w : World) :
  (random_colors X n w).1 = inr (colors_from X (draws w) n) /\
  length (colors_from X (draws w) n) = n /\
  draws (random_colors X n w).2 = (draws w + 3 * n)%nat /\
  disk (random_colors X n w).2 = disk w /\
  (forall (class_names : list string) (c : Z),
      length class_names = n ->
      is_Some (py_index class_names c) ->
      is_Some (py_index (colors_from X (draws w) n) c)).
Proof.
  unfold random_colors.
  destruct (random_colors_loop X (seq 0 n) [] w)
    as (w' & Hrun & Hd & Hdisk & _).
  rewrite length_seq in Hrun, Hd.
  assert (Hlen : length (colors_from X (draws w) n) = n).
  { unfold colors_from. by rewrite length_map, length_seq. }
  rewrite Hrun. simpl. repeat split; try done.
  intros class_names c Hn. rewrite !py_index_is_Some. by rewrite Hlen, Hn.
Qed.

(* ===================================================================== *)
(** ** What [overlay_boxes] prints *)
(* ===================================================================== *)

Lemma overlay_pred_prints X args path tc st i pred w st' w' :
  overlay_pred X args path tc st (i, pred) w = (inr st', w') ->
  exists line, done_line X tc line /\ stdout w' = stdout w ++ [line].
Proof.
  intros H. destruct (decide (blank pred)) as [Hb|Hb].
  - unfold overlay_pred in H.
    apply bind_inr in H as ([s1 st1] & w1 & Hbody & H).
    assert (w1 = w) as ->.
    { destruct pred as [d|]; simpl in Hb.
      - rewrite Hb in Hbody. by apply ret_inr in Hbody as [_ <-].
      - by apply ret_inr in Hbody as [_ <-]. }
    apply bind_inr in H as (u1 & w2 & Hprint & H).
    apply print_inr in Hprint. unfold disk in Hprint.
    injection Hprint as _ _ _ P4.
    apply bind_inr in H as (u2 & w3 & Hwrite & H).
    apply ret_inr in H as [_ <-].
    exists (s1 +:+ "Done. (" +:+ pct_f X 3 tc +:+ "s)").
    split; [by exists s1|].
    unfold when in Hwrite. destruct (save_img args && _).
    + apply bind_inr in Hwrite as (ok & w4 & Hwrite & Hok).
      apply ret_inr in Hok as [_ <-].
      apply imwrite_inr in Hwrite as (m & _ & Hw). unfold disk in Hw.
      injection Hw as _ _ _ W4. by rewrite W4, P4.
    + apply ret_inr in Hwrite as [_ <-]. done.
  - destruct pred as [d|]; [|by destruct Hb]. simpl in Hb.
    destruct (overlay_pred_typed _ _ _ _ _ _ _ _ _ _ Hb H)
      as (b & sc & lb & Hk1 & Hk2 & Hk3).
    destruct (overlay_pred_effect _ _ _ _ _ _ _ _ _ _ _ _ _ Hk1 Hk2 Hk3 H)
      as (summary & _ & _ & _ & _ & Hout & _).
    eexists. split; [|exact Hout].
    eexists. by rewrite <- string_app_assoc.
Qed.

Lemma overlay_preds_print X args path tc l st w st' w' :
  foldM (overlay_pred X args path tc) l st w = (inr st', w') ->
  exists lines,
    stdout w' = stdout w ++ lines /\ length lines = length l /\
    Forall (done_line X tc) lines.
Proof.
  revert st w. induction l as [|[i pred] l IH]; intros st w; cbn [foldM].
  - intros [= _ <-]. exists []. by rewrite app_nil_r.
  - intros H. apply bind_inr in H as (st1 & w1 & Hp & H).
    apply overlay_pred_prints in Hp as (line & Hline & Hout1).
    apply IH in H as (lines & Hout & Hlen & Hall).
    exists (line :: lines). rewrite Hout, Hout1, <- app_assoc.
    split; [done|]. split; [simpl; lia|]. by constructor.
Qed.

(** X9.  When [overlay_boxes] returns it has printed one line for every
    prediction in [detections], skipped ones included, each ending with the
    inference time, and nothing else. *)
Theorem overlay_boxes_prints_per_prediction (X : Ext)
    (detections : list Detection) (path : string) (tc : spec_float)
    (args : Args) (w : World) (r : list box * list spec_float * list Z) :
  (overlay_boxes X detections path tc args w).1 = inr r ->
  exists lines,
    stdout (overlay_boxes X detections path tc args w).2
    = stdout w ++ lines /\
    length lines = length detections /\
    Forall (done_line X tc) lines.
Proof.
  destruct (overlay_boxes X detections path tc args w) as [res w'] eqn:Hrun.
  simpl. intros ->. unfold overlay_boxes in Hrun.
  apply bind_inr in Hrun as (u & w1 & Hev & H). apply emit_inr in Hev as ->.
  apply bind_inr in H as (img & w2 & Hread & H).
  assert (Hout2 : stdout w2 = stdout w).
  { destruct (save_img args).
    - apply imread_inr in Hread as [_ Hd]. unfold disk in Hd.
      by injection Hd as _ _ _ ->.
    - by apply ret_inr in Hread as [_ <-]. }
  apply bind_inr in H as (st & w3 & Hloop & H).
  apply overlay_preds_print in Hloop as (lines & Hout & Hlen & Hall).
  exists lines.
  rewrite length_zip, length_seq, Nat.min_id in Hlen.
  destruct (l_bound st); [|by apply raise_inr in H].
  apply bind_inr in H as (u2 & w4 & Hdone & H).
  apply emit_inr in Hdone as ->. apply ret_inr in H as [_ <-].
  simpl. by rewrite Hout, Hout2.
Qed.

Lemma overlay_boxes_prints_per_prediction_witness :
  exists lines,
    stdout (overlay_boxes Demo.ext [Some (Demo.pred_of 2); None]
              "imgs/a.jpg" (F64.of_Z 1) Demo.main_args Demo.disk).2
    = stdout Demo.disk ++ lines /\
    length lines = 2%nat /\
    Forall (done_line Demo.ext (F64.of_Z 1)) lines.
Proof.
  apply (overlay_boxes_prints_per_prediction Demo.ext
           [Some (Demo.pred_of 2); None] "imgs/a.jpg" (F64.of_Z 1)
           Demo.main_args Demo.disk
           (map round_box Demo.two_boxes, Demo.two_scores, Demo.two_labels)).
  vm_compute. reflexivity.
Defined.

(* ===================================================================== *)
(** ** Scaling the pixels loses nothing *)
(* ===================================================================== *)

Lemma scaled_table_increasing : table_increasing scaled_table = true.
Proof. vm_compute. reflexivity. Qed.

Lemma in_scaled_table (b : byte) :
  In (Byte.to_N b, F32.div (F32.of_u8 b) F32.c255) scaled_table.
Proof.
  unfold scaled_table. apply in_map_iff.
  exists (N.to_nat (Byte.to_N b)). cbn zeta. rewrite N2Nat.id.
  split; [done|]. apply in_seq.
  pose proof (Byte.to_N_bounded b). lia.
Qed.

Lemma scaled_increasing (b1 b2 : byte) :
  (Byte.to_N b1 < Byte.to_N b2)%N ->
  SFltb (F32.div (F32.of_u8 b1) F32.c255) (F32.div (F32.of_u8 b2) F32.c255)
  = true.
Proof.
  intros Hlt. pose proof scaled_table_increasing as Ht.
  unfold table_increasing in Ht.
  rewrite List.forallb_forall in Ht.
  specialize (Ht _ (in_scaled_table b1)).
  rewrite List.forallb_forall in Ht.
  specialize (Ht _ (in_scaled_table b2)). cbn [fst snd] in Ht.
  apply N.ltb_lt in Hlt. by rewrite Hlt in Ht.
Qed.

(** X10.  The float32 tensor of [read_image] keeps the order of the pixel values:
    a darker pixel gives a strictly smaller element, so two different pixel
    values never give the same element; the value 0 gives 0.0 and the value
    255 gives 1.0 exactly. *)
Theorem read_image_keeps_order (name : string) (is_half : bool) (w : World)
    (m : Mat) :
  images w !! name = Some m ->
  exists a,
    (read_image name is_half w).1 = inr {| t_data := A3 a; t_device := Cpu |} /\
    (forall c i j c' i' j',
        (Byte.to_N (pixel m i j c) < Byte.to_N (pixel m i' j' c'))%N ->
        SFltb (item a c i j) (item a c' i' j') = true) /\
    (forall c i j, pixel m i j c = "000"%byte -> item a c i j = F32.zero) /\
    (forall c i j, pixel m i j c = "255"%byte -> item a c i j = F32.one).
Proof.
  intros Hm. unfold read_image, imread, bind, emit, get. simpl. rewrite Hm.
  simpl. eexists. split; [reflexivity|]. simpl. repeat split.
  - intros c i j c' i' j'. apply scaled_increasing.
  - intros c i j ->. reflexivity.
  - intros c i j ->. reflexivity.
Qed.

Lemma read_image_keeps_order_witness :
  exists a,
    (read_image "ramp.png" false ramp_disk).1
    = inr {| t_data := A3 a; t_device := Cpu |} /\
    SFltb (item a 0 0 0) (item a 0 1 0) = true.
Proof.
  destruct (read_image_keeps_order "ramp.png" false ramp_disk ramp eq_refl)
    as (a & Hrun & Hlt & _).
  exists a. split; [exact Hrun|]. apply Hlt. reflexivity.
Defined.

(* ===================================================================== *)
(** ** Strings: reversal, stripping and splitting *)
(* ===================================================================== *)

Lemma app_cons c s1 s2 : String c s1 +:+ s2 = String c (s1 +:+ s2).
Proof. reflexivity. Qed.

Lemma rev_app_app s1 s2 acc :
  String.rev_app (s1 +:+ s2) acc = String.rev_app s2 (String.rev_app s1 acc).
Proof.
  revert acc. induction s1 as [|c s1 IH]; intros acc; [done|].
  rewrite app_cons. cbn [String.rev_app]. apply IH.
Qed.

Lemma rev_app_acc s acc : String.rev_app s acc = String.rev s +:+ acc.
Proof.
  unfold String.rev. revert acc.
  induction s as [|c s IH]; intros acc; [done|].
  cbn [String.rev_app]. rewrite IH, (IH (String c "")).
  by rewrite string_app_assoc.
Qed.

Lemma rev_app_distr s1 s2 :
  String.rev (s1 +:+ s2) = String.rev s2 +:+ String.rev s1.
Proof.
  unfold String.rev at 1. rewrite rev_app_app, rev_app_acc. done.
Qed.

Lemma rev_involutive s : String.rev (String.rev s) = s.
Proof.
  induction s as [|c s IH]; [done|].
  change (String c s) with (String c "" +:+ s) at 1.
  rewrite rev_app_distr, rev_app_distr, IH. done.
Qed.

(** [lstrip] takes white space off the front, and what is left does not
    start with white space. *)
Lemma lstrip_split s :
  exists sp, s = sp +:+ lstrip s /\ all_chars is_space sp = true.
Proof.
  induction s as [|c s (sp & Hs & Hsp)]; [by exists ""|].
  cbn [lstrip]. destruct (is_space c) eqn:Hc.
  - exists (String c sp). rewrite app_cons, <- Hs. split; [done|].
    cbn. by rewrite Hc.
  - by exists "".
Qed.

Lemma lstrip_idemp s : lstrip (lstrip s) = lstrip s.
Proof.
  induction s as [|c s IH]; [done|]. cbn [lstrip].
  destruct (is_space c) eqn:Hc; [done|]. cbn [lstrip]. by rewrite Hc.
Qed.

Lemma lstrip_length s : (String.length (lstrip s) <= String.length s)%nat.
Proof.
  induction s as [|c s IH]; [done|]. cbn [lstrip].
  destruct (is_space c); cbn [String.length]; lia.
Qed.

Lemma lstrip_front s t :
  lstrip (s +:+ t) = s +:+ t -> s <> "" -> lstrip s = s.
Proof.
  destruct s as [|c s]; [done|]. rewrite app_cons. cbn [lstrip].
  destruct (is_space c); [|done].
  intros H _. exfalso.
  pose proof (lstrip_length (s +:+ t)) as Hlen.
  rewrite H in Hlen. cbn [String.length] in Hlen. lia.
Qed.

Lemma strip_clean s : clean (strip s).
Proof.
  unfold clean, strip. rewrite rev_involutive, lstrip_idemp.
  split; [|done].
  set (t := lstrip s). set (u := lstrip (String.rev t)).
  destruct (lstrip_split (String.rev t)) as (sp & Hsp & _). fold u in Hsp.
  assert (Ht : t = String.rev u +:+ String.rev sp).
  { by rewrite <- rev_app_distr, <- Hsp, rev_involutive. }
  destruct (decide (String.rev u = "")) as [->|Hne]; [done|].
  apply (lstrip_front _ (String.rev sp)); [|done].
  rewrite <- Ht. apply lstrip_idemp.
Qed.

Lemma all_chars_rev_app p s acc :
  all_chars p (String.rev_app s acc) = all_chars p s && all_chars p acc.
Proof.
  revert acc. induction s as [|c s IH]; intros acc; [done|].
  cbn [String.rev_app all_chars]. rewrite IH. cbn [all_chars].
  by destruct (p c), (all_chars p s), (all_chars p acc).
Qed.

Lemma all_chars_rev p s : all_chars p (String.rev s) = all_chars p s.
Proof.
  unfold String.rev. rewrite all_chars_rev_app. cbn. apply andb_true_r.
Qed.

Lemma all_chars_lstrip p s :
  all_chars p s = true -> all_chars p (lstrip s) = true.
Proof.
  induction s as [|c s IH]; [done|]. cbn [lstrip all_chars].
  intros [Hc Hs]%andb_true_iff.
  destruct (is_space c); [by apply IH|]. cbn. by rewrite Hc, Hs.
Qed.

Lemma all_chars_strip p s : all_chars p s = true -> all_chars p (strip s) = true.
Proof.
  intros H. unfold strip.
  rewrite all_chars_rev. apply all_chars_lstrip.
  rewrite all_chars_rev. by apply all_chars_lstrip.
Qed.

(** [is_space] holds of the white space of [str.strip] and of nothing
    else. *)
Lemma is_space_white c : is_space c = white c.
Proof. by destruct c as [[] [] [] [] [] [] [] []]. Qed.

Lemma rev_cons c s : String.rev (String c s) = String.rev s +:+ String c "".
Proof. unfold String.rev at 1. cbn [String.rev_app]. apply rev_app_acc. Qed.

Lemma first_char_app s t :
  first_char (s +:+ t)
  = match first_char s with Some c => Some c | None => first_char t end.
Proof. by destruct s. Qed.

Lemma last_char_rev s : last_char s = first_char (String.rev s).
Proof.
  induction s as [|c s IH]; [done|].
  rewrite rev_cons, first_char_app, <- IH. cbn [last_char].
  by destruct (last_char s).
Qed.

Lemma lstrip_fixed_first s c :
  lstrip s = s -> first_char s = Some c -> white c = false.
Proof.
  destruct s as [|c' s]; [done|]. cbn [lstrip first_char].
  intros H [= <-]. rewrite <- is_space_white.
  destruct (is_space c') eqn:Hc; [|done]. exfalso.
  pose proof (lstrip_length s) as Hl. rewrite H in Hl.
  cbn [String.length] in Hl. lia.
Qed.

Lemma clean_trimmed s : clean s -> trimmed s.
Proof.
  intros [H1 H2]. split; intros c Hc.
  - exact (lstrip_fixed_first s c H1 Hc).
  - rewrite last_char_rev in Hc.
    exact (lstrip_fixed_first (String.rev s) c H2 Hc).
Qed.

(** Induction on a string two characters at a time. *)
Lemma string_pair_ind (P : string -> Prop) :
  P "" -> (forall c, P (String c "")) ->
  (forall c c' s, P s -> P (String c' s) -> P (String c (String c' s))) ->
  forall s, P s.
Proof.
  intros H0 H1 H2 s.
  assert (P s /\ forall c, P (String c s)) as [? _]; [|done].
  induction s as [|c' s [IH1 IH2]]; [by split|].
  split; [apply IH2|]. intros c. by apply H2.
Qed.

Lemma universal_cr_lf s :
  universal_newlines (String "013" (String "010" s))
  = String "010" (universal_newlines s).
Proof. reflexivity. Qed.

Lemma universal_cr_other c s :
  Ascii.eqb c "010" = false ->
  universal_newlines (String "013" (String c s))
  = String "010" (universal_newlines (String c s)).
Proof.
  intros H.
  change (universal_newlines (String "013" (String c s)))
    with (String "010" (if Ascii.eqb c "010" then universal_newlines s
                        else universal_newlines (String c s))).
  by rewrite H.
Qed.

Lemma universal_other c s :
  Ascii.eqb c "013" = false ->
  universal_newlines (String c s) = String c (universal_newlines s).
Proof.
  intros H.
  change (universal_newlines (String c s))
    with (if Ascii.eqb c "013"
          then String "010"
                 match s with
                 | String c' s'' =>
                     if Ascii.eqb c' "010" then universal_newlines s''
                     else universal_newlines s
                 | EmptyString => ""
                 end
          else String c (universal_newlines s)).
  by rewrite H.
Qed.

(** The three cases of a text of two characters or more. *)
Lemma universal_cases c c' s :
  (c = "013"%char /\ c' = "010"%char /\
   universal_newlines (String c (String c' s))
   = String "010" (universal_newlines s)) \/
  (c = "013"%char /\ Ascii.eqb c' "010" = false /\
   universal_newlines (String c (String c' s))
   = String "010" (universal_newlines (String c' s))) \/
  (Ascii.eqb c "013" = false /\
   universal_newlines (String c (String c' s))
   = String c (universal_newlines (String c' s))).
Proof.
  destruct (Ascii.eqb_spec c "013") as [->|Hc].
  - destruct (Ascii.eqb_spec c' "010") as [->|Hc'].
    + left. by rewrite universal_cr_lf.
    + right; left. apply Ascii.eqb_neq in Hc'.
      by rewrite universal_cr_other.
  - right; right. apply Ascii.eqb_neq in Hc. by rewrite universal_other.
Qed.

Lemma line_ends_flag c s :
  Ascii.eqb c "010" = false ->
  line_ends true (String c s) = line_ends false (String c s).
Proof. intros H. cbn [line_ends]. by rewrite H. Qed.

(** Reading in text mode leaves as many line feeds as the text has line
    ends. *)
Lemma count_lf_universal s :
  count_lf (universal_newlines s) = line_ends false s.
Proof.
  induction s as [|c|c c' s IH1 IH2] using string_pair_ind; [done| |].
  - destruct (Ascii.eqb_spec c "013") as [->|Hc]; [done|].
    apply Ascii.eqb_neq in Hc. rewrite universal_other by done.
    cbn [line_ends count_lf universal_newlines]. by rewrite Hc.
  - destruct (universal_cases c c' s)
      as [(-> & -> & ->)|[(-> & Hc' & ->)|(Hc & ->)]].
    + cbn [count_lf line_ends]. cbn. by rewrite IH1.
    + change (line_ends false (String "013" (String c' s)))
        with (S (line_ends true (String c' s))).
      rewrite (line_ends_flag _ _ Hc'), <- IH2. done.
    + change (count_lf (String c ?t))
        with (if Ascii.eqb c "010" then S (count_lf t) else count_lf t).
      rewrite IH2.
      change (line_ends false (String c ?t))
        with (if Ascii.eqb c "013" then S (line_ends true t)
              else if Ascii.eqb c "010" then (1 + line_ends false t)%nat
                   else line_ends false t).
      rewrite Hc. by destruct (Ascii.eqb c "010").
Qed.

Lemma last_char_cons_some c s : is_Some (last_char (String c s)).
Proof.
  revert c. induction s as [|c' s IH]; intros c; [by eexists|].
  cbn [last_char] in *. destruct (IH c') as [x Hx].
  cbn [last_char] in Hx. rewrite Hx. by eexists.
Qed.

Lemma last_char_cons c c' s :
  last_char (String c (String c' s)) = last_char (String c' s).
Proof.
  destruct (last_char_cons_some c' s) as [x Hx].
  change (last_char (String c (String c' s)))
    with (match last_char (String c' s) with None => Some c | r => r end).
  by rewrite Hx.
Qed.

(** Reading in text mode turns a carriage return at the end into a line
    feed and keeps any other last character. *)
Lemma last_char_universal s :
  last_char (universal_newlines s)
  = (fun c => if Ascii.eqb c "013" then "010"%char else c) <$> last_char s.
Proof.
  induction s as [|c|c c' s IH1 IH2] using string_pair_ind; [done| |].
  - destruct (Ascii.eqb_spec c "013") as [->|Hc]; [done|].
    apply Ascii.eqb_neq in Hc. rewrite universal_other by done.
    cbn. by rewrite Hc.
  - rewrite last_char_cons.
    destruct (last_char_cons_some c' s) as [x Hx].
    destruct (universal_cases c c' s)
      as [(-> & -> & ->)|[(-> & Hc' & ->)|(Hc & ->)]].
    + change (last_char (String "010" ?t))
        with (match last_char t with None => Some "010"%char | r => r end).
      rewrite IH1. cbn [last_char]. by destruct (last_char s).
    + change (last_char (String "010" ?t))
        with (match last_char t with None => Some "010"%char | r => r end).
      rewrite IH2, Hx. done.
    + change (last_char (String c ?t))
        with (match last_char t with None => Some c | r => r end).
      rewrite IH2, Hx. done.
Qed.

(** The lines of a text: one for each line feed, and one more when
    something is left after the last. *)
Lemma lines_go_length cur t :
  length (lines_go cur t)
  = (count_lf t
     + if match last_char t with
          | Some c => negb (Ascii.eqb c "010")
          | None => match cur with EmptyString => false | _ => true end
          end
       then 1 else 0)%nat.
Proof.
  revert cur. induction t as [|c t IH]; intros cur; [by destruct cur|].
  cbn [lines_go count_lf last_char].
  destruct (Ascii.eqb c "010") eqn:Hc.
  - cbn [length]. rewrite IH. destruct (last_char t); [done|].
    rewrite Hc. done.
  - rewrite IH. destruct (last_char t); [done|]. by rewrite Hc.
Qed.

Lemma file_lines_length s : length (file_lines s) = line_count s.
Proof.
  unfold file_lines, line_count, unterminated.
  rewrite lines_go_length, count_lf_universal, last_char_universal.
  destruct (last_char s) as [c|]; [|done].
  unfold fmap, option_fmap, option_map.
  destruct (Ascii.eqb_spec c "013") as [->|Hc]; [done|].
  apply Ascii.eqb_neq in Hc. by rewrite orb_false_r.
Qed.

Lemma lines_go_chars p cur t :
  all_chars p cur = true -> all_chars p t = true ->
  Forall (fun l => all_chars p l = true) (lines_go cur t).
Proof.
  revert cur. induction t as [|c t IH]; intros cur Hcur Ht; cbn [lines_go].
  - destruct cur; [constructor|].
    constructor; [by rewrite all_chars_rev|constructor].
  - cbn [all_chars] in Ht. apply andb_true_iff in Ht as [Hc Ht].
    assert (Hcc : all_chars p (String c cur) = true).
    { cbn [all_chars]. by rewrite Hc, Hcur. }
    destruct (Ascii.eqb c "010").
    + constructor; [by rewrite all_chars_rev|]. by apply IH.
    + by apply IH.
Qed.

Lemma universal_no_cr s : free_of "013" (universal_newlines s) = true.
Proof.
  induction s as [|c|c c' s IH1 IH2] using string_pair_ind; [done| |].
  - destruct (Ascii.eqb_spec c "013") as [->|Hc]; [done|].
    apply Ascii.eqb_neq in Hc. rewrite universal_other by done.
    unfold free_of. cbn. by rewrite Hc.
  - destruct (universal_cases c c' s)
      as [(-> & -> & ->)|[(-> & Hc' & ->)|(Hc & ->)]].
    + exact IH1.
    + exact IH2.
    + unfold free_of in *. cbn [all_chars]. by rewrite Hc, IH2.
Qed.

(** A line is free of line feeds but for the one it may end with. *)
Lemma lines_go_shape cur t :
  free_of "010" cur = true ->
  Forall (fun l => exists body,
            free_of "010" body = true /\
            (l = body \/ l = body +:+ String "010" ""))
         (lines_go cur t).
Proof.
  revert cur. induction t as [|c t IH]; intros cur Hcur; cbn [lines_go].
  - destruct cur as [|c cur]; [constructor|].
    constructor; [|constructor]. exists (String.rev (String c cur)).
    split; [|by left]. unfold free_of. by rewrite all_chars_rev.
  - destruct (Ascii.eqb c "010") eqn:Hc.
    + constructor; [|by apply IH]. exists (String.rev cur).
      apply Ascii.eqb_eq in Hc as ->.
      split; [unfold free_of; by rewrite all_chars_rev|].
      right. apply rev_cons.
    + apply IH. unfold free_of in *. cbn [all_chars]. by rewrite Hc, Hcur.
Qed.

Lemma lstrip_line body :
  free_of "010" body = true ->
  lstrip (body +:+ String "010" "") = ""
  \/ exists body', free_of "010" body' = true
       /\ lstrip (body +:+ String "010" "") = body' +:+ String "010" "".
Proof.
  induction body as [|c body IH]; intros Hb; [by left|].
  unfold free_of in Hb. cbn [all_chars] in Hb.
  apply andb_true_iff in Hb as [Hc Hb].
  rewrite app_cons. cbn [lstrip]. destruct (is_space c).
  - by apply IH.
  - right. exists (String c body). split; [|done].
    unfold free_of. cbn [all_chars]. by rewrite Hc, Hb.
Qed.

Lemma strip_line_free body :
  free_of "010" body = true ->
  free_of "010" (strip (body +:+ String "010" "")) = true.
Proof.
  intros Hb. unfold strip.
  destruct (lstrip_line body Hb) as [->|(body' & Hb' & ->)]; [done|].
  rewrite rev_app_distr.
  change (String.rev (String "010" "") +:+ String.rev body')
    with (String "010" (String.rev body')).
  change (lstrip (String "010" (String.rev body')))
    with (lstrip (String.rev body')).
  unfold free_of. rewrite all_chars_rev. apply all_chars_lstrip.
  by rewrite all_chars_rev.
Qed.

Lemma sep_app c t : String c "" +:+ t = String c t.
Proof. reflexivity. Qed.

(** The separator ends a piece that is free of it. *)
Lemma split_go_piece sep cur s rest :
  free_of sep s = true ->
  split_go sep cur (s +:+ String sep rest)
  = String.rev (String.rev_app s cur) :: split_go sep "" rest.
Proof.
  revert cur. induction s as [|c s IH]; intros cur Hs.
  - change ("" +:+ String sep rest) with (String sep rest).
    cbn [split_go String.rev_app]. by rewrite Ascii.eqb_refl.
  - rewrite app_cons. cbn [split_go String.rev_app].
    unfold free_of in Hs. cbn [all_chars] in Hs.
    apply andb_true_iff in Hs as [Hc Hs].
    apply negb_true_iff in Hc. rewrite Hc. by apply IH.
Qed.

Lemma split_piece sep s rest :
  free_of sep s = true ->
  split sep (s +:+ String sep rest) = s :: split sep rest.
Proof.
  intros Hs. unfold split. rewrite split_go_piece by done.
  fold (String.rev s). by rewrite rev_involutive.
Qed.

(* ===================================================================== *)
(** ** The class names *)
(* ===================================================================== *)

(** X11.  For a label map that can be read, [load_names] returns one name
    per line of the file, blank lines included, where a line ends at a line
    feed, at a carriage return or at the two in a row and the last line
    need not have an end; no name starts or ends with white space, and none
    holds a line feed or a carriage return. *)
Theorem load_names_clean (path : string) (w : World) (content : string) :
  faults w !! path = None ->
  texts w !! path = Some content ->
  exists class_names,
    (load_names path w).1 = inr class_names /\
    length class_names = line_count content /\
    Forall trimmed class_names /\
    Forall (fun name => free_of "010" name = true /\
                        free_of "013" name = true) class_names.
Proof.
  intros Hf Ht. exists (map strip (file_lines content)).
  split; [|split; [|split]].
  - unfold load_names, open_read, bind, emit, get, ret. cbn.
    rewrite Hf. cbn. by rewrite Ht.
  - rewrite length_map. apply file_lines_length.
  - apply Forall_map, Forall_forall. intros s _.
    apply clean_trimmed, strip_clean.
  - apply Forall_map. unfold file_lines.
    pose proof (lines_go_shape "" (universal_newlines content) eq_refl)
      as Hshape.
    pose proof (lines_go_chars (fun c => negb (Ascii.eqb c "013")) ""
                  (universal_newlines content) eq_refl
                  (universal_no_cr content)) as Hcr.
    revert Hshape Hcr. generalize (lines_go "" (universal_newlines content)).
    intros l Hshape Hcr. induction l as [|line l IH]; [constructor|].
    inversion Hshape as [|? ? (body & Hbody & Hline) Hshape']; subst.
    inversion Hcr as [|? ? Hline_cr Hcr']; subst.
    constructor; [|by apply IH]. split.
    + destruct Hline as [->| ->]; [by apply all_chars_strip|].
      by apply strip_line_free.
    + by apply all_chars_strip.
Qed.

Lemma load_names_clean_witness :
  exists class_names,
    (load_names "mixed.names" names_disk).1 = inr class_names /\
    length class_names = 4%nat /\
    Forall trimmed class_names /\
    Forall (fun name => free_of "010" name = true /\
                        free_of "013" name = true) class_names.
Proof.
  apply (load_names_clean "mixed.names" names_disk mixed_names).
  - reflexivity.
  - reflexivity.
Defined.

(** The names of a label map with line ends of three kinds, a blank before
    and after a name and a unit separator after another. *)
Example load_names_mixed :
  (load_names "mixed.names" names_disk).1
  = inr ["person"; "car"; "dog"; "cat"].
Proof. vm_compute. reflexivity. Qed.

(* ===================================================================== *)
(** ** The fields of a label line *)
(* ===================================================================== *)

Lemma label_text_split X xyxy conf cls cx cy bw bh :
  box_xyxy_to_cxcywh X xyxy = (cx, cy, bw, bh) ->
  free_of " " (pct_g X (F64.of_Z cls)) = true ->
  free_of " " (pct_g X cx) = true ->
  free_of " " (pct_g X cy) = true ->
  free_of " " (pct_g X bw) = true ->
  free_of " " (pct_g X bh) = true ->
  split " " (label_text X (xyxy, conf, cls))
  = [pct_g X (F64.of_Z cls); pct_g X cx; pct_g X cy; pct_g X bw; pct_g X bh;
     String "010" ""].
Proof.
  intros Hbox H0 H1 H2 H3 H4. unfold label_text. rewrite Hbox.
  rewrite !sep_app. by rewrite !split_piece.
Qed.

(** X12.  With [save_txt] set, when the code that handles one detection
    (lines 70 to 79 of [overlay_boxes]) returns, the label file has grown
    by one line, and where [%g] renders the five numbers without a blank,
    splitting that line at the blanks gives back the five renderings, in
    the order label, centre x, centre y, width, height, and then the line
    feed: the line ends with a blank before its line feed. *)
Theorem label_line_five_fields (X : Ext) (args : Args) (txt_path : Path)
    (img : option Mat) (xyxy : box) (conf : spec_float) (cls : Z)
    (cx cy bw bh : spec_float) (w : World) :
  save_txt args = true ->
  box_xyxy_to_cxcywh X xyxy = (cx, cy, bw, bh) ->
  free_of " " (pct_g X (F64.of_Z cls)) = true ->
  free_of " " (pct_g X cx) = true ->
  free_of " " (pct_g X cy) = true ->
  free_of " " (pct_g X bw) = true ->
  free_of " " (pct_g X bh) = true ->
  returned (overlay_detection X args txt_path img (xyxy, conf, cls) w).1
  = true ->
  exists line,
    texts (overlay_detection X args txt_path img (xyxy, conf, cls) w).2
      !! (Path_str txt_path +:+ ".txt")
    = Some (default "" (texts w !! (Path_str txt_path +:+ ".txt")) +:+ line) /\
    split " " line
    = [pct_g X (F64.of_Z cls); pct_g X cx; pct_g X cy; pct_g X bw;
       pct_g X bh; String "010" ""].
Proof.
  intros Htxt Hbox H0 H1 H2 H3 H4 Hret.
  destruct (overlay_detection X args txt_path img (xyxy, conf, cls) w)
    as [[e|img'] w'] eqn:Hrun; [done|].
  apply overlay_detection_effect in Hrun as [Hdisk _].
  rewrite Htxt in Hdisk. unfold disk in Hdisk. injection Hdisk as _ Ht _ _.
  exists (label_text X (xyxy, conf, cls)). simpl. split.
  - rewrite Ht. unfold appended. by rewrite lookup_insert_eq.
  - by apply (label_text_split X xyxy conf cls cx cy bw bh).
Qed.

Lemma label_line_five_fields_witness :
  exists line,
    texts (overlay_detection Demo.ext Demo.main_args
             (joinpath (Path_of "out") "a") (Some (Demo.gray 3 2))
             ((Demo.f 10, Demo.f 20, Demo.f 30, Demo.f 80), Demo.f 1, 1)
             Demo.disk).2
      !! "out/a.txt"
    = Some (default "" (texts Demo.disk !! "out/a.txt") +:+ line) /\
    split " " line = ["1"; "20"; "50"; "20"; "60"; String "010" ""].
Proof.
  apply (label_line_five_fields Demo.ext Demo.main_args
           (joinpath (Path_of "out") "a") (Some (Demo.gray 3 2))
           (Demo.f 10, Demo.f 20, Demo.f 30, Demo.f 80) (Demo.f 1) 1
           (Demo.f 20) (Demo.f 50) (Demo.f 20) (Demo.f 60) Demo.disk);
    vm_compute; reflexivity.
Defined.

(* ===================================================================== *)
(** ** What [main] prints *)
(* ===================================================================== *)

Lemma keeps_run {T A} (f : World -> T) (m : M A) w r w' :
  keeps f m -> m w = (r, w') -> f w' = f w.
Proof. intros Hk Hrun. specialize (Hk w). by rewrite Hrun in Hk. Qed.

Lemma disk_stdout w w' : disk w' = disk w -> stdout w' = stdout w.
Proof. unfold disk. congruence. Qed.

Lemma overlay_boxes_lines X detections path tc args w r w' :
  overlay_boxes X detections path tc args w = (inr r, w') ->
  exists lines,
    stdout w' = stdout w ++ lines /\ Forall (done_line X tc) lines.
Proof.
  intros Hrun. unfold overlay_boxes in Hrun.
  apply bind_inr in Hrun as (u & w1 & Hev & H). apply emit_inr in Hev as ->.
  apply bind_inr in H as (img & w2 & Hread & H).
  assert (Hout2 : stdout w2 = stdout w).
  { destruct (save_img args).
    - apply imread_inr in Hread as [_ Hd]. unfold disk in Hd.
      by injection Hd as _ _ _ ->.
    - by apply ret_inr in Hread as [_ <-]. }
  apply bind_inr in H as (st & w3 & Hloop & H).
  apply overlay_preds_print in Hloop as (lines & Hout & Hlen & Hall).
  exists lines.
  destruct (l_bound st); [|by apply raise_inr in H].
  apply bind_inr in H as (u2 & w4 & Hdone & H).
  apply emit_inr in Hdone as ->. apply ret_inr in H as [_ <-].
  simpl. by rewrite Hout, Hout2.
Qed.

Section MainPrints.

Variable X : Ext.

Lemma images_loop_lines device is_half args paths model w model' w' :
  images_loop X device is_half args paths model w = (inr model', w') ->
  exists lines, stdout w' = stdout w ++ lines /\ Forall (timed_line X) lines.
Proof.
  unfold images_loop. revert model w.
  induction paths as [|p paths IH]; intros model w; cbn [foldM].
  - intros [= _ <-]. exists []. by rewrite app_nil_r.
  - intros H. apply bind_inr in H as (m1 & w1 & Hp & H).
    unfold process_image in Hp.
    apply bind_inr in Hp as ([[m2 out] tc] & w2 & Hinf & Hp).
    apply (keeps_run disk) in Hinf; [|apply inference_keeps_disk].
    apply disk_stdout in Hinf.
    apply bind_inr in Hp as (r & w3 & Hov & Hp).
    apply overlay_boxes_lines in Hov as (l1 & Hout1 & Hall1).
    apply ret_inr in Hp as [_ <-].
    apply IH in H as (l2 & Hout2 & Hall2).
    exists (l1 ++ l2). rewrite Hout2, Hout1, Hinf, <- app_assoc.
    split; [done|]. apply Forall_app. split; [|done].
    eapply Forall_impl; [exact Hall1|]. intros line Hl. by exists tc.
Qed.

(** The course of a [main] that returns: the arguments are printed first,
    then the images of the dataset are worked through, then come the closing
    lines; nothing else touches the files or the standard output. *)
Lemma main_inr args w u w' :
  main X args w = (inr u, w') ->
  exists device imgsz ds args' model w1 model' w2 t,
    load_images X (input_source args) imgsz = inr ds /\
    disk w1 = (images w, texts w, faults w, stdout w ++ [repr_args X args]) /\
    images_loop X device false args' (ds_paths ds) model w1
    = (inr model', w2) /\
    disk w' = (images w2, texts w2, faults w2,
               stdout w2 ++ closing_lines X args t).
Proof.
  unfold main. cbv zeta. intros H.
  apply bind_inr in H as (u0 & wa & Hprint & H). apply print_inr in Hprint.
  apply bind_inr in H as (model & wb & Hm & H).
  apply (keeps_run disk) in Hm; [|unfold yolov5; kp].
  apply bind_inr in H as (ds & wc & Hds & H).
  pose proof Hds as Hdsk.
  apply (keeps_run disk) in Hdsk; [|unfold LoadImages; kp].
  unfold LoadImages in Hds.
  apply bind_inr in Hds as (u1 & wc' & _ & Hds). apply lift_inr in Hds as [Hds _].
  apply bind_inr in H as (nm & wd & Hnm & H).
  apply (keeps_run disk) in Hnm; [|unfold load_names, open_read; kp].
  apply bind_inr in H as (cols & we & Hcols & H).
  apply (keeps_run disk) in Hcols;
    [|unfold random_colors, random_randint; kp].
  apply bind_inr in H as (t0 & wf & Ht0 & H).
  apply (keeps_run disk) in Ht0; [|unfold time_time; kp].
  apply bind_inr in H as (warm & wg & Hwarm & H).
  apply (keeps_run disk) in Hwarm; [|unfold model_call; kp].
  apply bind_inr in H as (model' & wh & Hloop & H).
  apply bind_inr in H as (u2 & wi & Hsaved & H).
  apply bind_inr in H as (t1 & wj & Ht1 & H).
  apply (keeps_run disk) in Ht1; [|unfold time_time; kp].
  apply print_inr in H.
  eexists _, _, ds, _, _, wg, model', wh, (F64.sub t1 t0).
  split; [exact Hds|]. split.
  { rewrite Hwarm, Ht0, Hcols, Hnm, Hdsk, Hm. exact Hprint. }
  split; [exact Hloop|].
  rewrite H. unfold disk in Ht1. injection Ht1 as -> -> -> ->.
  unfold closing_lines.
  cbn [save_txt save_img output_dir with_colors with_names with_mode
       with_webcam] in Hsaved.
  destruct (save_txt args || save_img args); cbn [when] in Hsaved.
  - apply print_inr in Hsaved. unfold disk in Hsaved.
    injection Hsaved as -> -> -> ->.
    cbn [save_txt save_img output_dir with_colors with_names with_mode
         with_webcam].
    by rewrite <- app_assoc.
  - apply ret_inr in Hsaved as [_ <-]. done.
Qed.

End MainPrints.

(** X13.  When [main] returns it has printed the arguments first, then lines that
    end with an inference time and nothing between them, and last the
    closing lines: [Results saved to <output_dir>] if and only if
    [--save_txt] or [--save_img] is given, and the total time. *)
Theorem main_prints (X : Ext) (args : Args) (w : World) :
  (main X args w).1 = inr tt ->
  exists per_image t,
    stdout (main X args w).2
    = stdout w ++ repr_args X args :: per_image ++ closing_lines X args t /\
    Forall (timed_line X) per_image.
Proof.
  destruct (main X args w) as [res w'] eqn:Hrun. simpl. intros ->.
  apply main_inr in Hrun
    as (device & imgsz & ds & args' & model & w1 & model' & w2 & t
        & _ & H1 & Hloop & H2).
  apply images_loop_lines in Hloop as (lines & Hout & Hall).
  exists lines, t. split; [|done].
  unfold disk in H1, H2.
  injection H1 as _ _ _ Ho1. injection H2 as _ _ _ Ho2.
  rewrite Ho2, Hout, Ho1, <- !app_assoc. done.
Qed.

Lemma main_prints_witness :
  exists per_image t,
    stdout (main Demo.ext Demo.args Demo.disk).2
    = stdout Demo.disk ++ repr_args Demo.ext Demo.args
        :: per_image ++ closing_lines Demo.ext Demo.args t /\
    Forall (timed_line Demo.ext) per_image.
Proof.
  apply (main_prints Demo.ext Demo.args Demo.disk).
  vm_compute. reflexivity.
Defined.

(** X14.  When the dataset yields no image and [main] returns, no file is
    touched and nothing is printed for an image; with [--save_txt] or
    [--save_img] the line [Results saved to <output_dir>] is printed all the
    same. *)
Theorem main_empty_dataset (X : Ext) (args : Args) (w : World) :
  (forall imgsz ds,
      load_images X (input_source args) imgsz = inr ds -> ds_paths ds = []) ->
  (main X args w).1 = inr tt ->
  exists t,
    disk (main X args w).2
    = (images w, texts w, faults w,
       stdout w ++ repr_args X args :: closing_lines X args t).
Proof.
  intros Hempty.
  destruct (main X args w) as [res w'] eqn:Hrun. simpl. intros ->.
  apply main_inr in Hrun
    as (device & imgsz & ds & args' & model & w1 & model' & w2 & t
        & Hds & H1 & Hloop & H2).
  rewrite (Hempty _ _ Hds) in Hloop. apply ret_inr in Hloop as [_ <-].
  exists t. rewrite H2. unfold disk in H1.
  injection H1 as -> -> -> ->. by rewrite <- app_assoc.
Qed.

Lemma main_empty_dataset_witness :
  exists t,
    disk (main Demo.ext empty_args Demo.disk).2
    = (images Demo.disk, texts Demo.disk, faults Demo.disk,
       stdout Demo.disk ++ repr_args Demo.ext empty_args
         :: "Results saved to out" :: ["Done. (" +:+ pct_f Demo.ext 3 t +:+ "s)"]).
Proof.
  apply (main_empty_dataset Demo.ext empty_args Demo.disk).
  - intros imgsz ds Hds. vm_compute in Hds. injection Hds as <-. reflexivity.
  - vm_compute. reflexivity.
Defined.

(* ===================================================================== *)
(** ** The calls a run does not make *)
(* ===================================================================== *)

Section Emits.

Variable ok : Event -> bool.
Hypothesis ok_raise : forall e, ok (ERaise e) = true.

Lemma emits_ret {A} (a : A) : emits_only ok (ret a).
Proof. intros w. exists []. by rewrite app_nil_r. Qed.

Lemma emits_bind {A B} (m : M A) (k : A -> M B) :
  emits_only ok m -> (forall a, emits_only ok (k a)) ->
  emits_only ok (bind m k).
Proof.
  intros Hm Hk w. unfold bind. destruct (Hm w) as (t1 & Ht1 & Hok1).
  destruct (m w) as [[e|a] w1]; simpl in *; [by exists t1|].
  destruct (Hk a w1) as (t2 & Ht2 & Hok2).
  exists (t1 ++ t2). rewrite Ht2, Ht1, <- app_assoc. split; [done|].
  rewrite forallb_app. by rewrite Hok1, Hok2.
Qed.

Lemma emits_emit ev : ok ev = true -> emits_only ok (emit ev).
Proof. intros Hev w. exists [ev]. simpl. by rewrite Hev. Qed.

Lemma emits_raise {A} e : emits_only ok (@raise A e).
Proof. intros w. exists [ERaise e]. simpl. by rewrite ok_raise. Qed.

Lemma emits_lift {A} (r : Exn + A) : emits_only ok (lift r).
Proof. destruct r; [apply emits_raise|apply emits_ret]. Qed.

Lemma emits_get {A} (g : World -> A) : emits_only ok (get g).
Proof. intros w. exists []. by rewrite app_nil_r. Qed.

Lemma emits_modify g :
  (forall w, trace (g w) = trace w) -> emits_only ok (modify g).
Proof. intros Hg w. exists []. simpl. by rewrite Hg, app_nil_r. Qed.

Lemma emits_foldM {A S} (body : S -> A -> M S) l s :
  (forall s x, emits_only ok (body s x)) -> emits_only ok (foldM body l s).
Proof.
  intros Hb. revert s. induction l as [|x l IH]; intros s; simpl.
  - apply emits_ret.
  - apply emits_bind; [apply Hb|]. intros s'. apply IH.
Qed.

Lemma emits_when b m : emits_only ok m -> emits_only ok (when b m).
Proof. intros Hm. destruct b; [done|apply emits_ret]. Qed.

End Emits.

Create HintDb emits discriminated.

(** Walks through a computation to show that all its events pass; what is
    left over are the events that do not. *)
Ltac eo :=
  lazymatch goal with
  | |- emits_only _ (bind _ _) => apply emits_bind; [eo | intros; eo]
  | |- emits_only _ (ret _) => apply emits_ret
  | |- emits_only _ (raise _) => apply emits_raise; done
  | |- emits_only _ (lift _) => apply emits_lift; done
  | |- emits_only _ (get _) => apply emits_get
  | |- emits_only _ (emit _) => apply emits_emit; done
  | |- emits_only _ (modify _) =>
      apply emits_modify; intros ?; simpl; repeat case_match; reflexivity
  | |- emits_only _ (when _ _) => apply emits_when; eo
  | |- emits_only _ (foldM _ _ _) => apply emits_foldM; intros; eo
  | |- emits_only _ (if ?b then _ else _) => destruct b; eo
  | |- emits_only _ (match ?x with Some _ => _ | None => _ end) =>
      destruct x; eo
  | |- emits_only _ (match ?x with inl _ => _ | inr _ => _ end) =>
      destruct x; eo
  | |- emits_only _ (match ?x with (_, _) => _ end) => destruct x; eo
  | |- emits_only _ (match ?x with TBoxes _ => _ | _ => _ end) =>
      destruct x; eo
  | |- emits_only _ (match ?x with [] => _ | _ :: _ => _ end) =>
      destruct x; eo
  | |- emits_only _ _ => solve [auto with emits]
  end.

Lemma label_line_emits ok X l :
  (forall e, ok (ERaise e) = true) -> emits_only ok (label_line X l).
Proof.
  intros Hok. unfold label_line. do 6 (destruct l as [|? l]; [eo|]). eo.
Qed.

#[global] Hint Extern 1 (emits_only _ (label_line _ _)) =>
  apply label_line_emits; done : emits.

(** X15.  Without [--save_img], [overlay_boxes] has nothing to do with images:
    whether it returns or raises, it does not read the input image, draws no
    box and writes no image. *)
Theorem overlay_boxes_leaves_images_unread (X : Ext)
    (detections : list Detection) (path : string) (tc : spec_float)
    (args : Args) :
  save_img args = false ->
  emits_only (fun ev => negb (image_event ev))
    (overlay_boxes X detections path tc args).
Proof.
  intros Himg.
  unfold overlay_boxes, overlay_pred, overlay_detection, as_boxes, as_floats,
    as_longs, getitem, index, print, open_append, write.
  rewrite Himg. cbn [andb when]. cbv beta iota.
  eo.
Qed.

Lemma overlay_boxes_leaves_images_unread_witness :
  emits_only (fun ev => negb (image_event ev))
    (overlay_boxes Demo.ext [Some (Demo.pred_of 2); None] "imgs/a.jpg"
       (F64.of_Z 1) Demo.quiet_args).
Proof.
  apply (overlay_boxes_leaves_images_unread Demo.ext
           [Some (Demo.pred_of 2); None] "imgs/a.jpg" (F64.of_Z 1)
           Demo.quiet_args).
  reflexivity.
Defined.

(** X16.  Without [--save_txt], [overlay_boxes] opens no label file and writes no
    line, whether it returns or raises. *)
Theorem overlay_boxes_opens_no_label_file (X : Ext)
    (detections : list Detection) (path : string) (tc : spec_float)
    (args : Args) :
  save_txt args = false ->
  emits_only (fun ev => negb (text_event ev))
    (overlay_boxes X detections path tc args).
Proof.
  intros Htxt.
  unfold overlay_boxes, overlay_pred, overlay_detection, as_boxes, as_floats,
    as_longs, getitem, index, print, imread, imwrite.
  rewrite Htxt. cbv beta iota.
  eo.
Qed.

Lemma overlay_boxes_opens_no_label_file_witness :
  emits_only (fun ev => negb (text_event ev))
    (overlay_boxes Demo.ext [Some (Demo.pred_of 2); None] "imgs/a.jpg"
       (F64.of_Z 1) Demo.quiet_args).
Proof.
  apply (overlay_boxes_opens_no_label_file Demo.ext
           [Some (Demo.pred_of 2); None] "imgs/a.jpg" (F64.of_Z 1)
           Demo.quiet_args).
  reflexivity.
Defined.

(* ===================================================================== *)
(** ** The output directory *)
(* ===================================================================== *)

(** X17.  When the output directory cannot be made, the script ends with the
    error of [mkdir], right after the command line is parsed: the checkpoint
    is not loaded, nothing is printed and no file is touched. *)
Theorem script_needs_the_output_dir (X : Ext) (argv : list string)
    (args : Args) (e : Exn) (w : World) :
  argparse X argv = inr args ->
  output_dir args <> "" ->
  faults w !! Path_str (Path_of (output_dir args)) = Some e ->
  (script X argv w).1 = inl e /\
  trace (script X argv w).2
  = trace w ++ [EParseArgs; EMkdir (Path_str (Path_of (output_dir args)));
                ERaise e] /\
  disk (script X argv w).2 = disk w.
Proof.
  intros Hargs Hdir Hfault.
  apply String.eqb_neq in Hdir.
  unfold script, parse_args, mkdir, bind, emit, get, lift, ret.
  rewrite Hargs. cbn. rewrite Hdir. cbn. rewrite Hfault. cbn.
  by rewrite <- !app_assoc.
Qed.

Lemma script_needs_the_output_dir_witness :
  (script Demo.ext Demo.argv locked_disk).1 = inl (OSError "out") /\
  trace (script Demo.ext Demo.argv locked_disk).2
  = trace locked_disk ++ [EParseArgs; EMkdir "out"; ERaise (OSError "out")] /\
  disk (script Demo.ext Demo.argv locked_disk).2 = disk locked_disk.
Proof.
  apply (script_needs_the_output_dir Demo.ext Demo.argv Demo.args
           (OSError "out") locked_disk).
  - reflexivity.
  - vm_compute. discriminate.
  - reflexivity.
Defined.

Lemma emits_after_parse ok {A B} ev (r : Exn + A) (k : A -> M B) :
  (forall e, ok (ERaise e) = true) ->
  ok ev = true ->
  (forall a, r = inr a -> emits_only ok (k a)) ->
  emits_only ok (bind (bind (emit ev) (fun _ => lift r)) k).
Proof.
  intros Hok Hev Hk. destruct r as [e|a]; intros w.
  - exists [ev; ERaise e]. unfold bind, emit, lift, raise. simpl.
    rewrite <- app_assoc. split; [done|]. by rewrite Hev, Hok.
  - destruct (Hk a eq_refl (log ev w)) as (t & Ht & Hall).
    exists (ev :: t). unfold bind, emit, lift, ret. simpl.
    rewrite Ht. simpl. rewrite <- app_assoc. split; [done|].
    by rewrite Hev, Hall.
Qed.

Lemma inference_no_mkdir X model path device is_half :
  emits_only (fun ev => negb (is_mkdir ev))
    (inference X model path device is_half).
Proof.
  unfold inference, read_image, imread, time_synchronized, time_time,
    model_call.
  eo.
Qed.

Lemma overlay_boxes_no_mkdir X detections path tc args :
  emits_only (fun ev => negb (is_mkdir ev))
    (overlay_boxes X detections path tc args).
Proof.
  unfold overlay_boxes, overlay_pred, overlay_detection, as_boxes, as_floats,
    as_longs, getitem, index, print, open_append, write, imread, imwrite.
  eo.
Qed.

#[global] Hint Resolve inference_no_mkdir overlay_boxes_no_mkdir : emits.

Lemma main_makes_no_directory X args :
  emits_only (fun ev => negb (is_mkdir ev)) (main X args).
Proof.
  unfold main, yolov5, LoadImages, load_names, open_read, random_colors,
    random_randint, images_loop, process_image, model_call, time_time, print.
  cbv zeta. eo.
Qed.

(** X18.  With an empty [--output_dir] the script makes no directory, in no run:
    the call of [mkdir] is skipped and [main] makes none. *)
Theorem script_skips_mkdir (X : Ext) (argv : list string) :
  (forall args, argparse X argv = inr args -> output_dir args = "") ->
  emits_only (fun ev => negb (is_mkdir ev)) (script X argv).
Proof.
  intros Hargs. unfold script, parse_args.
  apply emits_after_parse; [done|done|]. intros args Ha.
  rewrite (Hargs args Ha). cbn [String.eqb negb when].
  apply emits_bind; [apply emits_ret|]. intros _.
  apply main_makes_no_directory.
Qed.

Lemma script_skips_mkdir_witness :
  emits_only (fun ev => negb (is_mkdir ev)) (script Demo.ext here_argv).
Proof.
  apply (script_skips_mkdir Demo.ext here_argv).
  intros args Ha. injection Ha as <-. reflexivity.
Defined.

(* ===================================================================== *)
(** ** An image that cannot be read *)
(* ===================================================================== *)

(** X19.  For a path under which there is no image that OpenCV can decode,
    [inference] raises the RuntimeError of [permute] (not an error about the
    file), and it does so before the clock is read and before the model is
    run: its events are its entry, the read and the raise. *)
Theorem inference_stops_before_the_model (X : Ext) (model : Model)
    (path : string) (device : Device) (is_half : bool) (w : World) :
  images w !! path = None ->
  (inference X model path device is_half w).1
  = inl (RuntimeError "permute: number of dims don't match") /\
  trace (inference X model path device is_half w).2
  = trace w ++ [EInference path; EImread path;
                ERaise (RuntimeError "permute: number of dims don't match")] /\
  ticks (inference X model path device is_half w).2 = ticks w /\
  disk (inference X model path device is_half w).2 = disk w.
Proof.
  intros Hnone.
  unfold inference, read_image, imread, bind, emit, get, lift. cbn.
  rewrite Hnone. cbn. by rewrite <- !app_assoc.
Qed.

Lemma inference_stops_before_the_model_witness :
  (inference Demo.ext Demo.model "imgs/none.jpg" Cpu false Demo.disk).1
  = inl (RuntimeError "permute: number of dims don't match") /\
  trace (inference Demo.ext Demo.model "imgs/none.jpg" Cpu false Demo.disk).2
  = trace Demo.disk
    ++ [EInference "imgs/none.jpg"; EImread "imgs/none.jpg";
        ERaise (RuntimeError "permute: number of dims don't match")] /\
  ticks (inference Demo.ext Demo.model "imgs/none.jpg" Cpu false Demo.disk).2
  = ticks Demo.disk /\
  disk (inference Demo.ext Demo.model "imgs/none.jpg" Cpu false Demo.disk).2
  = disk Demo.disk.
Proof.
  apply (inference_stops_before_the_model Demo.ext Demo.model "imgs/none.jpg"
           Cpu false Demo.disk).
  reflexivity.
Defined.

(* ===================================================================== *)
(** ** Boxes, scores and labels of different lengths *)
(* ===================================================================== *)

Lemma zip3_lookup {A B C} (a : list A) (b : list B) (c : list C) k :
  zip3 a b c !! k
  = match a !! k, b !! k, c !! k with
    | Some x, Some y, Some z => Some (x, y, z)
    | _, _, _ => None
    end.
Proof.
  revert b c k. induction a as [|x a IH]; intros b c k; [done|].
  destruct b as [|y b]; [by destruct ((x :: a) !! k)|].
  destruct c as [|z c]; [by destruct ((x :: a) !! k), ((y :: b) !! k)|].
  destruct k; [done|]. exact (IH b c k).
Qed.

Lemma zip3_length {A B C} (a : list A) (b : list B) (c : list C) :
  length (zip3 a b c)
  = Nat.min (length a) (Nat.min (length b) (length c)).
Proof.
  revert b c. induction a as [|x a IH]; intros [|y b] [|z c];
    cbn [zip3 length]; try done; try lia.
  rewrite IH. lia.
Qed.

(** [torch.round] gives the nearest whole number, a tie going to the even
    one. *)
Lemma round_rounded x : rounded_to_whole x (F32.round x).
Proof.
  destruct x as [s|s| |s m e]; try done.
  cbn [rounded_to_whole F32.round].
  destruct (0 <=? e) eqn:He; [done|]. apply Z.leb_gt in He. cbv zeta.
  assert (Hd : 0 < 2 ^ (- e)) by (apply Z.pow_pos_nonneg; lia).
  pose proof (Z.div_mod (Z.pos m) (2 ^ (- e)) ltac:(lia)) as Hdm.
  pose proof (Z.mod_pos_bound (Z.pos m) (2 ^ (- e)) Hd) as Hr.
  assert (Hq : 0 <= Z.pos m / 2 ^ (- e)) by (apply Z.div_pos; lia).
  set (d := 2 ^ (- e)) in *.
  set (q := Z.pos m / d) in *. set (r := Z.pos m mod d) in *.
  assert (Hof : forall n, n <> 0 ->
    binary_normalize F32.prec F32.emax (if s then - n else n) 0 s
    = F32.of_Z (if s then - n else n)).
  { intros n Hn. unfold F32.of_Z. destruct s, n; done. }
  assert (Hout : forall n,
    (if n =? 0 then S754_zero s
     else binary_normalize F32.prec F32.emax (if s then - n else n) 0 s)
    = (if n =? 0 then S754_zero s else F32.of_Z (if s then - n else n))).
  { intros n. destruct (n =? 0) eqn:Hn; [done|]. apply Hof. lia. }
  rewrite Hout.
  destruct (2 * r <? d) eqn:H1; [apply Z.ltb_lt in H1|apply Z.ltb_ge in H1].
  { exists q. replace (Z.pos m - q * d) with r by lia.
    repeat split; [done|lia|lia]. }
  destruct (d <? 2 * r) eqn:H2; [apply Z.ltb_lt in H2|apply Z.ltb_ge in H2].
  { exists (q + 1). replace (Z.pos m - (q + 1) * d) with (r - d) by lia.
    repeat split; [lia|lia|lia]. }
  destruct (Z.even q) eqn:Hev.
  { exists q. replace (Z.pos m - q * d) with r by lia.
    repeat split; [done|lia|done]. }
  exists (q + 1). replace (Z.pos m - (q + 1) * d) with (r - d) by lia.
  repeat split; [lia|lia|]. intros _. by rewrite Z.even_add, Hev.
Qed.

(** A finite number rounded to a whole number is a whole number. *)
Lemma rounded_whole x y :
  rounded_to_whole x y -> is_finite x = true -> whole y.
Proof.
  assert (Hz : forall s, whole (S754_zero s)).
  { intros [|]; [right; by left|]. left. by exists 0. }
  destruct x as [s|s| |s m e]; simpl; try done.
  - by intros -> _.
  - destruct (0 <=? e) eqn:He.
    + intros -> _. right; right. exists s, m, e. split; [done|lia].
    + intros (n & _ & _ & _ & ->) _.
      destruct (n =? 0); [apply Hz|]. left. by eexists.
Qed.

Lemma round_box_rounded b : box_rounded b (round_box b).
Proof.
  destruct b as [[[x0 y0] x1] y1]. repeat split; apply round_rounded.
Qed.

Lemma round_boxes_rounded b : Forall2 box_rounded b (map round_box b).
Proof. induction b; constructor; [apply round_box_rounded|done]. Qed.

Lemma box_rounded_whole b b' :
  box_rounded b b' ->
  box_all (fun x => is_finite x = true) b -> box_all whole b'.
Proof.
  destruct b as [[[x0 y0] x1] y1], b' as [[[x0' y0'] x1'] y1'].
  intros (H0 & H1 & H2 & H3) (F0 & F1 & F2 & F3).
  repeat split; by eapply rounded_whole.
Qed.

Lemma detections_paired b sc lb :
  paired (map round_box b) sc lb (detections_of b sc lb).
Proof.
  unfold detections_of. split; [apply zip3_length|].
  intros k. apply zip3_lookup.
Qed.

(** X20.  The loop body of [overlay_boxes] pairs the rounded boxes, the
    scores and the labels of a prediction by position and stops with the
    shortest of the three: when it returns, the label lines it has written
    (with [save_txt]) and the boxes it has drawn (with [save_img]) are
    those of as many detections as the shortest holds, the k-th made of the
    k-th rounded box, score and label.  What the longer ones hold beyond
    that is neither written nor drawn, although the function keeps, and
    returns, all boxes, scores and labels. *)
Theorem detections_stop_with_the_shortest (X : Ext) (args : Args)
    (path : string) (tc : spec_float) (st : Locals) (i : nat)
    (pred : gmap string tval) (b : list box) (sc : list spec_float)
    (lb : list Z) (w : World) :
  pred !! "boxes" = Some (TBoxes b) ->
  pred !! "scores" = Some (TFloats sc) ->
  pred !! "labels" = Some (TLongs lb) ->
  returned (overlay_pred X args path tc st (i, Some pred) w).1 = true ->
  exists st' bx dets,
    (overlay_pred X args path tc st (i, Some pred) w).1 = inr st' /\
    l_bound st' = Some (bx, sc, lb) /\
    Forall2 box_rounded b bx /\
    paired bx sc lb dets /\
    (save_txt args = true ->
     texts (overlay_pred X args path tc st (i, Some pred) w).2
     = appended_all (txt_file_of args path) (map (label_text X) dets)
         (texts w)) /\
    (save_img args = true ->
     l_img st' = draw_detections X args (l_img st) dets).
Proof.
  intros Hb Hs Hl Hret.
  destruct (overlay_pred X args path tc st (i, Some pred) w)
    as [[e|st'] w'] eqn:Hrun; [done|].
  destruct (overlay_pred_effect _ _ _ _ _ _ _ _ _ _ _ _ _ Hb Hs Hl Hrun)
    as (summary & _ & Hbound & Himg & Htexts & _).
  exists st', (map round_box b), (detections_of b sc lb). simpl.
  split; [done|]. split; [done|]. split; [apply round_boxes_rounded|].
  split; [apply detections_paired|]. split.
  - intros Htxt. by rewrite Htxt in Htexts.
  - intros Hsave. by rewrite Hsave in Himg.
Qed.

Lemma detections_stop_with_the_shortest_witness :
  exists st' bx dets,
    (overlay_pred Demo.ext Demo.main_args "imgs/a.jpg" (F64.of_Z 1)
       Demo.start
       (0%nat, Some (<["labels" := TLongs [1; 0; 1]]> (Demo.pred_of 2)))
       Demo.disk).1 = inr st' /\
    l_bound st' = Some (bx, Demo.two_scores, [1; 0; 1]) /\
    Forall2 box_rounded Demo.two_boxes bx /\
    paired bx Demo.two_scores [1; 0; 1] dets /\
    (save_txt Demo.main_args = true ->
     texts (overlay_pred Demo.ext Demo.main_args "imgs/a.jpg" (F64.of_Z 1)
              Demo.start
              (0%nat, Some (<["labels" := TLongs [1; 0; 1]]> (Demo.pred_of 2)))
              Demo.disk).2
     = appended_all (txt_file_of Demo.main_args "imgs/a.jpg")
         (map (label_text Demo.ext) dets) (texts Demo.disk)) /\
    (save_img Demo.main_args = true ->
     l_img st' = draw_detections Demo.ext Demo.main_args (l_img Demo.start)
                   dets).
Proof.
  apply (detections_stop_with_the_shortest Demo.ext Demo.main_args
           "imgs/a.jpg" (F64.of_Z 1) Demo.start 0
           (<["labels" := TLongs [1; 0; 1]]> (Demo.pred_of 2))
           Demo.two_boxes Demo.two_scores [1; 0; 1] Demo.disk).
  - reflexivity.
  - reflexivity.
  - reflexivity.
  - vm_compute. reflexivity.
Defined.

(* ===================================================================== *)
(** ** Post-processing of one prediction *)
(* ===================================================================== *)

Lemma count_eq_occ c l : count_eq c l = Z.of_nat (count_occ Z.eq_dec l c).
Proof.
  unfold count_eq. f_equal. induction l as [|x l IH]; [done|].
  rewrite filter_cons. cbn [count_occ].
  destruct (decide (x = c)) as [Hx|Hx], (Z.eq_dec x c) as [Hy|Hy];
    try done. cbn [length]. by rewrite IH.
Qed.

(** The summary the code builds with [count_eq] is the text of the
    summary. *)
Lemma class_summary_text X class_names labels classes :
  class_summary X class_names labels classes
  = summary_text X class_names labels classes.
Proof.
  induction classes as [|c classes IH]; [done|].
  cbn [class_summary summary_text]. by rewrite IH, count_eq_occ.
Qed.

(** C7.  For a prediction that holds boxes, scores and labels, on which the
    body of the loop of [overlay_boxes] returns.  The boxes the function
    keeps are the prediction's with every coordinate rounded to the nearest
    whole number, a tie going to the even one, so every finite coordinate
    has become a whole number.  The line printed holds the per-class
    summary: for each label that occurs, once and in increasing order, the
    number of detections that carry it and the name of the class.  With
    [save_txt] set, one line is appended to the label file for each
    detection, these being the rounded boxes, the scores and the labels
    paired by position, and each line holds five numbers: the label, then
    the four numbers that [box_xyxy_to_cxcywh] makes of the rounded box,
    its centre, width and height. *)
Theorem overlay_pred_postprocesses (X : Ext) (args : Args) (path : string)
    (tc : spec_float) (st : Locals) (i : nat) (pred : gmap string tval)
    (b : list box) (sc : list spec_float) (lb : list Z) (w : World) :
  pred !! "boxes" = Some (TBoxes b) ->
  pred !! "scores" = Some (TFloats sc) ->
  pred !! "labels" = Some (TLongs lb) ->
  returned (overlay_pred X args path tc st (i, Some pred) w).1 = true ->
  exists st' bx classes summary dets,
    (overlay_pred X args path tc st (i, Some pred) w).1 = inr st' /\
    l_bound st' = Some (bx, sc, lb) /\
    Forall2 box_rounded b bx /\
    Forall2 (fun box box' =>
               box_all (fun x => is_finite x = true) box ->
               box_all whole box') b bx /\
    StronglySorted Z.lt classes /\
    (forall c, c ∈ classes <-> c ∈ lb) /\
    summary_text X (names args) lb classes = Some summary /\
    stdout (overlay_pred X args path tc st (i, Some pred) w).2
    = stdout w ++
      [(if webcam args then pct_g X (F64.of_Z (Z.of_nat i)) +:+ ": " else "")
       +:+ summary +:+ "Done. (" +:+ pct_f X 3 tc +:+ "s)"] /\
    paired bx sc lb dets /\
    (save_txt args = true ->
     texts (overlay_pred X args path tc st (i, Some pred) w).2
     = appended_all (txt_file_of args path) (map (label_text X) dets)
         (texts w) /\
     (dets <> [] ->
      texts (overlay_pred X args path tc st (i, Some pred) w).2
        !! txt_file_of args path
      = Some (default "" (texts w !! txt_file_of args path)
              +:+ label_texts X dets))).
Proof.
  intros Hb Hs Hl Hret.
  destruct (overlay_pred X args path tc st (i, Some pred) w)
    as [[e|st'] w'] eqn:Hrun; [done|].
  destruct (overlay_pred_effect _ _ _ _ _ _ _ _ _ _ _ _ _ Hb Hs Hl Hrun)
    as (summary & Hsum & Hbound & _ & Htexts & Hout & _ & _).
  exists st', (map round_box b), (unique lb), summary, (detections_of b sc lb).
  simpl. split; [done|]. split; [done|].
  split; [apply round_boxes_rounded|].
  split.
  { eapply Forall2_impl; [apply round_boxes_rounded|].
    intros box box'. apply box_rounded_whole. }
  split; [apply unique_sorted|]. split; [intros c; apply elem_of_unique|].
  split; [by rewrite <- class_summary_text|]. split; [done|].
  split; [apply detections_paired|].
  intros Htxt. rewrite Htxt in Htexts. split; [done|].
  intros Hne. rewrite Htexts, appended_all_lookup, label_texts_foldr; [done|].
  by destruct (detections_of b sc lb).
Qed.

Lemma overlay_pred_postprocesses_witness :
  exists st' bx classes summary dets,
    (overlay_pred Demo.ext Demo.main_args "imgs/a.jpg" (F64.of_Z 1)
       Demo.start (0%nat, Some (Demo.pred_of 2)) Demo.disk).1 = inr st' /\
    l_bound st' = Some (bx, Demo.two_scores, Demo.two_labels) /\
    Forall2 box_rounded Demo.two_boxes bx /\
    Forall2 (fun box box' =>
               box_all (fun x => is_finite x = true) box ->
               box_all whole box') Demo.two_boxes bx /\
    StronglySorted Z.lt classes /\
    (forall c, c ∈ classes <-> c ∈ Demo.two_labels) /\
    summary_text Demo.ext (names Demo.main_args) Demo.two_labels classes
    = Some summary /\
    stdout (overlay_pred Demo.ext Demo.main_args "imgs/a.jpg" (F64.of_Z 1)
              Demo.start (0%nat, Some (Demo.pred_of 2)) Demo.disk).2
    = stdout Demo.disk ++
      [(if webcam Demo.main_args
        then pct_g Demo.ext (F64.of_Z (Z.of_nat 0)) +:+ ": " else "")
       +:+ summary +:+ "Done. (" +:+ pct_f Demo.ext 3 (F64.of_Z 1) +:+ "s)"] /\
    paired bx Demo.two_scores Demo.two_labels dets /\
    (save_txt Demo.main_args = true ->
     texts (overlay_pred Demo.ext Demo.main_args "imgs/a.jpg" (F64.of_Z 1)
              Demo.start (0%nat, Some (Demo.pred_of 2)) Demo.disk).2
     = appended_all (txt_file_of Demo.main_args "imgs/a.jpg")
         (map (label_text Demo.ext) dets) (texts Demo.disk) /\
     (dets <> [] ->
      texts (overlay_pred Demo.ext Demo.main_args "imgs/a.jpg" (F64.of_Z 1)
               Demo.start (0%nat, Some (Demo.pred_of 2)) Demo.disk).2
        !! txt_file_of Demo.main_args "imgs/a.jpg"
      = Some (default "" (texts Demo.disk
                            !! txt_file_of Demo.main_args "imgs/a.jpg")
              +:+ label_texts Demo.ext dets))).
Proof.
  apply (overlay_pred_postprocesses Demo.ext Demo.main_args "imgs/a.jpg"
           (F64.of_Z 1) Demo.start 0 (Demo.pred_of 2)
           Demo.two_boxes Demo.two_scores Demo.two_labels Demo.disk).
  - reflexivity.
  - reflexivity.
  - reflexivity.
  - vm_compute. reflexivity.
Defined.

(** The run of the witness in figures: the box with corner 30.5 is kept
    with corner 30 (a tie, to the even side), the summary counts one car
    and one person, and the label file gets one line for each. *)
Example postprocessing_in_figures :
  match (overlay_pred Demo.ext Demo.main_args "imgs/a.jpg" (F64.of_Z 1)
           Demo.start (0%nat, Some (Demo.pred_of 2)) Demo.disk).1 with
  | inr st' => l_bound st'
  | inl _ => None
  end
  = Some ([(Demo.f 10, Demo.f 20, Demo.f 30, Demo.f 80);
           (Demo.f 0, Demo.f 0, Demo.f 5, Demo.f 4)],
          Demo.two_scores, Demo.two_labels) /\
  stdout (overlay_pred Demo.ext Demo.main_args "imgs/a.jpg" (F64.of_Z 1)
            Demo.start (0%nat, Some (Demo.pred_of 2)) Demo.disk).2
  = ["1 persons, 1 cars, Done. (1.000s)"] /\
  texts (overlay_pred Demo.ext Demo.main_args "imgs/a.jpg" (F64.of_Z 1)
           Demo.start (0%nat, Some (Demo.pred_of 2)) Demo.disk).2
    !! "out/a.txt"
  = Some ("1 20 50 20 60 " +:+ String "010" ("0 2.5 2 5 4 " +:+ String "010" "")).
Proof. repeat split; vm_compute; reflexivity. Qed.

(* ===================================================================== *)
(** ** Which failures reach the caller of [main] *)
(* ===================================================================== *)

Lemma run_then {A B} (m : M A) (k : A -> M B) w a w1 r :
  m w = (inr a, w1) -> k a w1 = r -> bind m k w = r.
Proof. intros H <-. unfold bind. by rewrite H. Qed.

Lemma raises_fst {A} (m : M A) w e :
  (exists w', m w = (inl e, w')) -> (m w).1 = inl e.
Proof. intros [w' ->]. done. Qed.

Lemma foldM_app {A S} (f : S -> A -> M S) l1 l2 s w :
  foldM f (l1 ++ l2) s w = bind (foldM f l1 s) (foldM f l2) w.
Proof.
  revert s w. induction l1 as [|x l1 IH]; intros s w; [done|].
  cbn [app foldM]. unfold bind.
  destruct (f s x w) as [[e|s1] w1]; [done|]. apply IH.
Qed.

Section Propagation.

Variable X : Ext.

Lemma print_run line w :
  print line w
  = (inr tt, set_stdout (stdout w ++ [line]) (log (EPrint line) w)).
Proof. reflexivity. Qed.

Lemma time_time_run w :
  time_time X w = (inr (now X (ticks w)), set_ticks (S (ticks w)) w).
Proof. reflexivity. Qed.

Lemma yolov5_ok cfg ckpt m w :
  hub_yolov5 X cfg ckpt = inr m ->
  yolov5 X cfg ckpt w = (inr m, log (ELoadModel cfg ckpt) w).
Proof. intros H. unfold yolov5, bind, emit, lift. by rewrite H. Qed.

Lemma yolov5_fails cfg ckpt e w :
  hub_yolov5 X cfg ckpt = inl e ->
  yolov5 X cfg ckpt w = (inl e, log (ERaise e) (log (ELoadModel cfg ckpt) w)).
Proof. intros H. unfold yolov5, bind, emit, lift. by rewrite H. Qed.

Lemma LoadImages_ok src imgsz ds w :
  load_images X src imgsz = inr ds ->
  LoadImages X src imgsz w = (inr ds, log (ELoadImages src) w).
Proof. intros H. unfold LoadImages, bind, emit, lift. by rewrite H. Qed.

Lemma LoadImages_fails src imgsz e w :
  load_images X src imgsz = inl e ->
  LoadImages X src imgsz w
  = (inl e, log (ERaise e) (log (ELoadImages src) w)).
Proof. intros H. unfold LoadImages, bind, emit, lift. by rewrite H. Qed.

Lemma model_call_ok m inputs out w :
  forward X m inputs = inr out ->
  model_call X m inputs w = (inr out, log EForward w).
Proof. intros H. unfold model_call, bind, emit, lift. by rewrite H. Qed.

Lemma model_call_fails m inputs e w :
  forward X m inputs = inl e ->
  model_call X m inputs w = (inl e, log (ERaise e) (log EForward w)).
Proof. intros H. unfold model_call, bind, emit, lift. by rewrite H. Qed.

Lemma load_names_ok path content w :
  faults w !! path = None -> texts w !! path = Some content ->
  load_names path w
  = (inr (map strip (file_lines content)), log (EOpenRead path) w).
Proof.
  intros Hf Ht. unfold load_names, open_read, bind, emit, get, ret. cbn.
  rewrite Hf. cbn. by rewrite Ht.
Qed.

Lemma load_names_fault path e w :
  faults w !! path = Some e ->
  load_names path w = (inl e, log (ERaise e) (log (EOpenRead path) w)).
Proof.
  intros Hf. unfold load_names, open_read, bind, emit, get, raise. cbn.
  by rewrite Hf.
Qed.

Lemma load_names_missing path w :
  faults w !! path = None -> texts w !! path = None ->
  load_names path w
  = (inl (FileNotFoundError path),
     log (ERaise (FileNotFoundError path)) (log (EOpenRead path) w)).
Proof.
  intros Hf Ht. unfold load_names, open_read, bind, emit, get, raise. cbn.
  rewrite Hf. cbn. by rewrite Ht.
Qed.

Lemma inference_unreadable model path device is_half w :
  images w !! path = None ->
  exists w',
    inference X model path device is_half w
    = (inl (RuntimeError "permute: number of dims don't match"), w').
Proof.
  intros Hnone. eexists.
  unfold inference, read_image, imread, bind, emit, get, lift. cbn.
  rewrite Hnone. cbn. reflexivity.
Qed.

(** The summary loop goes through when every class has a name. *)
Lemma summary_runs class_names labels classes s w summary :
  class_summary X class_names labels classes = Some summary ->
  foldM (fun s c =>
           let n := count_eq c labels in
           do name <- index "names" class_names c;
           ret (s +:+ pct_g X (F64.of_Z n) +:+ " " +:+ name +:+ "s, "))
        classes s w
  = (inr (s +:+ summary), w).
Proof.
  revert s summary. induction classes as [|c classes IH]; intros s summary.
  - intros [= <-]. cbn [foldM]. by rewrite string_app_nil_r.
  - cbn [class_summary foldM]. unfold index at 1.
    destruct (py_index class_names c) as [name|]; [|done].
    destruct (class_summary X class_names labels classes) as [tail|];
      [|done].
    intros [= <-]. rewrite !bind_ret_l, (IH _ tail eq_refl).
    by rewrite !string_app_assoc.
Qed.

(** A label file that cannot be opened stops the detection at hand. *)
Lemma overlay_detection_fault args txt_path img det e w :
  save_txt args = true ->
  faults w !! (Path_str txt_path +:+ ".txt") = Some e ->
  overlay_detection X args txt_path img det w
  = (inl e, log (ERaise e) (log (EOpenAppend (Path_str txt_path +:+ ".txt")) w)).
Proof.
  intros Htxt Hf. destruct det as [[xyxy conf] cls].
  unfold overlay_detection. rewrite Htxt.
  destruct (box_xyxy_to_cxcywh X xyxy) as [[[cx cy] bw] bh].
  apply bind_fail, bind_fail.
  unfold open_append, bind, emit, get, raise. cbn. by rewrite Hf.
Qed.

Lemma overlay_pred_label_fault args path tc st i pred b sc lb summary e w :
  pred !! "boxes" = Some (TBoxes b) ->
  pred !! "scores" = Some (TFloats sc) ->
  pred !! "labels" = Some (TLongs lb) ->
  class_summary X (names args) lb (unique lb) = Some summary ->
  detections_of b sc lb <> [] ->
  save_txt args = true ->
  faults w !! txt_file_of args path = Some e ->
  exists w', overlay_pred X args path tc st (i, Some pred) w = (inl e, w').
Proof.
  intros Hb Hs Hl Hsum Hne Htxt Hf. eexists.
  unfold overlay_pred. rewrite (size_lookup_pos _ _ _ Hb).
  rewrite (getitem_some _ _ _ Hb), bind_ret_l. cbn [as_boxes].
  rewrite bind_ret_l, (getitem_some _ _ _ Hs), bind_ret_l. cbn [as_floats].
  rewrite bind_ret_l, (getitem_some _ _ _ Hl), bind_ret_l. cbn [as_longs].
  rewrite bind_ret_l.
  apply bind_fail. eapply run_then; [by apply summary_runs|].
  apply bind_fail. unfold detections_of in Hne.
  destruct (zip3 (map round_box b) sc lb) as [|det dets]; [done|].
  cbn [foldM]. apply bind_fail.
  by apply overlay_detection_fault.
Qed.

Lemma overlay_boxes_label_fault args path tc pred b sc lb summary e w :
  pred !! "boxes" = Some (TBoxes b) ->
  pred !! "scores" = Some (TFloats sc) ->
  pred !! "labels" = Some (TLongs lb) ->
  class_summary X (names args) lb (unique lb) = Some summary ->
  detections_of b sc lb <> [] ->
  save_txt args = true ->
  faults w !! txt_file_of args path = Some e ->
  exists w', overlay_boxes X [Some pred] path tc args w = (inl e, w').
Proof.
  intros Hb Hs Hl Hsum Hne Htxt Hf. unfold overlay_boxes.
  assert (exists img w1,
    (if save_img args then imread path else ret None)
      (log (EOverlay path) w) = (inr img, w1) /\
    faults w1 = faults w) as (img & w1 & Himg & Hf1).
  { destruct (save_img args); eexists _, _; split; reflexivity. }
  rewrite <- Hf1 in Hf.
  destruct (overlay_pred_label_fault args path tc
              {| l_img := img; l_bound := None |} 0 pred b sc lb summary e w1
              Hb Hs Hl Hsum Hne Htxt Hf) as [w' Hpred].
  exists w'. eapply run_then; [reflexivity|].
  eapply run_then; [exact Himg|].
  apply bind_fail. cbn [length seq zip zip_with foldM].
  by apply bind_fail.
Qed.

(** The loop of [main] stops at the first image that fails. *)
Lemma images_loop_stops device is_half args pre p post model m1 w0 w1 e w2 :
  images_loop X device is_half args pre model w0 = (inr m1, w1) ->
  process_image X device is_half args m1 p w1 = (inl e, w2) ->
  images_loop X device is_half args (pre ++ p :: post) model w0 = (inl e, w2).
Proof.
  unfold images_loop. intros Hpre Hp. rewrite foldM_app.
  eapply run_then; [exact Hpre|]. cbn [foldM]. by apply bind_fail.
Qed.

(** Where [main] stands when it is about to run the model for the first
    time, for a run in which the checkpoint, the dataset and the label map
    were no problem. *)
Lemma main_reaches_warmup args w m ds content :
  hub_yolov5 X (model_cfg args) (checkpoint args) = inr m ->
  load_images X (input_source args) (main_imgsz X args m) = inr ds ->
  faults w !! labelmap_path args = None ->
  texts w !! labelmap_path args = Some content ->
  exists args1 w0 rest,
    main X args w
    = bind (model_call X (main_model X args m)
              [zeros3 (main_imgsz X args m) (main_device X args)])
        (fun _ =>
           bind (images_loop X (main_device X args) false args1 (ds_paths ds)
                   (main_model X args m)) rest) w0 /\
    disk w0 = (images w, texts w, faults w, stdout w ++ [repr_args X args]) /\
    save_txt args1 = save_txt args /\ save_img args1 = save_img args /\
    output_dir args1 = output_dir args /\ mode args1 = ds_mode ds /\
    names args1 = map strip (file_lines content).
Proof.
  intros Hhub Hds Hf Ht.
  set (wc := log (EOpenRead (labelmap_path args))
               (log (ELoadImages (input_source args))
                  (log (ELoadModel (model_cfg args) (checkpoint args))
                     (set_stdout (stdout w ++ [repr_args X args])
                        (log (EPrint (repr_args X args)) w))))).
  destruct (random_colors_loop X
              (seq 0 (length (map strip (file_lines content)))) [] wc)
    as (w' & Hcol & _ & Hdisk & _ & _).
  eexists _, _, _. split.
  { unfold main, random_colors. cbv zeta.
    eapply run_then; [apply print_run|].
    eapply run_then; [exact (yolov5_ok _ _ _ _ Hhub)|].
    eapply run_then; [exact (LoadImages_ok _ _ _ _ Hds)|].
    eapply run_then; [apply load_names_ok; [exact Hf|exact Ht]|].
    eapply run_then; [exact Hcol|].
    eapply run_then; [apply time_time_run|].
    reflexivity. }
  split; [exact Hdisk|]. done.
Qed.

Lemma imwrite_fault path m e w :
  faults w !! path = Some e ->
  imwrite path (Some m) w = (inr false, log (EImwrite path) w).
Proof.
  intros Hf. unfold imwrite, bind, emit, get, ret. cbn. by rewrite Hf.
Qed.

(** A failed [cv2.imwrite] is not an exception: the loop body goes on and
    returns, and no image file has changed. *)
Lemma overlay_pred_write_fault args path tc st i m e w :
  save_img args = true ->
  mode args = "images" ->
  l_img st = Some m ->
  faults w !! save_path_of args path = Some e ->
  exists w',
    overlay_pred X args path tc st (i, None) w = (inr st, w') /\
    images w' = images w.
Proof.
  intros Himg Hmode Hm Hf. unfold save_path_of in Hf. eexists. split.
  - unfold overlay_pred.
    eapply run_then; [reflexivity|]. cbv beta iota.
    eapply run_then; [apply print_run|].
    rewrite Himg, Hmode. cbn [andb]. rewrite String.eqb_refl. cbn [when].
    rewrite Hm.
    eapply run_then; [|reflexivity].
    eapply run_then; [|reflexivity].
    apply (imwrite_fault _ _ e). exact Hf.
  - reflexivity.
Qed.

End Propagation.

(** C3, amended.  Nothing in [main] catches an exception, so whatever a call
    raises is what [main] raises, and nothing runs after it.  This is so
    for a checkpoint that does not load, for a dataset that cannot be set
    up, for a label map that cannot be opened (the error of [open]) or is
    not there ([FileNotFoundError]), for a first forward pass that fails,
    and for whatever the loop over the images raises: the loop stops at the
    first image whose [inference] or [overlay_boxes] raises, an image that
    cannot be decoded makes [inference] raise the RuntimeError of
    [permute], and a label file that cannot be opened makes [overlay_boxes]
    raise the error of [open].  In all these runs one exception is raised,
    once, as the last thing the run does.  A failed write of the annotated
    image is not among them: [cv2.imwrite] raises nothing, and the loop
    body returns with no image written. *)
Theorem main_propagates_exceptions (X : Ext) (args : Args) (w : World) :
  (forall e,
     hub_yolov5 X (model_cfg args) (checkpoint args) = inl e ->
     (main X args w).1 = inl e) /\
  (forall m,
     hub_yolov5 X (model_cfg args) (checkpoint args) = inr m ->
     (forall e,
        load_images X (input_source args) (main_imgsz X args m) = inl e ->
        (main X args w).1 = inl e) /\
     (forall ds,
        load_images X (input_source args) (main_imgsz X args m) = inr ds ->
        (forall e,
           faults w !! labelmap_path args = Some e ->
           (main X args w).1 = inl e) /\
        (faults w !! labelmap_path args = None ->
         texts w !! labelmap_path args = None ->
         (main X args w).1 = inl (FileNotFoundError (labelmap_path args))) /\
        (forall content,
           faults w !! labelmap_path args = None ->
           texts w !! labelmap_path args = Some content ->
           (forall e,
              forward X (main_model X args m)
                [zeros3 (main_imgsz X args m) (main_device X args)] = inl e ->
              (main X args w).1 = inl e) /\
           (forall warm,
              forward X (main_model X args m)
                [zeros3 (main_imgsz X args m) (main_device X args)]
              = inr warm ->
              exists args1 w1,
                disk w1 = (images w, texts w, faults w,
                           stdout w ++ [repr_args X args]) /\
                save_txt args1 = save_txt args /\
                save_img args1 = save_img args /\
                output_dir args1 = output_dir args /\
                mode args1 = ds_mode ds /\
                names args1 = map strip (file_lines content) /\
                forall e w2,
                  images_loop X (main_device X args) false args1
                    (ds_paths ds) (main_model X args m) w1 = (inl e, w2) ->
                  main X args w = (inl e, w2))))) /\
  (forall device is_half args1 pre p post model m1 w0 w1 e w2,
     images_loop X device is_half args1 pre model w0 = (inr m1, w1) ->
     process_image X device is_half args1 m1 p w1 = (inl e, w2) ->
     images_loop X device is_half args1 (pre ++ p :: post) model w0
     = (inl e, w2)) /\
  (forall device is_half args1 model p w1,
     images w1 !! p = None ->
     (process_image X device is_half args1 model p w1).1
     = inl (RuntimeError "permute: number of dims don't match")) /\
  (forall device is_half args1 model p w1 m dets tc w2 e,
     inference X model p device is_half w1 = (inr (m, dets, tc), w2) ->
     (overlay_boxes X dets p tc args1 w2).1 = inl e ->
     (process_image X device is_half args1 model p w1).1 = inl e) /\
  (forall args1 p tc pred b sc lb summary e w1,
     pred !! "boxes" = Some (TBoxes b) ->
     pred !! "scores" = Some (TFloats sc) ->
     pred !! "labels" = Some (TLongs lb) ->
     summary_text X (names args1) lb (unique lb) = Some summary ->
     detections_of b sc lb <> [] ->
     save_txt args1 = true ->
     faults w1 !! txt_file_of args1 p = Some e ->
     (overlay_boxes X [Some pred] p tc args1 w1).1 = inl e) /\
  (exists t,
     trace (main X args w).2 = trace w ++ t /\
     match (main X args w).1 with
     | inl e => raised t = [e] /\ last t = Some (ERaise e)
     | inr _ => raised t = []
     end) /\
  (forall args1 p tc st i m e w1,
     save_img args1 = true ->
     mode args1 = "images" ->
     l_img st = Some m ->
     faults w1 !! save_path_of args1 p = Some e ->
     (overlay_pred X args1 p tc st (i, None) w1).1 = inr st /\
     images (overlay_pred X args1 p tc st (i, None) w1).2 = images w1).
Proof.
  split.
  { intros e Hhub. apply raises_fst. eexists. unfold main. cbv zeta.
    eapply run_then; [apply print_run|]. apply bind_fail.
    exact (yolov5_fails _ _ _ _ _ Hhub). }
  split.
  { intros m Hhub. split.
    { intros e Hds. apply raises_fst. eexists. unfold main. cbv zeta.
      eapply run_then; [apply print_run|].
      eapply run_then; [exact (yolov5_ok _ _ _ _ _ Hhub)|].
      apply bind_fail. exact (LoadImages_fails _ _ _ _ _ Hds). }
    intros ds Hds. split.
    { intros e Hf. apply raises_fst. eexists. unfold main. cbv zeta.
      eapply run_then; [apply print_run|].
      eapply run_then; [exact (yolov5_ok _ _ _ _ _ Hhub)|].
      eapply run_then; [exact (LoadImages_ok _ _ _ _ _ Hds)|].
      apply bind_fail. apply load_names_fault. exact Hf. }
    split.
    { intros Hf Ht. apply raises_fst. eexists. unfold main. cbv zeta.
      eapply run_then; [apply print_run|].
      eapply run_then; [exact (yolov5_ok _ _ _ _ _ Hhub)|].
      eapply run_then; [exact (LoadImages_ok _ _ _ _ _ Hds)|].
      apply bind_fail. apply load_names_missing; [exact Hf|exact Ht]. }
    intros content Hf Ht.
    destruct (main_reaches_warmup X args w m ds content Hhub Hds Hf Ht)
      as (args1 & w0 & rest & Hmain & Hdisk & Hargs).
    split.
    { intros e Hwarm. apply raises_fst. eexists. rewrite Hmain.
      apply bind_fail. exact (model_call_fails _ _ _ _ _ Hwarm). }
    intros warm Hwarm. exists args1, (log EForward w0).
    split; [exact Hdisk|].
    destruct Hargs as (H1 & H2 & H3 & H4 & H5).
    do 5 (split; [done|]).
    intros e w2 Hloop. rewrite Hmain.
    eapply run_then; [exact (model_call_ok _ _ _ _ _ Hwarm)|].
    by apply bind_fail. }
  split; [intros *; apply images_loop_stops|].
  split.
  { intros device is_half args1 model p w1 Hnone.
    destruct (inference_unreadable X model p device is_half w1 Hnone)
      as [w' Hinf].
    unfold process_image. by rewrite (bind_fail _ _ _ _ _ Hinf). }
  split.
  { intros device is_half args1 model p w1 m dets tc w2 e Hinf Hov.
    unfold process_image. rewrite (bind_run _ _ _ _ _ Hinf).
    destruct (overlay_boxes X dets p tc args1 w2) as [r w3] eqn:Hrun.
    simpl in Hov. subst r. by rewrite (bind_fail _ _ _ _ _ Hrun). }
  split.
  { intros args1 p tc pred b sc lb summary e w1 Hb Hs Hl Hsum Hne Htxt Hf.
    rewrite <- class_summary_text in Hsum.
    destruct (overlay_boxes_label_fault X args1 p tc pred b sc lb summary e
                w1 Hb Hs Hl Hsum Hne Htxt Hf) as [w' ->]. done. }
  split; [apply main_raises_once|].
  intros args1 p tc st i m e w1 Himg Hmode Hm Hf.
  destruct (overlay_pred_write_fault X args1 p tc st i m e w1 Himg Hmode Hm Hf)
    as (w' & -> & Himages). done.
Qed.

Lemma main_propagates_exceptions_witness :
  (main Demo.ext missing_args Demo.disk).1
  = inl (FileNotFoundError "missing.pt").
Proof.
  apply (proj1 (main_propagates_exceptions Demo.ext missing_args Demo.disk)).
  reflexivity.
Defined.

(** The annotated copy of [imgs/a.jpg] cannot be written.  The script
    raises nothing: it returns, no image [out/a.jpg] exists afterwards, the
    copy of the next image is written, and the line before the last says
    [Results saved to out]. *)
Lemma failed_imwrite_counterexample :
  (script Demo.ext Demo.argv readonly_disk).1 = inr tt /\
  images (script Demo.ext Demo.argv readonly_disk).2 !! "out/a.jpg" = None /\
  (exists m, images (script Demo.ext Demo.argv readonly_disk).2 !! "out/b.jpg"
             = Some m) /\
  rev (stdout (script Demo.ext Demo.argv readonly_disk).2) !! 1%nat
  = Some "Results saved to out".
Proof.
  split; [vm_compute; reflexivity|]. split; [vm_compute; reflexivity|].
  split; [vm_compute; eexists; reflexivity|vm_compute; reflexivity].
Qed.
